(** * Prometheus datasource (public/app/plugins/datasource/prometheus/datasource.ts)

    A shallow embedding of the query-window alignment, the interval
    adjustment, the request construction, the error normalisation, the
    metric-name cache and the annotation event extraction of
    [PrometheusDatasource], of the rule mapping and the escaping functions
    beside it and of [AppPlugin] (packages/grafana-ui/src/types/app.ts),
    followed by the properties proved about them.

    Conventions.
    - A JavaScript [number] is an exact rational ([Q]): a finite double
      and its arithmetic without the rounding. This is what the code
      computes wherever no operation rounds, and whatever survives
      rounding (an order kept by monotone operations, a maximum, a
      comparison of integers).
    - The arithmetic of [alignRange], [adjustInterval] and the window of
      [createQuery] is given a second time with the rounding of every
      operation written out ([alignRange_rounded],
      [adjustInterval_rounded], [queryWindow_rounded]), for any rounding
      that is [correctly_rounded]; [binary64], the rounding to the
      nearest number of 53 significant bits, is one. The properties that
      rounding can break are stated of these, for integers small enough
      that every operation is exact.
    - [alignRange] and [adjustInterval] are given a third time on IEEE
      binary64 (module [Binary64], on the kernel's floats), operation for
      operation, with the rounding, the infinities and [NaN]: the inputs
      at which the code leaves the exact reading are computed there.
    - Besides, [NaN] and the infinities appear where the code can produce
      them from text ([parseFloat], see [number]).
    - A value of type [any] is a JSON-like [value].
    - Host services the file imports but does not define (the template
      service, [kbn], [dateMath], the result transformer, the HTTP backend)
      are the fields of the class [Services]. *)

From Stdlib Require Import QArith Qround Qminmax Qabs Qpower ZArith Lia Lqa Ascii String.
From Stdlib Require Import Floats.PrimFloat Floats.SpecFloat Floats.FloatOps.
From stdpp Require Import gmap strings list pretty.

Set Warnings "-register-all,-inexact-float".
Open Scope Q_scope.

(** ** Numbers *)

Module JS.

Definition Math_floor (x : Q) : Q := inject_Z (Qfloor x).
Definition Math_ceil (x : Q) : Q := inject_Z (Qceiling x).
(** [Math.round] rounds half up. *)
Definition Math_round (x : Q) : Q := inject_Z (Qfloor (x + (1 # 2))).
Definition Math_max (a b c : Q) : Q := Qmax (Qmax a b) c.

(** [x > y] and [x !== y] on numbers. *)
Definition gt (x y : Q) : bool := negb (Qle_bool x y).
Definition strict_ne (x y : Q) : bool := negb (Qeq_bool x y).

(** *** Values of type [any] *)

Inductive value : Type :=
| VUndefined
| VNull
| VBool (b : bool)
| VNum (n : Q)
| VStr (s : string)
| VArr (items : list value)
| VObj (props : list (string * value)).

(** Truthiness ([if (v)], [!v], [a || b]). *)
Definition truthy (v : value) : bool :=
  match v with
  | VUndefined | VNull => false
  | VBool b => b
  | VNum n => negb (Qeq_bool n 0)
  | VStr s => negb (String.eqb s "")
  | VArr _ | VObj _ => true
  end.

Definition nullish (v : value) : bool :=
  match v with
  | VUndefined | VNull => true
  | _ => false
  end.

Fixpoint assoc {A : Type} (k : string) (props : list (string * A)) : option A :=
  match props with
  | [] => None
  | (k', v) :: rest => if String.eqb k k' then Some v else assoc k rest
  end.

(** [v.k] for a [v] that is neither [null] nor [undefined]. The property
    names read in this file ([cancelled], [data], [error], [message],
    [status], [statusText]) exist on no primitive and on no array, so
    only objects answer with something else than [undefined]. *)
Definition prop (v : value) (k : string) : value :=
  match v with
  | VObj props => default VUndefined (assoc k props)
  | _ => VUndefined
  end.

(** What a failed property access or method call throws. *)
Definition TypeError : value := VObj [("name", VStr "TypeError")].

(** Outcome of a synchronous call, and state of a settled promise. *)
Inductive completion (A : Type) : Type :=
| Normal (a : A)
| Throw (e : value).

Inductive promise (A : Type) : Type :=
| Resolved (a : A)
| Rejected (e : value).

Arguments Normal {A} a.
Arguments Throw {A} e.
Arguments Resolved {A} a.
Arguments Rejected {A} e.

(** *** Numbers read from text

    [parseFloat] can answer [NaN] or an infinity; [Math.floor] keeps
    those and turns a finite number into an integer. *)
Inductive number : Type :=
| Finite (q : Q)
| Infinity (negative : bool)
| NaN.

Inductive integer : Type :=
| Int (z : Z)
| IntInfinity (negative : bool)
| IntNaN.

Definition floor (n : number) : integer :=
  match n with
  | Finite q => Int (Qfloor q)
  | Infinity s => IntInfinity s
  | NaN => IntNaN
  end.

Definition times (i : integer) (k : Z) : integer :=
  match i with
  | Int z => Int (z * k)
  | other => other
  end.

#[global] Instance integer_eq_dec : EqDecision integer.
Proof. solve_decision. Defined.

Definition integer_code (i : integer) : Z + (bool + unit) :=
  match i with
  | Int z => inl z
  | IntInfinity s => inr (inl s)
  | IntNaN => inr (inr tt)
  end.

Definition integer_decode (c : Z + (bool + unit)) : integer :=
  match c with
  | inl z => Int z
  | inr (inl s) => IntInfinity s
  | inr (inr _) => IntNaN
  end.

#[global] Instance integer_countable : Countable integer.
Proof.
  refine (inj_countable' integer_code integer_decode _).
  intros []; reflexivity.
Defined.

(** *** Strings *)

(** [s.indexOf(q)]: the first position of [q] in [s], or [-1]. *)
Definition indexOf (s q : string) : Z :=
  match String.index 0 q s with
  | Some n => Z.of_nat n
  | None => (-1)%Z
  end.

(** [s.split(c)] for a one-character separator. *)
Fixpoint split (sep : Ascii.ascii) (s : string) : list string :=
  match s with
  | EmptyString => [EmptyString]
  | String c rest =>
      if Ascii.eqb c sep then EmptyString :: split sep rest
      else match split sep rest with
           | [] => [String c EmptyString]
           | w :: ws => String c w :: ws
           end
  end.

(** [parts.join(sep)]. *)
Fixpoint join (sep : string) (parts : list string) : string :=
  match parts with
  | [] => ""
  | [p] => p
  | p :: rest => p +:+ sep +:+ join sep rest
  end.

End JS.

Import JS.

(** ** Query window and step *)

Record AlignedRange := { aligned_end : Q; aligned_start : Q }.

(** [alignRange]: rounds start and end down to a multiple of step. *)
Definition alignRange (start end' step : Q) : AlignedRange :=
  let alignedEnd := Math_floor (end' / step) * step in
  let alignedStart := Math_floor (start / step) * step in
  {| aligned_end := alignedEnd; aligned_start := alignedStart |}.

(** [adjustInterval]: Prometheus drops queries that might return more than
    11000 data points, so an interval that is too small is calibrated. *)
Definition adjustInterval (interval minInterval range intervalFactor : Q) : Q :=
  let interval :=
    if strict_ne interval 0 && gt (range / intervalFactor / interval) 11000
    then Math_ceil (range / intervalFactor / 11000)
    else interval in
  Math_max (interval * intervalFactor) minInterval 1.

(** ** The same arithmetic, rounded

    JavaScript rounds the result of every [/] and [*] to a double. In
    [alignRange_rounded] and [adjustInterval_rounded] this rounding is the
    function [round], applied where the code rounds; [Math.floor],
    [Math.ceil], [Math.max] and the comparisons are exact. With the
    identity for [round] these are [alignRange] and [adjustInterval]. *)
Definition alignRange_rounded (round : Q -> Q) (start end' step : Q) : AlignedRange :=
  let alignedEnd := round (Math_floor (round (end' / step)) * step) in
  let alignedStart := round (Math_floor (round (start / step)) * step) in
  {| aligned_end := alignedEnd; aligned_start := alignedStart |}.

Definition adjustInterval_rounded (round : Q -> Q)
    (interval minInterval range intervalFactor : Q) : Q :=
  let interval :=
    if strict_ne interval 0 && gt (round (round (range / intervalFactor) / interval)) 11000
    then Math_ceil (round (round (range / intervalFactor) / 11000))
    else interval in
  Math_max (round (interval * intervalFactor)) minInterval 1.

(** What the properties below use of the rounding of binary64 (to the
    nearest double): it is a monotone function of the number, it keeps
    every integer up to 2^53, and between 2^-60 and 2^60, where every
    double is normal, it moves a number by at most 2^-53 of its
    magnitude. *)
Definition correctly_rounded (round : Q -> Q) : Prop :=
  (forall x y : Q, x == y -> round x == round y) /\
  (forall x y : Q, x <= y -> round x <= round y) /\
  (forall n : Z, (Z.abs n <= 2 ^ 53)%Z -> round (inject_Z n) == inject_Z n) /\
  (forall x : Q, 1 # 2 ^ 60 <= Qabs x -> Qabs x <= 2 ^ 60 ->
                 Qabs (round x - x) <= Qabs x * (1 # 2 ^ 53)).

(** The rounding itself, on rationals: [binary64 x] is the number with 53
    significant bits nearest to [x], the even one of two that are equally
    near. [binade x] is the exponent of the power of two at or below the
    magnitude of [x]. The exponent is not bounded, so [binary64] is the
    rounding of a double wherever the double is normal and finite. *)
Definition binade (x : Q) : Z :=
  let guess := (Z.log2 (Z.abs (Qnum x)) - Z.log2 (Z.pos (Qden x)))%Z in
  if Qle_bool (2 ^ guess) (Qabs x) then guess else (guess - 1)%Z.

Definition nearest_even (m : Q) : Z :=
  let k := Qfloor m in
  match Qcompare (m - inject_Z k) (1 # 2) with
  | Lt => k
  | Gt => (k + 1)%Z
  | Eq => if Z.even k then k else (k + 1)%Z
  end.

Definition binary64 (x : Q) : Q :=
  if Qeq_bool x 0 then 0
  else
    let ulp := 2 ^ (binade x - 52) in
    inject_Z (nearest_even (x / ulp)) * ulp.

(** ** The same arithmetic with infinities and [NaN]

    [adjustInterval] on [number]: a finite result is rounded by [round],
    which may overflow to an infinity; a division by zero is an infinity,
    or [NaN] for 0 / 0; infinity * 0 and infinity / infinity are [NaN];
    every comparison with [NaN] is false and [Math.max] answers [NaN] as
    soon as an argument is. The sign of a zero is not kept: it is read
    only by a division by that zero, whose infinity is taken positive for
    a positive dividend. *)

Module Extended.

Definition negative (q : Q) : bool := negb (Qle_bool 0 q).

Definition div (round : Q -> number) (x y : number) : number :=
  match x, y with
  | NaN, _ | _, NaN => NaN
  | Infinity _, Infinity _ => NaN
  | Infinity s, Finite q => Infinity (xorb s (negative q))
  | Finite _, Infinity _ => Finite 0
  | Finite p, Finite q =>
      if Qeq_bool q 0
      then if Qeq_bool p 0 then NaN else Infinity (negative p)
      else round (p / q)
  end.

Definition mul (round : Q -> number) (x y : number) : number :=
  match x, y with
  | NaN, _ | _, NaN => NaN
  | Infinity s, Infinity t => Infinity (xorb s t)
  | Infinity s, Finite q | Finite q, Infinity s =>
      if Qeq_bool q 0 then NaN else Infinity (xorb s (negative q))
  | Finite p, Finite q => round (p * q)
  end.

Definition Math_ceil (x : number) : number :=
  match x with
  | Finite q => Finite (inject_Z (Qceiling q))
  | other => other
  end.

(** [x <= y], [x >= y], [x > y] and [x !== y]: every comparison with
    [NaN] is false, and [NaN] differs from everything. *)
Definition le (x y : number) : bool :=
  match x, y with
  | NaN, _ | _, NaN => false
  | Infinity true, _ => true
  | _, Infinity false => true
  | Finite p, Finite q => Qle_bool p q
  | _, _ => false
  end.

Definition ge (x y : number) : bool := le y x.

Definition gt (x y : number) : bool :=
  match x, y with
  | NaN, _ | _, NaN => false
  | _, _ => negb (le x y)
  end.

Definition strict_ne (x y : number) : bool :=
  match x, y with
  | Finite p, Finite q => negb (Qeq_bool p q)
  | Infinity s, Infinity t => xorb s t
  | _, _ => true
  end.

Definition max2 (x y : number) : number :=
  match x, y with
  | NaN, _ | _, NaN => NaN
  | _, _ => if gt y x then y else x
  end.

Definition Math_max (a b c : number) : number := max2 (max2 a b) c.

Definition adjustInterval (round : Q -> number)
    (interval minInterval range intervalFactor : number) : number :=
  let interval :=
    if strict_ne interval (Finite 0) &&
       gt (div round (div round range intervalFactor) interval) (Finite 11000)
    then Math_ceil (div round (div round range intervalFactor) (Finite 11000))
    else interval in
  Math_max (mul round interval intervalFactor) minInterval (Finite 1).

End Extended.

(** ** The same arithmetic on binary64

    [Math.floor], [Math.ceil], [Math.max], [>] and [!==] on the kernel's
    floats, and the two functions above written with them: every [/] and
    [*] rounds to the nearest double, a division by zero is an infinity
    or [NaN], and [Math.max] answers [NaN] as soon as an argument is. *)

Module Binary64.

(** [Math.floor]. A finite double is m * 2^e with m below 2^53: with
    e >= 0 it is an integer already, otherwise the integer part is below
    2^53 and converts exactly. Zeros, infinities and [NaN] are kept. *)
Definition Math_floor (x : float) : float :=
  match Prim2SF x with
  | S754_finite negative m e =>
      if (0 <=? e)%Z then x
      else
        let whole := (Z.pos m / 2 ^ (- e))%Z in
        let magnitude :=
          if negative && negb (Z.pos m mod 2 ^ (- e) =? 0)%Z
          then (whole + 1)%Z else whole in
        let result := PrimFloat.of_uint63 (Uint63Axioms.of_Z magnitude) in
        if negative then (- result)%float else result
  | _ => x
  end.

Definition Math_ceil (x : float) : float := (- Math_floor (- x))%float.

Definition max2 (a b : float) : float :=
  if PrimFloat.is_nan a || PrimFloat.is_nan b then PrimFloat.nan
  else if PrimFloat.ltb a b then b
  else if PrimFloat.ltb b a then a
  else if PrimFloat.get_sign a then b else a.

Definition Math_max (a b c : float) : float := max2 (max2 a b) c.

Definition gt (x y : float) : bool := PrimFloat.ltb y x.
Definition strict_ne (x y : float) : bool := negb (PrimFloat.eqb x y).

Record AlignedRange := { aligned_end : float; aligned_start : float }.

Definition alignRange (start end' step : float) : AlignedRange :=
  let alignedEnd := (Math_floor (end' / step) * step)%float in
  let alignedStart := (Math_floor (start / step) * step)%float in
  {| aligned_end := alignedEnd; aligned_start := alignedStart |}.

Definition adjustInterval (interval minInterval range intervalFactor : float) : float :=
  let interval :=
    if strict_ne interval 0 && gt (range / intervalFactor / interval) 11000
    then Math_ceil (range / intervalFactor / 11000)
    else interval in
  Math_max (interval * intervalFactor) minInterval 1.

(** The rational a finite double stands for (0 for the others). *)
Definition exact (x : float) : Q :=
  match Prim2SF x with
  | S754_finite negative m e =>
      (if negative then - inject_Z (Z.pos m) else inject_Z (Z.pos m)) * 2 ^ e
  | _ => 0
  end.

(** The double of an integer (exact below 2^53). *)
Definition of_Z (z : Z) : float :=
  let magnitude := PrimFloat.of_uint63 (Uint63Axioms.of_Z (Z.abs z)) in
  if (z <? 0)%Z then (- magnitude)%float else magnitude.

End Binary64.

(** Whether the doubles and the rationals compute the same at integers. *)
Definition alignRange_agrees (start end' step : Z) : bool :=
  let on_doubles :=
    Binary64.alignRange (Binary64.of_Z start) (Binary64.of_Z end') (Binary64.of_Z step) in
  let exactly := alignRange (inject_Z start) (inject_Z end') (inject_Z step) in
  Qeq_bool (Binary64.exact (Binary64.aligned_start on_doubles)) (aligned_start exactly)
  && Qeq_bool (Binary64.exact (Binary64.aligned_end on_doubles)) (aligned_end exactly).

Definition adjustInterval_agrees (interval minInterval range intervalFactor : Z) : bool :=
  Qeq_bool
    (Binary64.exact
       (Binary64.adjustInterval (Binary64.of_Z interval) (Binary64.of_Z minInterval)
          (Binary64.of_Z range) (Binary64.of_Z intervalFactor)))
    (adjustInterval (inject_Z interval) (inject_Z minInterval) (inject_Z range)
       (inject_Z intervalFactor)).

(** ** Escaping of template values *)

Definition backslash : string := String (Ascii.ascii_of_nat 92) EmptyString.

Fixpoint replace_each (f : Ascii.ascii -> string) (s : string) : string :=
  match s with
  | EmptyString => EmptyString
  | String c rest => f c +:+ replace_each f rest
  end.

Fixpoint mem_char (c : Ascii.ascii) (s : string) : bool :=
  match s with
  | EmptyString => false
  | String c' rest => Ascii.eqb c c' || mem_char c rest
  end.

Definition prometheusRegularEscape (v : value) : value :=
  match v with
  | VStr s =>
      VStr (replace_each
              (fun c => if Ascii.eqb c "'"%char then backslash +:+ backslash +:+ "'"
                        else String c EmptyString) s)
  | _ => v
  end.

Definition prometheusSpecialRegexEscape (v : value) : value :=
  match v with
  | VStr s =>
      let s1 := replace_each
                  (fun c => if Ascii.eqb c (Ascii.ascii_of_nat 92)
                            then backslash +:+ backslash +:+ backslash +:+ backslash
                            else String c EmptyString) s in
      let s2 := replace_each
                  (fun c => if mem_char c "$^*{}[]+?.()|"
                            then backslash +:+ backslash +:+ String c EmptyString
                            else String c EmptyString) s1 in
      prometheusRegularEscape (VStr s2)
  | _ => v
  end.

(** ** Data model *)

(** Only [PromContext.Explore] is named by the datasource; [Panel] stands
    for every other context. *)
Inductive PromContext := Explore | Panel.

#[global] Instance PromContext_eq_dec : EqDecision PromContext.
Proof. solve_decision. Defined.

(** A query target as the host hands it over. Every optional property is
    an [option], [None] being [undefined]. *)
Record PromQuery := {
  target_expr : option string;
  target_hide : option bool;
  target_context : option PromContext;
  target_format : option string;
  target_instant : option bool;
  target_interval : option string;
  target_intervalFactor : option Q;
  target_legendFormat : option string;
  target_hinting : option bool;
  target_refId : string;
  target_requestId : option string;
  target_valueWithRefId : option bool;
  target_maxDataPoints : option Q
}.

(** The request built from a target by [createQuery]. *)
Record PromQueryRequest := {
  query_hinting : option bool;
  query_instant : option bool;
  query_step : Q;
  query_expr : string;
  query_requestId : string;
  query_refId : string;
  query_start : Q;
  query_end : Q;
  query_headers : option (gmap string value)
}.

Inductive DateTime :=
| DateString (s : string)
| Moment (ms : Q).

Record TimeRange := { range_from : DateTime; range_to : DateTime }.

Record ScopedVar := { sv_text : value; sv_value : value }.

Record DataQueryRequest := {
  options_targets : list PromQuery;
  options_range : TimeRange;
  options_interval : string;
  options_scopedVars : gmap string ScopedVar;
  options_panelId : value;
  options_dashboardId : value;
  options_headers : option (gmap string value)
}.

Record TemplateVariable := { variable_multi : value; variable_includeAll : value }.

Record AdhocFilter := { filter_key : string; filter_operator : string; filter_value : value }.

Record TransformerOptions := {
  transformer_format : option string;
  transformer_step : Q;
  transformer_legendFormat : option string;
  transformer_start : Q;
  transformer_end : Q;
  transformer_query : string;
  transformer_responseListLength : nat;
  transformer_refId : string;
  transformer_valueWithRefId : option bool
}.

(** The datasource instance: the settings read by the constructor. The
    mutable [metricsNameCache] lives in the [world]. *)
Record PrometheusDatasource := {
  ds_name : string;
  ds_url : string;
  ds_basicAuth : value;
  ds_withCredentials : value;
  ds_interval : string;
  ds_queryTimeout : value;
  ds_httpMethod : string
}.

(** The options handed to [backendSrv.datasourceRequest]. *)
Record httpOptions := {
  http_url : string;
  http_method : string;
  http_headers : gmap string value;
  http_requestId : option string;
  http_silent : bool;
  http_withCredentials : bool;
  http_data : option (list (string * value));
  http_transformRequest : bool
}.

(** The options a caller passes to [_request] before the defaults. *)
Record requestOptions := {
  ro_method : option string;
  ro_headers : option (gmap string value);
  ro_requestId : option string;
  ro_silent : bool
}.

Inductive LoadingState := Loading | Done.

(** What [runObserverQueries] hands to the stream observer. *)
Record DataStreamState := {
  stream_key : string;
  stream_state : LoadingState;
  stream_request : DataQueryRequest;
  stream_delta : list value
}.

Record MetricsNameCache := { cache_data : value; cache_expire : Q }.

(** Everything the datasource reads or changes outside its arguments: the
    requests handed to the backend so far, the clock behind [Date.now()],
    the metric-name cache and the states delivered to the observer. *)
Record world := {
  requests : list httpOptions;
  now : Q;
  metricsNameCache : option MetricsNameCache;
  observed : list DataStreamState
}.

(** Rows of a range-query response and the events built from them. *)
Record Series := {
  series_metric : list (string * string);
  series_values : list (Q * string)
}.

Record Annotation := {
  annotation_expr : option string;
  annotation_tagKeys : option string;
  annotation_titleFormat : option string;
  annotation_textFormat : option string;
  annotation_step : option string;
  annotation_useValueForTime : value
}.

Record AnnotationEvent := {
  event_annotation : Annotation;
  event_title : string;
  event_tags : list string;
  event_text : string;
  event_time : integer
}.

(** The rows of [results.data.data.result] as Prometheus sends them for a
    range query: an array of
    [{ metric: { label: text, ... }, values: [[time, text], ...] }].
    A missing result has no rows ([_.each] passes over [undefined] and
    [null]); anything else is not read here. *)
Definition labelOf (kv : string * value) : option (string * string) :=
  match snd kv with
  | VStr text => Some (fst kv, text)
  | _ => None
  end.

Definition sampleOf (v : value) : option (Q * string) :=
  match v with
  | VArr [VNum time; VStr text] => Some (time, text)
  | _ => None
  end.

Definition rowOf (v : value) : option Series :=
  match prop v "metric", prop v "values" with
  | VObj metric, VArr values =>
      labels ← mapM labelOf metric;
      samples ← mapM sampleOf values;
      Some {| series_metric := labels; series_values := samples |}
  | _, _ => None
  end.

Definition rowsOf (result : value) : option (list Series) :=
  match result with
  | VArr rows => mapM rowOf rows
  | VUndefined | VNull => Some []
  | _ => None
  end.

(** ** Effects

    A method that talks to the backend, reads the clock or touches the
    cache is a state transformer over the [world]. *)

Definition M (A : Type) : Type := world -> A * world.

#[global] Instance M_ret : MRet M := fun A a w => (a, w).
#[global] Instance M_bind : MBind M :=
  fun A B f m w => let '(a, w') := m w in f a w'.

(** [promise.catch(handler)] and [promise.then(callback)]: a handler that
    returns resolves the promise, one that throws rejects it. *)
Definition catch (p : promise value) (handler : value -> completion value) : promise value :=
  match p with
  | Resolved r => Resolved r
  | Rejected err =>
      match handler err with
      | Normal v => Resolved v
      | Throw e => Rejected e
      end
  end.

Definition then_ {A B : Type} (p : promise A) (callback : A -> completion B) : promise B :=
  match p with
  | Resolved r =>
      match callback r with
      | Normal v => Resolved v
      | Throw e => Rejected e
      end
  | Rejected e => Rejected e
  end.

(** [$q.all]: resolved with every result once all are resolved, rejected
    with the first rejection otherwise. *)
Fixpoint all {A : Type} (promises : list (promise A)) : promise (list A) :=
  match promises with
  | [] => Resolved []
  | Resolved r :: rest =>
      match all rest with
      | Resolved rs => Resolved (r :: rs)
      | Rejected e => Rejected e
      end
  | Rejected e :: _ => Rejected e
  end.

(** ** Host services

    What the datasource imports or is injected with, and does not define. *)
Class Services := {
  (** [kbn.interval_to_seconds], [kbn.secondsToHms] *)
  interval_to_seconds : string -> Q;
  secondsToHms : Q -> string;
  (** [dateMath.parse(text, roundUp).valueOf()] and moment's [to.diff(from)] *)
  dateMath_parse : string -> bool -> Q;
  moment_diff : DateTime -> DateTime -> Q;
  (** [templateSrv.replace], [templateSrv.getAdhocFilters], [addLabelToQuery] *)
  templateSrv_replace :
    option string -> gmap string ScopedVar ->
    option (value -> TemplateVariable -> value) -> string;
  templateSrv_getAdhocFilters : string -> list AdhocFilter;
  addLabelToQuery : option string -> string -> value -> string -> string;
  (** [resultTransformer.transform], [resultTransformer.renderTemplate] *)
  resultTransformer_transform : value -> TransformerOptions -> list value;
  resultTransformer_renderTemplate : string -> list (string * string) -> string;
  (** [safeStringifyValue] of app/core/utils/explore *)
  safeStringifyValue : value -> string;
  (** The language's own [ToString], [encodeURIComponent], [parseFloat] *)
  ToString : value -> string;
  encodeURIComponent : string -> string;
  parseFloat : string -> number;
  (** [backendSrv.datasourceRequest]: how the request settles, and the time
      that passes until it does *)
  backendSrv_datasourceRequest : world -> httpOptions -> promise value * Q;
  (** The callback of [annotationQuery] on a result that is no array of
      well-formed rows (see [rowsOf]): what the loose reads and coercions
      of the language make of it, a list of events or a [TypeError] *)
  looseAnnotationEvents : Annotation -> value -> completion (list AnnotationEvent)
}.

(** ** The datasource *)

Section Datasource.

Context `{host : !Services}.

Definition Date_now : M Q := fun w => (now w, w).

Definition datasourceRequest (options : httpOptions) : M (promise value) :=
  fun w =>
    let '(settled, elapsed) := backendSrv_datasourceRequest w options in
    (settled,
     {| requests := requests w ++ [options];
        now := now w + elapsed;
        metricsNameCache := metricsNameCache w;
        observed := observed w |}).

Definition setMetricsNameCache (c : MetricsNameCache) : M unit :=
  fun w =>
    (tt,
     {| requests := requests w;
        now := now w;
        metricsNameCache := Some c;
        observed := observed w |}).

Definition observer (state : DataStreamState) : M unit :=
  fun w =>
    (tt,
     {| requests := requests w;
        now := now w;
        metricsNameCache := metricsNameCache w;
        observed := observed w ++ [state] |}).

(** [_addTracingHeaders]: the headers it leaves on the query. *)
Definition _addTracingHeaders (ds : PrometheusDatasource) (options : DataQueryRequest)
  : gmap string value :=
  let headers := default ∅ (options_headers options) in
  let proxyMode := negb (String.prefix "http" (ds_url ds)) in
  if proxyMode
  then <["X-Panel-Id" := options_panelId options]>
         (<["X-Dashboard-Id" := options_dashboardId options]> headers)
  else headers.

Definition encodeParam (kv : string * value) : string :=
  encodeURIComponent (fst kv) +:+ "=" +:+ encodeURIComponent (ToString (snd kv)).

Definition isEmpty (data : option (list (string * value))) : bool :=
  match data with
  | None | Some [] => true
  | Some (_ :: _) => false
  end.

Definition _request (ds : PrometheusDatasource) (url : string)
    (data : option (list (string * value))) (options : option requestOptions)
  : M (promise value) :=
  let options :=
    default {| ro_method := None; ro_headers := None;
               ro_requestId := None; ro_silent := false |} options in
  let url := ds_url ds +:+ url in
  let method := default (ds_httpMethod ds) (ro_method options) in
  let headers := default ∅ (ro_headers options) in
  let get := String.eqb method "GET" in
  let url :=
    if get && negb (isEmpty data)
    then url +:+ "?" +:+ join "&" (map encodeParam (default [] data))
    else url in
  let headers :=
    if get then headers
    else <["Content-Type" := VStr "application/x-www-form-urlencoded"]> headers in
  let headers :=
    if truthy (ds_basicAuth ds)
    then <["Authorization" := ds_basicAuth ds]> headers
    else headers in
  datasourceRequest
    {| http_url := url;
       http_method := method;
       http_headers := headers;
       http_requestId := ro_requestId options;
       http_silent := ro_silent options;
       http_withCredentials :=
         truthy (ds_basicAuth ds) || truthy (ds_withCredentials ds);
       http_data := if get then None else data;
       http_transformRequest := negb get |}.

Definition metadataRequest (ds : PrometheusDatasource) (url : string) : M (promise value) :=
  _request ds url None
    (Some {| ro_method := Some "GET"; ro_headers := None;
             ro_requestId := None; ro_silent := true |}).

(** [_.map(collection, f)] over a value of type [any]. *)
Definition lodash_items (collection : value) : list value :=
  match collection with
  | VArr items => items
  | VObj props => map snd props
  | VStr s => map (fun c => VStr (String c EmptyString)) (list_ascii_of_string s)
  | _ => []
  end.

Definition interpolateQueryExpr (v : value) (variable : TemplateVariable) : value :=
  if negb (truthy (variable_multi variable)) && negb (truthy (variable_includeAll variable))
  then prometheusRegularEscape v
  else match v with
       | VStr _ => prometheusSpecialRegexEscape v
       | _ =>
           let escapedValues := map prometheusSpecialRegexEscape (lodash_items v) in
           (* [join] writes [null] and [undefined] as the empty string *)
           VStr (join "|" (map (fun item => if nullish item then "" else ToString item)
                               escapedValues))
       end.

Definition processResult (response : value) (query : PromQueryRequest) (target : PromQuery)
    (responseListLength : nat) : list value :=
  let transformerOptions :=
    {| transformer_format := target_format target;
       transformer_step := query_step query;
       transformer_legendFormat := target_legendFormat target;
       transformer_start := query_start query;
       transformer_end := query_end query;
       transformer_query := query_expr query;
       transformer_responseListLength := responseListLength;
       transformer_refId := target_refId target;
       transformer_valueWithRefId := target_valueWithRefId target |} in
  resultTransformer_transform response transformerOptions.

(** [getPrometheusTime]: seconds, rounded up, of a moment or of a date
    expression. *)
Definition getPrometheusTime (date : DateTime) (roundUp : bool) : Q :=
  let ms :=
    match date with
    | DateString s => dateMath_parse s roundUp
    | Moment ms => ms
    end in
  Math_ceil (ms / 1000).

(** [getRangeScopedVars], which [createQuery] calls with the range of the
    request (the fallback to the time service is for a missing range). *)
Definition getRangeScopedVars (range : TimeRange) : gmap string ScopedVar :=
  let msRange := moment_diff (range_to range) (range_from range) in
  let sRange := Math_round (msRange / 1000) in
  let regularRange := secondsToHms (msRange / 1000) in
  <["__range" := {| sv_text := VStr regularRange; sv_value := VStr regularRange |}]>
    (<["__range_s" := {| sv_text := VNum sRange; sv_value := VNum sRange |}]>
       (<["__range_ms" := {| sv_text := VNum msRange; sv_value := VNum msRange |}]> ∅)).

(** [handleErrors] is declared for a target and called with the query
    built from it; it reads the [refId] only. *)
Definition handleErrors (err : value) (target : PromQueryRequest) : completion value :=
  if nullish err then Throw TypeError
  else if truthy (prop err "cancelled") then Normal err
  else
    let unknown :=
      VStr "Unknown error during query transaction. Please check JS console logs." in
    let data := prop err "data" in
    let message :=
      if truthy data then
        match data with
        | VStr _ => data
        | _ =>
            if truthy (prop data "error")
            then VStr (safeStringifyValue (prop data "error"))
            else unknown
        end
      else if truthy (prop err "message") then prop err "message"
      else match err with
           | VStr _ => err
           | _ => unknown
           end in
    Throw (VObj [("message", message);
                 ("refId", VStr (query_refId target));
                 ("status", prop err "status");
                 ("statusText", prop err "statusText")]).

(** The [data] object of a range query and of an instant query. *)
Definition timeoutParam (ds : PrometheusDatasource) : list (string * value) :=
  if truthy (ds_queryTimeout ds) then [("timeout", ds_queryTimeout ds)] else [].

Definition performTimeSeriesQuery (ds : PrometheusDatasource) (query : PromQueryRequest)
    (start end' : Q) : M (completion (promise value)) :=
  if gt start end'
  then mret (Throw (VObj [("message", VStr "Invalid time range")]))
  else
    let url := "/api/v1/query_range" in
    let data :=
      [("query", VStr (query_expr query));
       ("start", VNum start);
       ("end", VNum end');
       ("step", VNum (query_step query))] ++ timeoutParam ds in
    settled ← _request ds url (Some data)
      (Some {| ro_method := None; ro_headers := query_headers query;
               ro_requestId := Some (query_requestId query); ro_silent := false |});
    mret (Normal (catch settled (fun err => handleErrors err query))).

Definition performInstantQuery (ds : PrometheusDatasource) (query : PromQueryRequest)
    (time : Q) : M (completion (promise value)) :=
  let url := "/api/v1/query" in
  let data :=
    [("query", VStr (query_expr query)); ("time", VNum time)] ++ timeoutParam ds in
  settled ← _request ds url (Some data)
    (Some {| ro_method := None; ro_headers := query_headers query;
             ro_requestId := Some (query_requestId query); ro_silent := false |});
  mret (Normal (catch settled (fun err => handleErrors err query))).

(** [a || b] on strings. *)
Definition or_string (a b : string) : string :=
  if String.eqb a "" then b else a.

(** [!target.expr]. *)
Definition falsy_string (s : option string) : bool :=
  match s with
  | None => true
  | Some s => String.eqb s ""
  end.

(** [target.intervalFactor || 1]. *)
Definition or_one (n : option Q) : Q :=
  match n with
  | None => 1
  | Some n => if Qeq_bool n 0 then 1 else n
  end.

Definition applyAdhocFilter (acc : option string) (filter : AdhocFilter) : option string :=
  let key := filter_key filter in
  let operator := filter_operator filter in
  let v := filter_value filter in
  let v :=
    if String.eqb operator "=~" || String.eqb operator "!~"
    then prometheusRegularEscape v
    else v in
  Some (addLabelToQuery acc key v operator).

Definition createQuery (ds : PrometheusDatasource) (target : PromQuery)
    (options : DataQueryRequest) (start end' : Q) : PromQueryRequest :=
  let range := Math_ceil (end' - start) in
  (* options.interval is the dynamically calculated interval *)
  let interval := interval_to_seconds (options_interval options) in
  (* minimum interval ("Min step"), or the same as interval otherwise *)
  let minInterval :=
    interval_to_seconds
      (or_string
         (templateSrv_replace (target_interval target) (options_scopedVars options) None)
         (options_interval options)) in
  let intervalFactor := or_one (target_intervalFactor target) in
  let adjustedInterval := adjustInterval interval minInterval range intervalFactor in
  let rangeVars := getRangeScopedVars (options_range options) in
  let scopedVars := rangeVars ∪ options_scopedVars options in
  let adjusted := strict_ne interval adjustedInterval in
  let interval := if adjusted then adjustedInterval else interval in
  let scopedVars :=
    if adjusted
    then
      let intervalText := VStr (ToString (VNum interval) +:+ "s") in
      let intervalMs := VNum (interval * 1000) in
      (rangeVars ∪
         <["__interval_ms" := {| sv_text := intervalMs; sv_value := intervalMs |}]>
           (<["__interval" := {| sv_text := intervalText; sv_value := intervalText |}]> ∅))
        ∪ options_scopedVars options
    else scopedVars in
  let step := interval in
  (* apply adhoc filters *)
  let adhocFilters := templateSrv_getAdhocFilters (ds_name ds) in
  let expr := fold_left applyAdhocFilter adhocFilters (target_expr target) in
  (* align the query interval with the step *)
  let aligned := alignRange start end' step in
  {| query_hinting := target_hinting target;
     query_instant := target_instant target;
     query_step := step;
     query_expr := templateSrv_replace expr scopedVars (Some interpolateQueryExpr);
     query_requestId := ToString (options_panelId options) +:+ target_refId target;
     query_refId := target_refId target;
     query_start := aligned_start aligned;
     query_end := aligned_end aligned;
     query_headers := Some (_addTracingHeaders ds options) |}.

(** The numbers of [createQuery] with every operation rounded: the range
    [Math.ceil(end - start)], the step, which is the adjusted interval,
    and the window aligned to it. *)
Definition queryWindow_rounded (round : Q -> Q)
    (start end' interval minInterval intervalFactor : Q) : Q * AlignedRange :=
  let range := Math_ceil (round (end' - start)) in
  let adjustedInterval :=
    adjustInterval_rounded round interval minInterval range intervalFactor in
  let interval := if strict_ne interval adjustedInterval then adjustedInterval else interval in
  let step := interval in
  (step, alignRange_rounded round start end' step).

Record PreparedTargets := {
  queries : list PromQueryRequest;
  activeTargets : list PromQuery;
  (** the targets of [options] once the loop has updated the Explore ones
      in place *)
  targets : list PromQuery
}.

(** The target an Explore query is switched to, and its instant twin. *)
Definition rangeTarget (target : PromQuery) : PromQuery :=
  {| target_expr := target_expr target;
     target_hide := target_hide target;
     target_context := target_context target;
     target_format := Some "time_series";
     target_instant := Some false;
     target_interval := target_interval target;
     target_intervalFactor := target_intervalFactor target;
     target_legendFormat := target_legendFormat target;
     target_hinting := target_hinting target;
     target_refId := target_refId target;
     target_requestId := target_requestId target;
     target_valueWithRefId := target_valueWithRefId target;
     target_maxDataPoints := target_maxDataPoints target |}.

Definition instantTarget (target : PromQuery) : PromQuery :=
  {| target_expr := target_expr target;
     target_hide := target_hide target;
     target_context := target_context target;
     target_format := Some "table";
     target_instant := Some true;
     target_interval := target_interval target;
     target_intervalFactor := target_intervalFactor target;
     target_legendFormat := target_legendFormat target;
     target_hinting := target_hinting target;
     target_refId := target_refId target +:+ "_instant";
     target_requestId := Some (default "undefined" (target_requestId target) +:+ "_instant");
     target_valueWithRefId := Some true;
     target_maxDataPoints := None |}.

Definition skipped (target : PromQuery) : bool :=
  falsy_string (target_expr target) || bool_decide (target_hide target = Some true).

Fixpoint prepareTargets_loop (ds : PrometheusDatasource) (options : DataQueryRequest)
    (start end' : Q) (todo : list PromQuery) (acc : PreparedTargets) : PreparedTargets :=
  match todo with
  | [] => acc
  | target :: rest =>
      if skipped target
      then prepareTargets_loop ds options start end' rest
             {| queries := queries acc;
                activeTargets := activeTargets acc;
                targets := targets acc ++ [target] |}
      else if bool_decide (target_context target = Some Explore)
      then
        let target := rangeTarget target in
        let instantTarget := instantTarget target in
        prepareTargets_loop ds options start end' rest
          {| queries :=
               queries acc ++ [createQuery ds instantTarget options start end';
                               createQuery ds target options start end'];
             activeTargets := activeTargets acc ++ [instantTarget; target];
             targets := targets acc ++ [target] |}
      else
        prepareTargets_loop ds options start end' rest
          {| queries := queries acc ++ [createQuery ds target options start end'];
             activeTargets := activeTargets acc ++ [target];
             targets := targets acc ++ [target] |}
  end.

Definition prepareTargets (ds : PrometheusDatasource) (options : DataQueryRequest)
    (start end' : Q) : PreparedTargets :=
  prepareTargets_loop ds options start end' (options_targets options)
    {| queries := []; activeTargets := []; targets := [] |}.

Definition performQuery (ds : PrometheusDatasource) (end' : Q) (query : PromQueryRequest)
  : M (completion (promise value)) :=
  if bool_decide (query_instant query = Some true)
  then performInstantQuery ds query end'
  else performTimeSeriesQuery ds query (query_start query) (query_end query).

(** [runObserverQueries]. Each response is taken to arrive before the next
    request is made. A response that is cancelled, or that makes the
    pipeline fail, reaches the observer in no form. A query without a
    target does not occur, the two arrays being filled together. *)
Fixpoint runObserverQueries_loop (ds : PrometheusDatasource) (options : DataQueryRequest)
    (all_queries todo : list PromQueryRequest) (activeTargets : list PromQuery)
    (end' : Q) (index : nat) : M (completion unit) :=
  match todo with
  | [] => mret (Normal tt)
  | query :: rest =>
      observable ← performQuery ds end' query;
      match observable with
      | Throw e => mret (Throw e)
      | Normal settled =>
          _ ← match settled, activeTargets !! index with
              | Resolved response, Some target =>
                  if nullish response || truthy (prop response "cancelled") then mret tt
                  else
                    let series := processResult response query target (length all_queries) in
                    observer
                      {| stream_key := "prometheus-" +:+ target_refId target;
                         stream_state :=
                           if bool_decide (query_instant query = Some true)
                           then Loading else Done;
                         stream_request := options;
                         stream_delta := series |}
              | _, _ => mret tt
              end;
          runObserverQueries_loop ds options all_queries rest activeTargets end' (S index)
      end
  end.

Definition runObserverQueries (ds : PrometheusDatasource) (options : DataQueryRequest)
    (queries : list PromQueryRequest) (activeTargets : list PromQuery) (end' : Q)
  : M (completion unit) :=
  runObserverQueries_loop ds options queries queries activeTargets end' 0.

(** [_.map(queries, query => ...)]: a query that throws ends the map. *)
Fixpoint allQueryPromise (ds : PrometheusDatasource) (end' : Q)
    (queries : list PromQueryRequest) : M (completion (list (promise value))) :=
  match queries with
  | [] => mret (Normal [])
  | query :: rest =>
      first ← performQuery ds end' query;
      match first with
      | Throw e => mret (Throw e)
      | Normal settled =>
          others ← allQueryPromise ds end' rest;
          mret (match others with
                | Throw e => Throw e
                | Normal promises => Normal (settled :: promises)
                end)
      end
  end.

(** [_.each(responseList, (response, index) => ...)] with its [result].
    Reading [cancelled] off a response that is [null] or [undefined]
    throws. *)
Fixpoint eachResponse (queries : list PromQueryRequest) (activeTargets : list PromQuery)
    (responseList : list value) (index : nat) (result : list value)
  : completion (list value) :=
  match responseList with
  | [] => Normal result
  | response :: rest =>
      if nullish response then Throw TypeError
      else if truthy (prop response "cancelled")
      then eachResponse queries activeTargets rest (S index) result
      else
        match activeTargets !! index, queries !! index with
        | Some target, Some query =>
            let series := processResult response query target (length queries) in
            eachResponse queries activeTargets rest (S index) (result ++ series)
        | _, _ => eachResponse queries activeTargets rest (S index) result
        end
  end.

Record QueryResult := { data : list value }.

Definition isExplore (target : PromQuery) : bool :=
  bool_decide (target_context target = Some Explore).

Definition query (ds : PrometheusDatasource) (options : DataQueryRequest)
    (hasObserver : bool) : M (completion (promise QueryResult)) :=
  let start := getPrometheusTime (range_from (options_range options)) false in
  let end' := getPrometheusTime (range_to (options_range options)) true in
  let prepared := prepareTargets ds options start end' in
  let options :=
    {| options_targets := targets prepared;
       options_range := options_range options;
       options_interval := options_interval options;
       options_scopedVars := options_scopedVars options;
       options_panelId := options_panelId options;
       options_dashboardId := options_dashboardId options;
       options_headers := options_headers options |} in
  (* no valid targets, return the empty result to save a round trip *)
  if bool_decide (queries prepared = [])
  then mret (Normal (Resolved {| data := [] |}))
  else if hasObserver &&
          (length (List.filter isExplore (options_targets options))
           =? length (options_targets options))%nat
  then
    finished ← runObserverQueries ds options (queries prepared) (activeTargets prepared) end';
    mret (match finished with
          | Throw e => Throw e
          | Normal _ => Normal (Resolved {| data := [] |})
          end)
  else
    promises ← allQueryPromise ds end' (queries prepared);
    mret (match promises with
          | Throw e => Throw e
          | Normal promises =>
              Normal
                (then_ (all promises)
                   (fun responseList =>
                      match eachResponse (queries prepared) (activeTargets prepared)
                              responseList 0 [] with
                      | Throw e => Throw e
                      | Normal result => Normal {| data := result |}
                      end))
          end).

(** *** Metric-name suggestions *)

(** [array.indexOf(x)] for a string [x]: strict equality on the items. *)
Fixpoint array_indexOf (items : list value) (x : string) (from : Z) : Z :=
  match items with
  | [] => (-1)%Z
  | VStr s :: rest => if String.eqb s x then from else array_indexOf rest x (from + 1)%Z
  | _ :: rest => array_indexOf rest x (from + 1)%Z
  end.

(** [metricName => metricName.indexOf(query) !== 1]. Strings and arrays
    have an [indexOf]; calling it on anything else throws. *)
Definition metricNameFilter (query : string) (metricName : value) : completion bool :=
  match metricName with
  | VStr s => Normal (negb (indexOf s query =? 1)%Z)
  | VArr items => Normal (negb (array_indexOf items query 0 =? 1)%Z)
  | _ => Throw TypeError
  end.

(** [_.filter(collection, predicate)] with a predicate that may throw. *)
Fixpoint filter_items (predicate : value -> completion bool) (items : list value)
  : completion (list value) :=
  match items with
  | [] => Normal []
  | item :: rest =>
      match predicate item with
      | Throw e => Throw e
      | Normal keep =>
          match filter_items predicate rest with
          | Throw e => Throw e
          | Normal kept => Normal (if keep then item :: kept else kept)
          end
      end
  end.

Definition lodash_filter (collection : value) (predicate : value -> completion bool)
  : completion (list value) :=
  filter_items predicate (lodash_items collection).

Definition performSuggestQuery (ds : PrometheusDatasource) (query : string) (cache : bool)
  : M (completion (promise (list value))) :=
  let url := "/api/v1/label/__name__/values" in
  fun w =>
    let fetch :=
      result ← metadataRequest ds url;
      match result with
      | Rejected e => mret (Normal (Rejected e))
      | Resolved result =>
          if nullish result || nullish (prop result "data")
          then mret (Normal (Rejected TypeError))
          else
            let names := prop (prop result "data") "data" in
            time ← Date_now;
            _ ← setMetricsNameCache
                  {| cache_data := names; cache_expire := time + 60 * 1000 |};
            mret (Normal
                    (match lodash_filter names (metricNameFilter query) with
                     | Normal found => Resolved found
                     | Throw e => Rejected e
                     end))
      end in
    match cache, metricsNameCache w with
    | true, Some cached =>
        if gt (cache_expire cached) (now w)
        then
          (match lodash_filter (cache_data cached) (metricNameFilter query) with
           | Normal found => Normal (Resolved found)
           | Throw e => Throw e
           end, w)
        else fetch w
    | _, _ => fetch w
    end.

(** *** Annotations *)

Definition eventTags (tagKeys : list string) (metric : list (string * string)) : list string :=
  map snd (List.filter (fun kv => bool_decide (fst kv ∈ tagKeys)) metric).

(** The [for] loop over the values of one series: [dupCheck] is the
    object of seen timestamps, [eventList] the array being filled. *)
Fixpoint seriesEvents (annotation : Annotation) (titleFormat textFormat : string)
    (tags : list string) (metric : list (string * string))
    (values : list (Q * string)) (dupCheck : gmap integer bool)
    (eventList : list AnnotationEvent) : list AnnotationEvent :=
  match values with
  | [] => eventList
  | v :: rest =>
      let valueIsTrue := String.eqb (snd v) "1" in
      if valueIsTrue || truthy (annotation_useValueForTime annotation)
      then
        let event (time : integer) :=
          {| event_annotation := annotation;
             event_title := resultTransformer_renderTemplate titleFormat metric;
             event_tags := tags;
             event_text := resultTransformer_renderTemplate textFormat metric;
             event_time := time |} in
        if truthy (annotation_useValueForTime annotation)
        then
          let timestampValue := floor (parseFloat (snd v)) in
          if bool_decide (dupCheck !! timestampValue = Some true)
          then seriesEvents annotation titleFormat textFormat tags metric rest
                 dupCheck eventList
          else seriesEvents annotation titleFormat textFormat tags metric rest
                 (<[timestampValue := true]> dupCheck)
                 (eventList ++ [event timestampValue])
        else
          seriesEvents annotation titleFormat textFormat tags metric rest dupCheck
            (eventList ++ [event (times (floor (Finite (fst v))) 1000)])
      else seriesEvents annotation titleFormat textFormat tags metric rest
             dupCheck eventList
  end.

(** [_.each(results.data.data.result, series => ...)]: every series starts
    with an empty [dupCheck] and appends to the one [eventList]. *)
Fixpoint eachSeries (annotation : Annotation) (titleFormat textFormat : string)
    (tagKeys : list string) (result : list Series)
    (eventList : list AnnotationEvent) : list AnnotationEvent :=
  match result with
  | [] => eventList
  | series :: rest =>
      let tags := eventTags tagKeys (series_metric series) in
      eachSeries annotation titleFormat textFormat tagKeys rest
        (seriesEvents annotation titleFormat textFormat tags (series_metric series)
           (series_values series) ∅ eventList)
  end.

(** The callback of [annotationQuery] on the rows of the response. *)
Definition annotationEvents (annotation : Annotation) (result : list Series)
  : list AnnotationEvent :=
  let tagKeys := split ","%char (default "" (annotation_tagKeys annotation)) in
  let titleFormat := default "" (annotation_titleFormat annotation) in
  let textFormat := default "" (annotation_textFormat annotation) in
  eachSeries annotation titleFormat textFormat tagKeys result [].

Definition annotationQuery (ds : PrometheusDatasource) (annotation : Annotation)
    (options : DataQueryRequest) : M (completion (promise (list AnnotationEvent))) :=
  let expr := default "" (annotation_expr annotation) in
  if String.eqb expr ""
  then mret (Normal (Resolved []))
  else
    let step := or_string (default "" (annotation_step annotation)) "60s" in
    let start := getPrometheusTime (range_from (options_range options)) false in
    let end' := getPrometheusTime (range_to (options_range options)) true in
    let queryOptions :=
      {| options_targets := options_targets options;
         options_range := options_range options;
         options_interval := step;
         options_scopedVars := options_scopedVars options;
         options_panelId := options_panelId options;
         options_dashboardId := options_dashboardId options;
         options_headers := options_headers options |} in
    (* unsetting min interval for accurate event resolution *)
    let minStep := "1s" in
    let query :=
      createQuery ds
        {| target_expr := Some expr;
           target_hide := None;
           target_context := None;
           target_format := None;
           target_instant := None;
           target_interval := Some minStep;
           target_intervalFactor := None;
           target_legendFormat := None;
           target_hinting := None;
           target_refId := "X";
           target_requestId := None;
           target_valueWithRefId := None;
           target_maxDataPoints := None |}
        queryOptions start end' in
    sent ← performTimeSeriesQuery ds query (query_start query) (query_end query);
    mret (match sent with
          | Throw e => Throw e
          | Normal settled =>
              Normal
                (then_ settled
                   (fun results =>
                      if nullish results || nullish (prop results "data")
                         || nullish (prop (prop results "data") "data")
                      then Throw TypeError
                      else
                        let result := prop (prop (prop results "data") "data") "result" in
                        match rowsOf result with
                        | Some rows => Normal (annotationEvents annotation rows)
                        | None => looseAnnotationEvents annotation result
                        end))
          end).

End Datasource.

(** ** Vocabulary of the properties *)

(** [m] is the largest multiple of [step] that does not exceed [x]. *)
Definition largest_multiple_le (step x m : Q) : Prop :=
  (exists k : Z, m == inject_Z k * step) /\
  m <= x /\
  forall k : Z, inject_Z k * step <= x -> inject_Z k * step <= m.

(** The floored timestamps of the samples of a series, in order. *)
Definition seriesTimes `{host : !Services} (values : list (Q * string)) : list integer :=
  map (fun v => floor (parseFloat (snd v))) values.

(** How many events carry the time [t], and how many series have a sample
    whose floored timestamp is [t]. *)
Definition eventsAt (t : integer) (events : list AnnotationEvent) : nat :=
  length (List.filter (fun e => bool_decide (event_time e = t)) events).

Definition seriesWith `{host : !Services} (t : integer) (result : list Series) : nat :=
  length (List.filter (fun s => bool_decide (t ∈ seriesTimes (series_values s))) result).

(** The metric-name cache answers: it exists and its expire time is
    strictly after the current time. *)
Definition cacheIsFresh (w : world) : Prop :=
  exists cached, metricsNameCache w = Some cached /\ now w < cache_expire cached.

(** The timestamps of [ts] that are not marked in [seen], each once, in
    the order of their first occurrence. *)
Fixpoint freshTimes (seen : gmap integer bool) (ts : list integer) : list integer :=
  match ts with
  | [] => []
  | t :: rest =>
      if bool_decide (seen !! t = Some true)
      then freshTimes seen rest
      else t :: freshTimes (<[t := true]> seen) rest
  end.

(** The event built for a series at a given time. *)
Definition eventAt `{host : !Services} (annotation : Annotation)
    (titleFormat textFormat : string) (tags : list string)
    (metric : list (string * string)) (time : integer) : AnnotationEvent :=
  {| event_annotation := annotation;
     event_title := resultTransformer_renderTemplate titleFormat metric;
     event_tags := tags;
     event_text := resultTransformer_renderTemplate textFormat metric;
     event_time := time |}.

(** A promise resolved with a cancelled response. *)
Definition cancelledResponse (settled : promise value) : Prop :=
  exists err : value, settled = Resolved err /\ truthy (prop err "cancelled") = true.

(** ** A small host, for the examples *)

Fixpoint parseDigits (s : string) (acc : Z) : option Z :=
  match s with
  | EmptyString => Some acc
  | String c rest =>
      let n := nat_of_ascii c in
      if (48 <=? n)%nat && (n <=? 57)%nat
      then parseDigits rest (10 * acc + Z.of_nat (n - 48))%Z
      else None
  end.

Definition exampleServices (backend : world -> httpOptions -> promise value * Q) : Services :=
  {| interval_to_seconds :=
       fun s => if String.eqb s "1s" then 1
                else if String.eqb s "15s" then 15
                else if String.eqb s "60s" then 60 else 0;
     secondsToHms := fun _ => "";
     dateMath_parse := fun _ _ => 0;
     moment_diff :=
       fun a b => match a, b with
                  | Moment x, Moment y => x - y
                  | _, _ => 0
                  end;
     templateSrv_replace := fun s _ _ => default "" s;
     templateSrv_getAdhocFilters := fun _ => [];
     addLabelToQuery := fun acc _ _ _ => default "" acc;
     resultTransformer_transform := fun response _ => [response];
     resultTransformer_renderTemplate := fun format _ => format;
     safeStringifyValue := fun _ => "";
     ToString := fun v => match v with
                          | VStr s => s
                          | VNum n => pretty (Qfloor n)
                          | VBool b => if b then "true" else "false"
                          | VNull => "null"
                          | VUndefined => "undefined"
                          | VArr _ => ""
                          | VObj _ => "[object Object]"
                          end;
     encodeURIComponent := fun s => s;
     parseFloat :=
       fun s => match s with
                | EmptyString => NaN
                | _ => match parseDigits s 0 with
                       | Some z => Finite (inject_Z z)
                       | None => NaN
                       end
                end;
     backendSrv_datasourceRequest := backend;
     looseAnnotationEvents := fun _ _ => Throw TypeError |}.

(** A backend that answers every request after 250 ms with the names
    [up] and [node_load1], and one that cancels every request. *)
Definition namesBackend (w : world) (o : httpOptions) : promise value * Q :=
  (Resolved
     (VObj [("data",
             VObj [("status", VStr "success");
                   ("data", VArr [VStr "up"; VStr "node_load1"])])]),
   250).

Definition cancellingBackend (w : world) (o : httpOptions) : promise value * Q :=
  (Rejected (VObj [("cancelled", VBool true)]), 0).

Definition exampleHost : Services := exampleServices namesBackend.

Definition cancellingHost : Services := exampleServices cancellingBackend.

(** A backend that answers every request with one row of the alert
    [Down], which fired at 60 s and at 180 s. *)
Definition alertsBackend (w : world) (o : httpOptions) : promise value * Q :=
  (Resolved
     (VObj [("data",
             VObj [("status", VStr "success");
                   ("data",
                    VObj [("resultType", VStr "matrix");
                          ("result",
                           VArr [VObj [("metric",
                                        VObj [("alertname", VStr "Down");
                                              ("job", VStr "node")]);
                                       ("values",
                                        VArr [VArr [VNum 60; VStr "1"];
                                              VArr [VNum 120; VStr "0"];
                                              VArr [VNum 180; VStr "1"]])]])])])]),
   250).

Definition alertsHost : Services := exampleServices alertsBackend.

Definition exampleDatasource : PrometheusDatasource :=
  {| ds_name := "Prometheus";
     ds_url := "/api/datasources/proxy/1";
     ds_basicAuth := VUndefined;
     ds_withCredentials := VUndefined;
     ds_interval := "15s";
     ds_queryTimeout := VStr "30s";
     ds_httpMethod := "GET" |}.

Definition exampleWorld : world :=
  {| requests := []; now := 1000000; metricsNameCache := None; observed := [] |}.

Definition exampleTarget (expr : string) (hide : bool) : PromQuery :=
  {| target_expr := Some expr;
     target_hide := Some hide;
     target_context := None;
     target_format := None;
     target_instant := None;
     target_interval := None;
     target_intervalFactor := None;
     target_legendFormat := None;
     target_hinting := None;
     target_refId := "A";
     target_requestId := None;
     target_valueWithRefId := None;
     target_maxDataPoints := None |}.

Definition exampleOptions (targets : list PromQuery) : DataQueryRequest :=
  {| options_targets := targets;
     options_range := {| range_from := Moment 0; range_to := Moment 3600000 |};
     options_interval := "15s";
     options_scopedVars := ∅;
     options_panelId := VNum 1;
     options_dashboardId := VNum 7;
     options_headers := None |}.

Definition exampleQuery : PromQueryRequest :=
  {| query_hinting := None;
     query_instant := None;
     query_step := 15;
     query_expr := "up";
     query_requestId := "1A";
     query_refId := "A";
     query_start := 0;
     query_end := 3600;
     query_headers := None |}.

Definition exampleAnnotation : Annotation :=
  {| annotation_expr := Some "ALERTS";
     annotation_tagKeys := Some "alertname,severity";
     annotation_titleFormat := Some "{{alertname}}";
     annotation_textFormat := None;
     annotation_step := None;
     annotation_useValueForTime := VBool true |}.

(** ** Recording rules *)

Record Rule := { rule_type : string; rule_name : string; rule_query : string }.

Record RuleGroup := { group_rules : list Rule }.

Definition isRecording (rule : Rule) : bool := String.eqb (rule_type rule) "recording".

(** [extractRuleMappingFromGroups]: the object that maps the name of every
    recording rule to its query. *)
Definition extractRuleMappingFromGroups (groups : list RuleGroup) : gmap string string :=
  fold_left
    (fun mapping group =>
       fold_left
         (fun acc rule => <[rule_name rule := rule_query rule]> acc)
         (List.filter isRecording (group_rules group))
         mapping)
    groups ∅.

(** The recording rules of all groups, in order. *)
Definition recordingRules (groups : list RuleGroup) : list Rule :=
  flat_map (fun group => List.filter isRecording (group_rules group)) groups.

(** ** Label names and values *)

Section Labels.

Context `{host : !Services}.

(** [result => _.map(result.data.data, value => ({ text: value }))]. *)
Definition labelTexts (result : value) : completion (list value) :=
  if nullish result || nullish (prop result "data") then Throw TypeError
  else Normal (map (fun v => VObj [("text", v)])
                 (lodash_items (prop (prop result "data") "data"))).

Definition getTagKeys (ds : PrometheusDatasource) : M (promise (list value)) :=
  let url := "/api/v1/labels" in
  result ← metadataRequest ds url;
  mret (then_ result labelTexts).

Definition getTagValues (ds : PrometheusDatasource) (key : string)
  : M (promise (list value)) :=
  let url := "/api/v1/label/" +:+ key +:+ "/values" in
  result ← metadataRequest ds url;
  mret (then_ result labelTexts).

End Labels.

(** ** The app plugin (packages/grafana-ui/src/types/app.ts) *)

(** Only [PluginIncludeType.page] is named by the class; [otherInclude]
    stands for every other type. *)
Inductive PluginIncludeType := page | otherInclude.

Record PluginInclude := {
  include_type : PluginIncludeType;
  include_component : option string
}.

Record AppPluginMeta := { meta_includes : option (list PluginInclude) }.

Record AppPlugin := {
  plugin_meta : option AppPluginMeta;
  plugin_root : value;
  plugin_rootNav : value;
  plugin_angularConfigCtrl : value;
  plugin_angularPages : option (gmap string value)
}.

(** [setRootPage]: a missing [rootNav] is [undefined]. *)
Definition setRootPage (plugin : AppPlugin) (root rootNav : value) : AppPlugin :=
  {| plugin_meta := plugin_meta plugin;
     plugin_root := root;
     plugin_rootNav := rootNav;
     plugin_angularConfigCtrl := plugin_angularConfigCtrl plugin;
     plugin_angularPages := plugin_angularPages plugin |}.

(** [pluginExports[name]]: the exports of the plugin module are given by
    what reading a property of them answers, own or inherited (an
    ordinary object answers to [constructor] and [toString] without
    exporting them), [undefined] for no property. *)
Definition exported (pluginExports : string -> value) (name : string) : value :=
  pluginExports name.

(** [include.type === PluginIncludeType.page && include.component]: the
    component of a page that has one. *)
Definition pageComponent (include : PluginInclude) : option string :=
  match include_type include, include_component include with
  | page, Some component => if String.eqb component "" then None else Some component
  | _, _ => None
  end.

(** [angularPages[component] = exp] on the own properties of
    [angularPages], an ordinary object: an assignment to [__proto__]
    reaches the setter of [Object.prototype] and adds no property. *)
Definition assignPage (pages : gmap string value) (component : string) (exp : value)
  : gmap string value :=
  if String.eqb component "__proto__" then pages else <[component := exp]> pages.

(** The loop over the includes: the pages registered so far and the
    components [console.warn] was called for. *)
Fixpoint registerPages (pluginExports : string -> value)
    (includes : list PluginInclude) (angularPages : option (gmap string value))
    (warned : list string) : option (gmap string value) * list string :=
  match includes with
  | [] => (angularPages, warned)
  | include :: rest =>
      match pageComponent include with
      | Some component =>
          let exp := exported pluginExports component in
          if negb (truthy exp)
          then registerPages pluginExports rest angularPages (warned ++ [component])
          else
            let pages := default ∅ angularPages in
            registerPages pluginExports rest (Some (assignPage pages component exp)) warned
      | None => registerPages pluginExports rest angularPages warned
      end
  end.

(** [setComponentsFromLegacyExports]: the plugin afterwards, and the
    components warned about. *)
Definition setComponentsFromLegacyExports (plugin : AppPlugin)
    (pluginExports : string -> value) : AppPlugin * list string :=
  let angularConfigCtrl :=
    if truthy (exported pluginExports "ConfigCtrl")
    then exported pluginExports "ConfigCtrl"
    else plugin_angularConfigCtrl plugin in
  let '(angularPages, warned) :=
    match plugin_meta plugin ≫= meta_includes with
    | Some includes =>
        registerPages pluginExports includes (plugin_angularPages plugin) []
    | None => (plugin_angularPages plugin, [])
    end in
  ({| plugin_meta := plugin_meta plugin;
      plugin_root := plugin_root plugin;
      plugin_rootNav := plugin_rootNav plugin;
      plugin_angularConfigCtrl := angularConfigCtrl;
      plugin_angularPages := angularPages |},
   warned).

(** The page registered under a name, if any; and whether some include is
    a page with that component. *)
Definition angularPage (plugin : AppPlugin) (name : string) : option value :=
  plugin_angularPages plugin ≫= (fun pages => pages !! name).

Definition hasPage (includes : list PluginInclude) (name : string) : bool :=
  existsb (fun include => bool_decide (pageComponent include = Some name)) includes.

(** The exports [{}] of a module that exports nothing, read as the
    ordinary object they are: [constructor] answers with [Object]. *)
Definition ObjectConstructor : value := VObj [("name", VStr "Object")].

Definition emptyExports (name : string) : value :=
  if String.eqb name "constructor" then ObjectConstructor else VUndefined.

Definition constructorPlugin : AppPlugin :=
  {| plugin_meta :=
       Some {| meta_includes :=
                 Some [{| include_type := page; include_component := Some "constructor" |};
                       {| include_type := page; include_component := Some "Missing" |}] |};
     plugin_root := VUndefined;
     plugin_rootNav := VUndefined;
     plugin_angularConfigCtrl := VUndefined;
     plugin_angularPages := None |}.

(** ** More example data *)

Definition exploreTarget : PromQuery :=
  {| target_expr := Some "up";
     target_hide := None;
     target_context := Some Explore;
     target_format := None;
     target_instant := None;
     target_interval := None;
     target_intervalFactor := None;
     target_legendFormat := None;
     target_hinting := None;
     target_refId := "A";
     target_requestId := Some "explore_A";
     target_valueWithRefId := None;
     target_maxDataPoints := Some 1000 |}.

Definition alertAnnotation : Annotation :=
  {| annotation_expr := Some "ALERTS";
     annotation_tagKeys := Some "alertname";
     annotation_titleFormat := None;
     annotation_textFormat := None;
     annotation_step := None;
     annotation_useValueForTime := VUndefined |}.

Definition emptyAnnotation : Annotation :=
  {| annotation_expr := Some "";
     annotation_tagKeys := None;
     annotation_titleFormat := None;
     annotation_textFormat := None;
     annotation_step := None;
     annotation_useValueForTime := VUndefined |}.

(** A target that [prepareTargets] turns into queries, and the query and
    target that belong together. *)
Definition matches (query : PromQueryRequest) (target : PromQuery) : Prop :=
  query_refId query = target_refId target /\
  query_instant query = target_instant target /\
  query_hinting query = target_hinting target.

(** A query that [performQuery] sends: an instant query, or a range query
    whose start does not exceed its end. *)
Definition sendable (query : PromQueryRequest) : Prop :=
  query_instant query = Some true \/ query_start query <= query_end query.

(** From [w] to [w'] requests were only added, and the metric-name cache
    was left alone. *)
Definition onlyRequests (w w' : world) : Prop :=
  (exists sent : list httpOptions, requests w' = requests w ++ sent) /\
  metricsNameCache w' = metricsNameCache w.

(** How often the character [c] occurs in [s], and whether every
    character of [s] passes a test. *)
Fixpoint occurrences (c : Ascii.ascii) (s : string) : nat :=
  match s with
  | EmptyString => 0
  | String c' rest => ((if Ascii.eqb c' c then 1 else 0) + occurrences c rest)%nat
  end.

Fixpoint every_char (test : Ascii.ascii -> bool) (s : string) : bool :=
  match s with
  | EmptyString => true
  | String c rest => test c && every_char test rest
  end.

(** A character that is no backslash and none of the characters that are
    special in a regular expression. *)
Definition plain_char (c : Ascii.ascii) : bool :=
  negb (Ascii.eqb c (Ascii.ascii_of_nat 92)) && negb (mem_char c "$^*{}[]+?.()|").

(** The series of one response of [query]: none when it is cancelled. *)
Definition responseSeries `{host : !Services} (responseListLength : nat)
    (entry : value * (PromQueryRequest * PromQuery)) : list value :=
  if truthy (prop (fst entry) "cancelled") then []
  else processResult (fst entry) (fst (snd entry)) (snd (snd entry)) responseListLength.




(** * Properties *)

(** ** Arithmetic of the step *)

Lemma gt_true (x y : Q) : gt x y = true <-> y < x.
Proof.
  unfold gt. rewrite negb_true_iff. split.
  - intros Hb. apply Qnot_le_lt. intros Hle.
    apply Qle_bool_iff in Hle. congruence.
  - intros Hlt. destruct (Qle_bool x y) eqn:Hb; [|reflexivity].
    apply Qle_bool_iff in Hb. lra.
Qed.

Lemma gt_false (x y : Q) : gt x y = false <-> x <= y.
Proof.
  unfold gt. rewrite negb_false_iff. apply Qle_bool_iff.
Qed.

Lemma strict_ne_false (x y : Q) : strict_ne x y = false <-> x == y.
Proof.
  unfold strict_ne. rewrite negb_false_iff. apply Qeq_bool_iff.
Qed.

Lemma floor_largest_multiple (x step : Q) :
  0 < step -> largest_multiple_le step x (Math_floor (x / step) * step).
Proof.
  intros Hstep. unfold largest_multiple_le, Math_floor. repeat split.
  - eexists. reflexivity.
  - apply Qle_trans with (x / step * step).
    + apply Qmult_le_compat_r; [apply Qfloor_le | lra].
    + rewrite Qmult_comm, Qmult_div_r; [apply Qle_refl | lra].
  - intros k Hk. apply Qmult_le_compat_r; [| lra].
    rewrite <- Zle_Qle, <- (Qfloor_Z k). apply Qfloor_resp_le.
    apply Qle_shift_div_l; assumption.
Qed.

Lemma adjustInterval_lower_bounds (interval minInterval range intervalFactor : Q) :
  1 <= adjustInterval interval minInterval range intervalFactor /\
  minInterval <= adjustInterval interval minInterval range intervalFactor.
Proof.
  unfold adjustInterval, Math_max. split.
  - apply Q.le_max_r.
  - eapply Qle_trans; [apply Q.le_max_r | apply Q.le_max_l].
Qed.

(** The calibrated interval, times the factor, is a lower bound of the
    result. *)
Lemma adjustInterval_ge_scaled (interval minInterval range intervalFactor : Q) :
  (if strict_ne interval 0 && gt (range / intervalFactor / interval) 11000
   then Math_ceil (range / intervalFactor / 11000)
   else interval) * intervalFactor
  <= adjustInterval interval minInterval range intervalFactor.
Proof.
  unfold adjustInterval, Math_max.
  eapply Qle_trans; [apply Q.le_max_l | apply Q.le_max_l].
Qed.


(** In exact arithmetic the calibrated interval covers the range with at
    most 11000 points. *)
Lemma adjustInterval_range_bound (interval minInterval range intervalFactor : Q) :
  0 < interval -> 0 < intervalFactor ->
  range <= 11000 * adjustInterval interval minInterval range intervalFactor.
Proof.
  intros Hinterval Hfactor.
  pose proof (adjustInterval_ge_scaled interval minInterval range intervalFactor)
    as Hscaled.
  eapply Qle_trans; [| apply Qmult_le_l; [lra | exact Hscaled]].
  destruct (strict_ne interval 0 && gt (range / intervalFactor / interval) 11000)
    eqn:Hcalibrate.
  - unfold Math_ceil.
    pose proof (Qle_ceiling (range / intervalFactor / 11000)) as Hceil.
    assert (range == range / intervalFactor / 11000 * (11000 * intervalFactor)) as Hrange
      by (field; lra).
    assert (range / intervalFactor / 11000 * (11000 * intervalFactor)
            <= inject_Z (Qceiling (range / intervalFactor / 11000))
               * (11000 * intervalFactor)) as Hle
      by (apply Qmult_le_compat_r; [exact Hceil | lra]).
    lra.
  - apply andb_false_iff in Hcalibrate. destruct Hcalibrate as [Hzero | Hfew].
    + apply strict_ne_false in Hzero. lra.
    + apply gt_false in Hfew.
      assert (range == range / intervalFactor / interval * (interval * intervalFactor))
        as Hrange by (field; lra).
      assert (range / intervalFactor / interval * (interval * intervalFactor)
              <= 11000 * (interval * intervalFactor)) as Hle.
      { apply Qmult_le_compat_r; [exact Hfew |]. apply Qmult_le_0_compat; lra. }
      lra.
Qed.

(** On integers the quotient is floored as [Z] floors it, and the aligned
    values are integers again. *)
Lemma floor_of_integers (x step : Z) :
  (0 < step)%Z -> Math_floor (inject_Z x / inject_Z step) == inject_Z (x / step).
Proof.
  intros Hstep. unfold Math_floor.
  destruct step as [| p | p]; try lia.
  unfold Qfloor, Qdiv, Qmult, Qinv, inject_Z. cbn.
  rewrite Z.mul_1_r. reflexivity.
Qed.

Lemma alignRange_of_integers (start end' step : Z) :
  (0 < step)%Z ->
  aligned_start (alignRange (inject_Z start) (inject_Z end') (inject_Z step))
  == inject_Z (start / step * step) /\
  aligned_end (alignRange (inject_Z start) (inject_Z end') (inject_Z step))
  == inject_Z (end' / step * step).
Proof.
  intros Hstep. unfold alignRange. cbn [aligned_start aligned_end].
  rewrite !floor_of_integers by exact Hstep.
  rewrite !inject_Z_mult. split; reflexivity.
Qed.

Lemma inject_Z_positive (z : Z) : (0 < z)%Z -> 0 < inject_Z z.
Proof.
  intros Hz. rewrite (Zlt_Qlt 0 z) in Hz. exact Hz.
Qed.

Lemma largest_multiple_le_compat (step x m m' : Q) :
  m == m' -> largest_multiple_le step x m -> largest_multiple_le step x m'.
Proof.
  intros Heq ((k & Hk) & Hle & Hlargest). repeat split.
  - exists k. rewrite <- Heq. exact Hk.
  - rewrite <- Heq. exact Hle.
  - intros k' Hk'. rewrite <- Heq. apply Hlargest. exact Hk'.
Qed.

(** *** What the rounding leaves alone *)

Lemma Qfloor_between (x : Q) (k : Z) :
  inject_Z k <= x -> x < inject_Z (k + 1) -> Qfloor x = k.
Proof.
  intros Hlow Hhigh.
  pose proof (Qfloor_le x) as Hfloor. pose proof (Qlt_floor x) as Hnext.
  assert (inject_Z (Qfloor x) < inject_Z (k + 1)) as H1 by lra.
  assert (inject_Z k < inject_Z (Qfloor x + 1)) as H2 by lra.
  rewrite <- Zlt_Qlt in H1, H2. lia.
Qed.

Lemma Qceiling_between (x : Q) (k : Z) :
  inject_Z k < x -> x <= inject_Z (k + 1) -> Qceiling x = (k + 1)%Z.
Proof.
  intros Hlow Hhigh. unfold Qceiling.
  rewrite (Qfloor_between (- x) (- (k + 1))).
  - lia.
  - rewrite inject_Z_opp. lra.
  - replace (- (k + 1) + 1)%Z with (- k)%Z by lia. rewrite inject_Z_opp. lra.
Qed.

Lemma quotient_of_integers (a c : Z) :
  (0 < c)%Z ->
  inject_Z a / inject_Z c == inject_Z (a / c) + inject_Z (a mod c) / inject_Z c.
Proof.
  intros Hc. pose proof (inject_Z_positive c Hc) as Hpos.
  rewrite (Z.div_mod a c) at 1 by lia.
  rewrite inject_Z_plus, inject_Z_mult. field. lra.
Qed.

(** [adjustInterval] on equal rationals, and on integers. *)
Lemma adjustInterval_compatible (i i' m m' r r' f f' : Q) :
  i == i' -> m == m' -> r == r' -> f == f' ->
  adjustInterval i m r f == adjustInterval i' m' r' f'.
Proof.
  intros Hi Hm Hr Hf. unfold adjustInterval.
  assert (strict_ne i 0 && gt (r / f / i) 11000
          = strict_ne i' 0 && gt (r' / f' / i') 11000) as ->.
  { unfold strict_ne, gt. rewrite Hi, Hr, Hf. reflexivity. }
  destruct (strict_ne i' 0 && gt (r' / f' / i') 11000); unfold Math_max, Math_ceil.
  - assert (r / f / 11000 == r' / f' / 11000) as Hq by (rewrite Hr, Hf; reflexivity).
    rewrite (Qceiling_comp _ _ Hq), Hf, Hm. reflexivity.
  - rewrite Hi, Hf, Hm. reflexivity.
Qed.

Lemma Qmax_of_integers (a b : Z) : Qmax (inject_Z a) (inject_Z b) == inject_Z (Z.max a b).
Proof.
  destruct (Z.le_ge_cases a b) as [Hle | Hge].
  - rewrite Z.max_r by exact Hle. apply Q.max_r. rewrite <- Zle_Qle. exact Hle.
  - rewrite Z.max_l by lia. apply Q.max_l. rewrite <- Zle_Qle. lia.
Qed.

Lemma adjustInterval_of_integers (interval minInterval range intervalFactor : Z) :
  (0 < interval)%Z -> (1 <= intervalFactor)%Z -> (interval * intervalFactor <= 2 ^ 36)%Z ->
  (minInterval <= 2 ^ 49)%Z -> (0 <= range <= 2 ^ 50)%Z ->
  exists step : Z,
    adjustInterval (inject_Z interval) (inject_Z minInterval) (inject_Z range)
      (inject_Z intervalFactor) == inject_Z step /\
    (1 <= step <= 2 ^ 51)%Z.
Proof.
  intros Hinterval Hfactor Hscaled Hmin [Hrange0 Hrange].
  pose proof (inject_Z_positive intervalFactor ltac:(lia)) as Hf.
  assert (forall x : Z, (x * intervalFactor <= 2 ^ 50 + 2 ^ 36)%Z ->
            exists step : Z,
              Math_max (inject_Z x * inject_Z intervalFactor) (inject_Z minInterval) 1
              == inject_Z step /\ (1 <= step <= 2 ^ 51)%Z) as Hmax.
  { intros x Hx. exists (Z.max (Z.max (x * intervalFactor) minInterval) 1). split.
    - unfold Math_max. rewrite <- inject_Z_mult.
      change 1 with (inject_Z 1).
      rewrite <- Qmax_of_integers. apply Q.max_compat; [| reflexivity].
      apply Qmax_of_integers.
    - lia. }
  unfold adjustInterval.
  destruct (strict_ne (inject_Z interval) 0 &&
            gt (inject_Z range / inject_Z intervalFactor / inject_Z interval) 11000).
  - unfold Math_ceil.
    set (x := inject_Z range / inject_Z intervalFactor / 11000).
    apply Hmax.
    pose proof (Qceiling_lt x) as Hceil.
    assert (inject_Z range == x * inject_Z intervalFactor * 11000) as Hx
      by (subst x; field; lra).
    assert (inject_Z ((Qceiling x - 1) * intervalFactor * 11000) < inject_Z range) as Hlt.
    { rewrite !inject_Z_mult, Hx. change (inject_Z 11000) with 11000.
      apply Qmult_lt_compat_r; [reflexivity |].
      apply Qmult_lt_compat_r; [exact Hf | exact Hceil]. }
    rewrite <- Zlt_Qlt in Hlt. nia.
  - apply Hmax. lia.
Qed.

(** No rounding at all is a correct rounding. *)
Lemma exact_is_correctly_rounded : correctly_rounded (fun x : Q => x).
Proof.
  repeat split; try (intros; assumption); try (intros; reflexivity).
  intros x _ _.
  assert (x - x == 0) as -> by ring.
  apply Qmult_le_0_compat; [apply Qabs_nonneg | vm_compute; discriminate].
Qed.

(** The powers of two of the bounds, written out for [lra]. *)
Ltac numerals :=
  let p36 := eval vm_compute in (2 ^ 36)%positive in
  let p53 := eval vm_compute in (2 ^ 53)%positive in
  let p60 := eval vm_compute in (2 ^ 60)%positive in
  let q36 := eval vm_compute in (2 ^ 36)%Q in
  let q50 := eval vm_compute in (2 ^ 50)%Q in
  let q60 := eval vm_compute in (2 ^ 60)%Q in
  change (2 ^ 36)%positive with p36 in *;
  change (2 ^ 53)%positive with p53 in *;
  change (2 ^ 60)%positive with p60 in *;
  change (2 ^ 36)%Q with q36 in *;
  change (2 ^ 50)%Q with q50 in *;
  change (2 ^ 60)%Q with q60 in *.

Ltac exact_lra := numerals; lra.

(** *** Rounding to the nearest double

    Powers of two first. *)

Lemma pow2_positive (z : Z) : 0 < 2 ^ z.
Proof. apply Qpower_0_lt. reflexivity. Qed.

Lemma pow2_succ (z : Z) : 2 ^ (z + 1) == 2 * 2 ^ z.
Proof.
  rewrite Qpower_plus by discriminate. rewrite Qpower_1_r. ring.
Qed.

Lemma pow2_le (n m : Z) : (n <= m)%Z -> 2 ^ n <= 2 ^ m.
Proof. intros H. apply Qpower_le_compat_l; [exact H | discriminate]. Qed.

Lemma pow2_lt_inv (n m : Z) : 2 ^ n < 2 ^ m -> (n < m)%Z.
Proof. intros H. apply (Qpower_lt_compat_l_inv 2); [exact H | reflexivity]. Qed.

Lemma pow2_of_Z (n : Z) : (0 <= n)%Z -> inject_Z (2 ^ n) == 2 ^ n.
Proof. intros H. rewrite Zpower_Qpower by exact H. reflexivity. Qed.

(** The binade of a number. *)

Lemma binade_spec (x : Q) :
  ~ x == 0 -> 2 ^ binade x <= Qabs x /\ Qabs x < 2 ^ (binade x + 1).
Proof.
  intros Hx. unfold binade.
  destruct x as [n d]. cbn [Qnum Qden Qabs].
  assert (n <> 0%Z) as Hn.
  { intros ->. apply Hx. reflexivity. }
  set (N := Z.abs n). assert (0 < N)%Z as HN by (subst N; lia).
  set (a := Z.log2 N). set (b := Z.log2 (Z.pos d)).
  destruct (Z.log2_spec N HN) as [Ha1 Ha2]. fold a in Ha1, Ha2.
  destruct (Z.log2_spec (Z.pos d) ltac:(lia)) as [Hb1 Hb2]. fold b in Hb1, Hb2.
  pose proof (Z.log2_nonneg N) as Ha0. fold a in Ha0.
  pose proof (Z.log2_nonneg (Z.pos d)) as Hb0. fold b in Hb0.
  assert (N # d == inject_Z N / inject_Z (Z.pos d)) as Hvalue by apply Qmake_Qdiv.
  assert (0 < inject_Z (Z.pos d)) as Hd by reflexivity.
  assert (2 ^ a <= inject_Z N) as HaQ1.
  { rewrite <- pow2_of_Z by exact Ha0. rewrite <- Zle_Qle. exact Ha1. }
  assert (inject_Z N < 2 ^ (a + 1)) as HaQ2.
  { rewrite <- pow2_of_Z by lia. rewrite <- Zlt_Qlt. replace (a + 1)%Z with (Z.succ a) by lia.
    exact Ha2. }
  assert (2 ^ b <= inject_Z (Z.pos d)) as HbQ1.
  { rewrite <- pow2_of_Z by exact Hb0. rewrite <- Zle_Qle. exact Hb1. }
  assert (inject_Z (Z.pos d) < 2 ^ (b + 1)) as HbQ2.
  { rewrite <- pow2_of_Z by lia. rewrite <- Zlt_Qlt. replace (b + 1)%Z with (Z.succ b) by lia.
    exact Hb2. }
  pose proof (pow2_positive a) as Hpa. pose proof (pow2_positive b) as Hpb.
  pose proof (pow2_succ a) as Hsa. pose proof (pow2_succ b) as Hsb.
  assert (N # d < 2 ^ (a - b + 1)) as Hupper.
  { rewrite Hvalue. apply Qlt_shift_div_r; [exact Hd |].
    replace (a - b + 1)%Z with ((a + 1) - b)%Z by lia.
    rewrite Qpower_minus by discriminate.
    assert (2 ^ (a + 1) / 2 ^ b * inject_Z (Z.pos d)
            == 2 ^ (a + 1) * (inject_Z (Z.pos d) / 2 ^ b)) as -> by (field; lra).
    assert (1 <= inject_Z (Z.pos d) / 2 ^ b) by (apply Qle_shift_div_l; lra).
    assert (2 ^ (a + 1) * 1 <= 2 ^ (a + 1) * (inject_Z (Z.pos d) / 2 ^ b))
      by (apply Qmult_le_l; lra).
    lra. }
  assert (2 ^ (a - b - 1) < N # d) as Hlower.
  { rewrite Hvalue. apply Qlt_shift_div_l; [exact Hd |].
    replace (a - b - 1)%Z with (a - (b + 1))%Z by lia.
    rewrite Qpower_minus by discriminate.
    assert (2 ^ a / 2 ^ (b + 1) * inject_Z (Z.pos d)
            == 2 ^ a * (inject_Z (Z.pos d) / 2 ^ (b + 1))) as -> by (field; lra).
    assert (inject_Z (Z.pos d) / 2 ^ (b + 1) < 1) by (apply Qlt_shift_div_r; lra).
    assert (2 ^ a * (inject_Z (Z.pos d) / 2 ^ (b + 1)) < 2 ^ a * 1)
      by (apply Qmult_lt_l; lra).
    lra. }
  destruct (Qle_bool (2 ^ (a - b)) (N # d)) eqn:Hguess.
  - apply Qle_bool_iff in Hguess. split; assumption.
  - assert (N # d < 2 ^ (a - b)) as Hless.
    { apply Qnot_le_lt. intros Hle. apply Qle_bool_iff in Hle. congruence. }
    replace (a - b - 1 + 1)%Z with (a - b)%Z by lia.
    split; [apply Qlt_le_weak; exact Hlower | exact Hless].
Qed.

Lemma binade_unique (x : Q) (L : Z) :
  2 ^ L <= Qabs x -> Qabs x < 2 ^ (L + 1) -> binade x = L.
Proof.
  intros Hlow Hhigh.
  assert (~ x == 0) as Hx.
  { intros Hzero. rewrite Hzero in Hlow. pose proof (pow2_positive L).
    change (Qabs 0) with 0 in Hlow. lra. }
  destruct (binade_spec x Hx) as [Hlow' Hhigh'].
  assert (2 ^ L < 2 ^ (binade x + 1)) as H1 by lra.
  assert (2 ^ binade x < 2 ^ (L + 1)) as H2 by lra.
  apply pow2_lt_inv in H1, H2. lia.
Qed.

Lemma binade_compatible (x y : Q) : ~ y == 0 -> x == y -> binade x = binade y.
Proof.
  intros Hnonzero Hxy.
  destruct (binade_spec y Hnonzero) as [Hlow Hhigh].
  apply binade_unique; rewrite Hxy; assumption.
Qed.

(** *** The nearest integer *)

Lemma nearest_even_cases (m : Q) :
  (nearest_even m = Qfloor m /\ m - inject_Z (Qfloor m) <= 1 # 2) \/
  (nearest_even m = (Qfloor m + 1)%Z /\ 1 # 2 <= m - inject_Z (Qfloor m)).
Proof.
  unfold nearest_even.
  destruct (Qcompare (m - inject_Z (Qfloor m)) (1 # 2)) eqn:Hcmp.
  - apply Qeq_alt in Hcmp. destruct (Z.even (Qfloor m)); [left | right]; split;
      try reflexivity; lra.
  - apply Qlt_alt in Hcmp. left. split; [reflexivity | lra].
  - apply Qgt_alt in Hcmp. right. split; [reflexivity | lra].
Qed.

Lemma nearest_even_near (m : Q) :
  m - (1 # 2) <= inject_Z (nearest_even m) /\ inject_Z (nearest_even m) <= m + (1 # 2).
Proof.
  pose proof (Qfloor_le m) as Hfloor. pose proof (Qlt_floor m) as Hnext.
  rewrite inject_Z_plus in Hnext. change (inject_Z 1) with 1 in Hnext.
  destruct (nearest_even_cases m) as [[-> Hfrac] | [-> Hfrac]].
  - lra.
  - rewrite inject_Z_plus. change (inject_Z 1) with 1. lra.
Qed.

Lemma nearest_even_integer (k : Z) : nearest_even (inject_Z k) = k.
Proof.
  unfold nearest_even. rewrite Qfloor_Z.
  assert (Qcompare (inject_Z k - inject_Z k) (1 # 2) = Lt) as ->; [| reflexivity].
  apply (proj1 (Qlt_alt _ _)). lra.
Qed.

Lemma nearest_even_compatible (m m' : Q) : m == m' -> nearest_even m = nearest_even m'.
Proof.
  intros Heq. unfold nearest_even. rewrite (Qfloor_comp _ _ Heq).
  assert (Qcompare (m - inject_Z (Qfloor m')) (1 # 2)
          = Qcompare (m' - inject_Z (Qfloor m')) (1 # 2)) as ->; [| reflexivity].
  apply Qcompare_comp; [rewrite Heq |]; reflexivity.
Qed.

Lemma nearest_even_monotone (m m' : Q) : m <= m' -> (nearest_even m <= nearest_even m')%Z.
Proof.
  intros Hle.
  pose proof (Qfloor_resp_le _ _ Hle) as Hfloors.
  destruct (Z.eq_dec (Qfloor m) (Qfloor m')) as [Hsame | Hdiff].
  - unfold nearest_even. rewrite Hsame.
    destruct (Qcompare (m - inject_Z (Qfloor m')) (1 # 2)) eqn:Hc;
      [apply Qeq_alt in Hc | apply Qlt_alt in Hc | apply Qgt_alt in Hc];
      (destruct (Qcompare (m' - inject_Z (Qfloor m')) (1 # 2)) eqn:Hc';
       [apply Qeq_alt in Hc' | apply Qlt_alt in Hc' | apply Qgt_alt in Hc']);
      first [exfalso; lra | destruct (Z.even (Qfloor m')); lia].
  - destruct (nearest_even_cases m) as [[-> _] | [-> _]];
      destruct (nearest_even_cases m') as [[-> _] | [-> _]]; lia.
Qed.

(** Rounding to 53 significant bits. *)

Lemma binary64_zero (x : Q) : x == 0 -> binary64 x = 0.
Proof.
  intros Hx. unfold binary64. apply Qeq_bool_iff in Hx. rewrite Hx. reflexivity.
Qed.

Lemma binary64_nonzero (x : Q) :
  ~ x == 0 ->
  binary64 x = inject_Z (nearest_even (x / 2 ^ (binade x - 52))) * 2 ^ (binade x - 52).
Proof.
  intros Hx. unfold binary64.
  destruct (Qeq_bool x 0) eqn:Hzero; [| reflexivity].
  apply Qeq_bool_iff in Hzero. contradiction.
Qed.

(** The unit in the last place of [x], and [x] in units of it. *)
Lemma ulp_spec (x : Q) :
  ~ x == 0 ->
  let ulp := 2 ^ (binade x - 52) in
  0 < ulp /\ x / ulp * ulp == x /\
  2 ^ 52 * ulp <= Qabs x /\ Qabs x < 2 ^ 53 * ulp.
Proof.
  intros Hx ulp.
  pose proof (pow2_positive (binade x - 52)) as Hpos. fold ulp in Hpos.
  destruct (binade_spec x Hx) as [Hlow Hhigh].
  assert (2 ^ binade x == 2 ^ 52 * ulp) as Hunit.
  { subst ulp. rewrite <- Qpower_plus by discriminate.
    replace (52 + (binade x - 52))%Z with (binade x) by lia. reflexivity. }
  assert (2 ^ (binade x + 1) == 2 ^ 53 * ulp) as Hnext.
  { subst ulp. rewrite <- Qpower_plus by discriminate.
    replace (53 + (binade x - 52))%Z with (binade x + 1)%Z by lia. reflexivity. }
  rewrite Hunit in Hlow. rewrite Hnext in Hhigh.
  repeat split; try assumption. field. lra.
Qed.

Lemma binary64_error (x : Q) : Qabs (binary64 x - x) <= Qabs x * (1 # 2 ^ 53).
Proof.
  destruct (Qeq_dec x 0) as [Hzero | Hx].
  - rewrite (binary64_zero x Hzero), Hzero. vm_compute. discriminate.
  - rewrite (binary64_nonzero x Hx).
    destruct (ulp_spec x Hx) as (Hpos & Hscaled & Hlow & _).
    set (ulp := 2 ^ (binade x - 52)) in *. set (m := x / ulp) in *.
    destruct (nearest_even_near m) as [Hn1 Hn2].
    set (n := inject_Z (nearest_even m)) in *.
    assert (ulp * (1 # 2) <= Qabs x * (1 # 2 ^ 53)) as Hhalf.
    { assert (2 ^ 52 * ulp * (1 # 2 ^ 53) <= Qabs x * (1 # 2 ^ 53))
        by (apply Qmult_le_compat_r; [exact Hlow | vm_compute; discriminate]).
      assert (2 ^ 52 * ulp * (1 # 2 ^ 53) == ulp * (1 # 2)) as Heq.
      { assert (2 ^ 52 * (1 # 2 ^ 53) == 1 # 2) as Hc by reflexivity.
        rewrite <- Hc. ring. }
      rewrite Heq in H. exact H. }
    apply Qabs_Qle_condition.
    assert ((m - (1 # 2)) * ulp <= n * ulp) as H1 by (apply Qmult_le_compat_r; lra).
    assert (n * ulp <= (m + (1 # 2)) * ulp) as H2 by (apply Qmult_le_compat_r; lra).
    assert ((m - (1 # 2)) * ulp == x - ulp * (1 # 2)) as E1 by (rewrite <- Hscaled at 1; ring).
    assert ((m + (1 # 2)) * ulp == x + ulp * (1 # 2)) as E2 by (rewrite <- Hscaled at 1; ring).
    rewrite E1 in H1. rewrite E2 in H2. lra.
Qed.

Lemma binary64_compatible (x y : Q) : x == y -> binary64 x == binary64 y.
Proof.
  intros Hxy.
  destruct (Qeq_dec y 0) as [Hzero | Hy].
  - rewrite (binary64_zero y Hzero), (binary64_zero x) by (rewrite Hxy; exact Hzero).
    reflexivity.
  - assert (~ x == 0) as Hx by (rewrite Hxy; exact Hy).
    rewrite (binary64_nonzero x Hx), (binary64_nonzero y Hy).
    rewrite (binade_compatible x y Hy Hxy).
    assert (x / 2 ^ (binade y - 52) == y / 2 ^ (binade y - 52)) as Hm
      by (rewrite Hxy; reflexivity).
    rewrite (nearest_even_compatible _ _ Hm). reflexivity.
Qed.

Lemma binary64_positive (x : Q) :
  0 < x -> 2 ^ binade x <= binary64 x /\ binary64 x <= 2 ^ (binade x + 1).
Proof.
  intros Hpos.
  assert (~ x == 0) as Hx by lra.
  rewrite (binary64_nonzero x Hx).
  destruct (ulp_spec x Hx) as (Hulp & Hscaled & Hlow & Hhigh).
  rewrite (Qabs_pos x) in Hlow, Hhigh by lra.
  set (ulp := 2 ^ (binade x - 52)) in *. set (m := x / ulp) in *.
  assert (2 ^ binade x == 2 ^ 52 * ulp) as Hunit.
  { subst ulp. rewrite <- Qpower_plus by discriminate.
    replace (52 + (binade x - 52))%Z with (binade x) by lia. reflexivity. }
  assert (2 ^ (binade x + 1) == 2 ^ 53 * ulp) as Hnext.
  { subst ulp. rewrite <- Qpower_plus by discriminate.
    replace (53 + (binade x - 52))%Z with (binade x + 1)%Z by lia. reflexivity. }
  assert (inject_Z (2 ^ 52) <= m) as Hm1.
  { subst m. apply Qle_shift_div_l; [exact Hulp |]. exact Hlow. }
  assert (m <= inject_Z (2 ^ 53)) as Hm2.
  { subst m. apply Qle_shift_div_r; [exact Hulp |]. apply Qlt_le_weak. exact Hhigh. }
  pose proof (nearest_even_monotone _ _ Hm1) as Hn1.
  pose proof (nearest_even_monotone _ _ Hm2) as Hn2.
  rewrite nearest_even_integer in Hn1, Hn2.
  rewrite Zle_Qle in Hn1, Hn2.
  rewrite Hunit, Hnext. split; apply Qmult_le_compat_r; try lra; assumption.
Qed.

Lemma binary64_negative (x : Q) :
  x < 0 -> - 2 ^ (binade x + 1) <= binary64 x /\ binary64 x <= - 2 ^ binade x.
Proof.
  intros Hneg.
  assert (~ x == 0) as Hx by lra.
  rewrite (binary64_nonzero x Hx).
  destruct (ulp_spec x Hx) as (Hulp & Hscaled & Hlow & Hhigh).
  rewrite (Qabs_neg x) in Hlow, Hhigh by lra.
  set (ulp := 2 ^ (binade x - 52)) in *. set (m := x / ulp) in *.
  assert (2 ^ binade x == 2 ^ 52 * ulp) as Hunit.
  { subst ulp. rewrite <- Qpower_plus by discriminate.
    replace (52 + (binade x - 52))%Z with (binade x) by lia. reflexivity. }
  assert (2 ^ (binade x + 1) == 2 ^ 53 * ulp) as Hnext.
  { subst ulp. rewrite <- Qpower_plus by discriminate.
    replace (53 + (binade x - 52))%Z with (binade x + 1)%Z by lia. reflexivity. }
  assert (inject_Z (- 2 ^ 53) <= m) as Hm1.
  { subst m. apply Qle_shift_div_l; [exact Hulp |].
    change (inject_Z (- 2 ^ 53)) with (- 2 ^ 53). lra. }
  assert (m <= inject_Z (- 2 ^ 52)) as Hm2.
  { subst m. apply Qle_shift_div_r; [exact Hulp |].
    change (inject_Z (- 2 ^ 52)) with (- 2 ^ 52). lra. }
  pose proof (nearest_even_monotone _ _ Hm1) as Hn1.
  pose proof (nearest_even_monotone _ _ Hm2) as Hn2.
  rewrite nearest_even_integer in Hn1, Hn2.
  rewrite Zle_Qle in Hn1, Hn2.
  change (inject_Z (- 2 ^ 53)) with (- 2 ^ 53) in Hn1.
  change (inject_Z (- 2 ^ 52)) with (- 2 ^ 52) in Hn2.
  rewrite Hunit, Hnext.
  assert (- 2 ^ 53 * ulp <= inject_Z (nearest_even m) * ulp)
    by (apply Qmult_le_compat_r; lra).
  assert (inject_Z (nearest_even m) * ulp <= - 2 ^ 52 * ulp)
    by (apply Qmult_le_compat_r; lra).
  lra.
Qed.

Lemma binary64_same_binade (x y : Q) :
  ~ x == 0 -> ~ y == 0 -> binade x = binade y -> x <= y -> binary64 x <= binary64 y.
Proof.
  intros Hx Hy Hsame Hle.
  rewrite (binary64_nonzero x Hx), (binary64_nonzero y Hy), Hsame.
  pose proof (pow2_positive (binade y - 52)) as Hulp.
  set (ulp := 2 ^ (binade y - 52)) in *.
  assert (x / ulp <= y / ulp) as Hscaled.
  { apply Qle_shift_div_l; [exact Hulp |].
    assert (x / ulp * ulp == x) as -> by (field; lra). exact Hle. }
  apply nearest_even_monotone in Hscaled. rewrite Zle_Qle in Hscaled.
  apply Qmult_le_compat_r; lra.
Qed.

Lemma binary64_monotone (x y : Q) : x <= y -> binary64 x <= binary64 y.
Proof.
  intros Hle.
  destruct (Qlt_le_dec x 0) as [Hxneg | Hxpos];
    [| destruct (Qeq_dec x 0) as [Hxzero | Hxnonzero]];
    (destruct (Qlt_le_dec y 0) as [Hyneg | Hypos];
      [| destruct (Qeq_dec y 0) as [Hyzero | Hynonzero]]); try (exfalso; lra).
  - (* both negative *)
    assert (~ x == 0) as Hx by lra. assert (~ y == 0) as Hy by lra.
    destruct (binade_spec x Hx) as [Hx1 Hx2]. destruct (binade_spec y Hy) as [Hy1 Hy2].
    rewrite (Qabs_neg x) in Hx1, Hx2 by lra. rewrite (Qabs_neg y) in Hy1, Hy2 by lra.
    assert (binade y < binade x + 1)%Z as Horder by (apply pow2_lt_inv; lra).
    destruct (Z.eq_dec (binade x) (binade y)) as [Hsame | Hother].
    + apply binary64_same_binade; assumption.
    + pose proof (pow2_le (binade y + 1) (binade x) ltac:(lia)) as Hgap.
      pose proof (binary64_negative x Hxneg) as [_ Hbx].
      pose proof (binary64_negative y Hyneg) as [Hby _]. lra.
  - (* negative, zero *)
    rewrite (binary64_zero y Hyzero).
    pose proof (binary64_negative x Hxneg) as [_ Hbx].
    pose proof (pow2_positive (binade x)). lra.
  - (* negative, positive *)
    pose proof (binary64_negative x Hxneg) as [_ Hbx].
    pose proof (binary64_positive y ltac:(lra)) as [Hby _].
    pose proof (pow2_positive (binade x)). pose proof (pow2_positive (binade y)). lra.
  - (* zero, zero *)
    rewrite (binary64_zero x Hxzero), (binary64_zero y Hyzero). lra.
  - (* zero, positive *)
    rewrite (binary64_zero x Hxzero).
    pose proof (binary64_positive y ltac:(lra)) as [Hby _].
    pose proof (pow2_positive (binade y)). lra.
  - (* both positive *)
    assert (0 < x) as Hx0 by lra. assert (0 < y) as Hy0 by lra.
    destruct (binade_spec x Hxnonzero) as [Hx1 Hx2].
    destruct (binade_spec y Hynonzero) as [Hy1 Hy2].
    rewrite (Qabs_pos x) in Hx1, Hx2 by lra. rewrite (Qabs_pos y) in Hy1, Hy2 by lra.
    assert (binade x < binade y + 1)%Z as Horder by (apply pow2_lt_inv; lra).
    destruct (Z.eq_dec (binade x) (binade y)) as [Hsame | Hother].
    + apply binary64_same_binade; assumption.
    + pose proof (pow2_le (binade x + 1) (binade y) ltac:(lia)) as Hgap.
      pose proof (binary64_positive x Hx0) as [_ Hbx].
      pose proof (binary64_positive y Hy0) as [Hby _]. lra.
Qed.

Lemma binary64_integer (n : Z) :
  (Z.abs n <= 2 ^ 53)%Z -> binary64 (inject_Z n) == inject_Z n.
Proof.
  intros Hbound.
  destruct (Z.eq_dec n 0%Z) as [-> | Hn]; [reflexivity |].
  assert (~ inject_Z n == 0) as Hx.
  { intros Hzero. apply Hn. change 0 with (inject_Z 0) in Hzero.
    exact (proj1 (inject_Z_injective n 0) Hzero). }
  destruct (binade_spec _ Hx) as [Hlow Hhigh].
  change (Qabs (inject_Z n)) with (inject_Z (Z.abs n)) in Hlow, Hhigh.
  assert (inject_Z (Z.abs n) <= 2 ^ 53) as Habs.
  { rewrite <- (pow2_of_Z 53) by lia. rewrite <- Zle_Qle. exact Hbound. }
  assert (binade (inject_Z n) < 53 + 1)%Z as Hbinade.
  { apply pow2_lt_inv. apply (Qle_lt_trans _ _ _ Hlow), (Qle_lt_trans _ _ _ Habs).
    reflexivity. }
  destruct (Z.eq_dec (binade (inject_Z n)) 53%Z) as [Htop | Hbelow].
  - rewrite Htop in Hlow. rewrite <- (pow2_of_Z 53) in Hlow by lia.
    rewrite <- Zle_Qle in Hlow.
    assert (n = 2 ^ 53 \/ n = - 2 ^ 53)%Z as [-> | ->] by lia; vm_compute; reflexivity.
  - rewrite (binary64_nonzero _ Hx).
    set (e := (52 - binade (inject_Z n))%Z).
    assert (0 <= e)%Z as He by (subst e; lia).
    assert (2 ^ (binade (inject_Z n) - 52) == / inject_Z (2 ^ e)) as Hulp.
    { rewrite (pow2_of_Z e He). rewrite <- Qpower_opp. subst e.
      replace (- (52 - binade (inject_Z n)))%Z with (binade (inject_Z n) - 52)%Z by lia.
      reflexivity. }
    assert (0 < inject_Z (2 ^ e)) as Hpos.
    { rewrite (pow2_of_Z e He). apply pow2_positive. }
    assert (inject_Z n / 2 ^ (binade (inject_Z n) - 52) == inject_Z (n * 2 ^ e)) as Hscaled.
    { rewrite Hulp, inject_Z_mult. field. lra. }
    rewrite (nearest_even_compatible _ _ Hscaled), nearest_even_integer.
    rewrite Hulp, inject_Z_mult. field. lra.
Qed.

Theorem binary64_correctly_rounded : correctly_rounded binary64.
Proof.
  repeat split.
  - exact binary64_compatible.
  - exact binary64_monotone.
  - exact binary64_integer.
  - intros x _ _. apply binary64_error.
Qed.

Section Rounding.

Variable round : Q -> Q.
Hypothesis round_correct : correctly_rounded round.

Lemma round_compatible (x y : Q) : x == y -> round x == round y.
Proof. apply round_correct. Qed.

Lemma round_monotone (x y : Q) : x <= y -> round x <= round y.
Proof. apply round_correct. Qed.

Lemma round_integer (n : Z) : (Z.abs n <= 2 ^ 53)%Z -> round (inject_Z n) == inject_Z n.
Proof. apply round_correct. Qed.

Lemma round_near (x : Q) :
  1 # 2 ^ 60 <= x -> x <= 2 ^ 60 ->
  x - x * (1 # 2 ^ 53) <= round x /\ round x <= x + x * (1 # 2 ^ 53).
Proof.
  intros Hlow Hhigh.
  assert (0 <= x) as Hpos by (eapply Qle_trans; [| exact Hlow]; vm_compute; discriminate).
  destruct round_correct as (_ & _ & _ & Herr). specialize (Herr x).
  rewrite (Qabs_pos x Hpos) in Herr.
  specialize (Herr Hlow Hhigh). apply Qabs_Qle_condition in Herr. lra.
Qed.

Lemma round_below (x : Q) (n : Z) :
  (Z.abs n <= 2 ^ 53)%Z -> x <= inject_Z n -> round x <= inject_Z n.
Proof.
  intros Hn Hx. rewrite <- (round_integer n Hn). apply round_monotone. exact Hx.
Qed.

Lemma round_above (x : Q) (n : Z) :
  (Z.abs n <= 2 ^ 53)%Z -> inject_Z n <= x -> inject_Z n <= round x.
Proof.
  intros Hn Hx. rewrite <- (round_integer n Hn). apply round_monotone. exact Hx.
Qed.

(** The rounded quotient of two integers has the floor of the exact
    one: the quotient is either an integer or at least 1/c below the next
    one, which is more than the rounding moves it. *)
Lemma floor_rounded_quotient (a c : Z) :
  (0 < c)%Z -> (Z.abs a + c <= 2 ^ 53)%Z ->
  Qfloor (round (inject_Z a / inject_Z c)) = (a / c)%Z.
Proof.
  intros Hc Hbound. pose proof (inject_Z_positive c Hc) as Hpos.
  pose proof (quotient_of_integers a c Hc) as Hsplit.
  pose proof (Z.mod_pos_bound a c Hc) as [Hr0 Hrc].
  pose proof (Z.div_mod a c ltac:(lia)) as Hdm.
  assert (Z.abs (a / c) <= 2 ^ 53)%Z as Hk.
  { assert (Z.abs (a / c) <= Z.abs a + 1)%Z; [| lia].
    assert (- Z.abs a - 1 <= a / c <= Z.abs a)%Z; [| lia].
    split.
    - apply Z.div_le_lower_bound; [lia |]. nia.
    - enough (a / c < Z.abs a + 1)%Z by lia.
      apply Z.div_lt_upper_bound; [lia |]. nia. }
  assert (0 <= inject_Z (a mod c)) as Hr0' by (rewrite <- (Zle_Qle 0); exact Hr0).
  apply Qfloor_between.
  - apply round_above; [exact Hk |]. rewrite Hsplit.
    assert (0 <= inject_Z (a mod c) / inject_Z c) by (apply Qle_shift_div_l; lra).
    lra.
  - destruct (Z.eq_dec (a mod c)%Z 0%Z) as [Hzero | Hnonzero].
    + assert (inject_Z a / inject_Z c == inject_Z (a / c)) as Hexact.
      { rewrite Hsplit, Hzero. unfold Qdiv. rewrite Qmult_0_l. ring. }
      rewrite (round_compatible _ _ Hexact), (round_integer _ Hk).
      rewrite <- Zlt_Qlt. lia.
    + set (x := inject_Z a / inject_Z c) in *.
      assert (Qabs x == inject_Z (Z.abs a) / inject_Z c) as Habs.
      { subst x. unfold Qdiv. rewrite Qabs_Qmult. rewrite (Qabs_pos (/ inject_Z c)).
        - reflexivity.
        - apply Qlt_le_weak, Qinv_lt_0_compat. exact Hpos. }
      assert (a <> 0%Z) as Hnz by (intros ->; apply Hnonzero; apply Z.mod_0_l; lia).
      assert (1 <= Z.abs a)%Z as Ha by lia.
      assert (inject_Z 1 <= inject_Z (Z.abs a)) as Ha' by (rewrite <- Zle_Qle; exact Ha).
      assert (inject_Z (Z.abs a) + inject_Z c <= inject_Z (2 ^ 53)) as Hb'.
      { rewrite <- inject_Z_plus, <- Zle_Qle. exact Hbound. }
      assert (inject_Z (a mod c) + 1 <= inject_Z c) as Hr'.
      { change 1 with (inject_Z 1). rewrite <- inject_Z_plus, <- Zle_Qle. lia. }
      change (inject_Z 1) with 1 in Ha'.
      change (inject_Z (2 ^ 53)) with (9007199254740992 # 1) in Hb'.
      assert (1 # 2 ^ 60 <= Qabs x) as Hin1.
      { rewrite Habs. apply Qle_shift_div_l; [exact Hpos |].
        assert ((1 # 2 ^ 60) * inject_Z c <= (1 # 2 ^ 60) * (9007199254740992 # 1))
          by (apply Qmult_le_l; [reflexivity | lra]).
        assert ((1 # 2 ^ 60) * (9007199254740992 # 1) <= 1) by (vm_compute; discriminate).
        lra. }
      assert (Qabs x <= 2 ^ 60) as Hin2.
      { rewrite Habs. apply Qle_shift_div_r; [exact Hpos |].
        assert (1 * inject_Z (Z.abs a) <= 2 ^ 60 * inject_Z c).
        { assert (2 ^ 60 * 1 <= 2 ^ 60 * inject_Z c).
          { apply Qmult_le_l; [reflexivity |].
            change 1 with (inject_Z 1). rewrite <- Zle_Qle. lia. }
          assert (inject_Z (Z.abs a) <= 2 ^ 60)
            by (eapply Qle_trans; [| instantiate (1 := 9007199254740992 # 1);
                                     vm_compute; discriminate]; lra).
          lra. }
        lra. }
      destruct round_correct as (_ & _ & _ & Herr).
      specialize (Herr x Hin1 Hin2).
      apply Qabs_Qle_condition in Herr. destruct Herr as [_ Herr].
      rewrite inject_Z_plus. change (inject_Z 1) with 1.
      assert (round x <= x + Qabs x * (1 # 2 ^ 53)) as Hup by lra.
      eapply Qle_lt_trans; [exact Hup |].
      rewrite Habs. fold x in Hsplit. rewrite Hsplit.
      assert (inject_Z (a mod c) / inject_Z c
              + inject_Z (Z.abs a) / inject_Z c * (1 # 2 ^ 53) < 1); [| lra].
      assert (inject_Z (a mod c) / inject_Z c
              + inject_Z (Z.abs a) / inject_Z c * (1 # 2 ^ 53)
              == (inject_Z (a mod c) + inject_Z (Z.abs a) * (1 # 2 ^ 53)) / inject_Z c)
        as -> by (field; lra).
      apply Qlt_shift_div_r; [exact Hpos |].
      assert (inject_Z (Z.abs a) * (1 # 2 ^ 53) < 1); [| lra].
      assert (inject_Z (Z.abs a) < 9007199254740992 # 1) by lra.
      assert (inject_Z (Z.abs a) * (1 # 2 ^ 53) < (9007199254740992 # 1) * (1 # 2 ^ 53))
        by (apply Qmult_lt_compat_r; [reflexivity | assumption]).
      assert ((9007199254740992 # 1) * (1 # 2 ^ 53) == 1) by reflexivity.
      lra.
Qed.

(** On integers the rounded [alignRange] computes what the exact one
    does. *)
Lemma alignRange_rounded_integers (start end' step : Z) :
  (0 < step)%Z ->
  (Z.abs start + step <= 2 ^ 53)%Z -> (Z.abs end' + step <= 2 ^ 53)%Z ->
  aligned_start (alignRange_rounded round (inject_Z start) (inject_Z end') (inject_Z step))
  == inject_Z (start / step * step) /\
  aligned_end (alignRange_rounded round (inject_Z start) (inject_Z end') (inject_Z step))
  == inject_Z (end' / step * step).
Proof.
  intros Hstep Hstart Hend.
  unfold alignRange_rounded. cbn [aligned_start aligned_end]. unfold Math_floor.
  rewrite !floor_rounded_quotient by assumption.
  assert (forall a : Z, (Z.abs a + step <= 2 ^ 53)%Z ->
                        round (inject_Z (a / step) * inject_Z step)
                        == inject_Z (a / step * step)) as Hproduct.
  { intros a Ha.
    assert (inject_Z (a / step) * inject_Z step == inject_Z (a / step * step)) as Heq
      by (rewrite inject_Z_mult; reflexivity).
    rewrite (round_compatible _ _ Heq). apply round_integer.
    pose proof (Z.mod_pos_bound a step Hstep). pose proof (Z.div_mod a step ltac:(lia)).
    lia. }
  split; apply Hproduct; assumption.
Qed.

(** Equal steps align alike. *)
Lemma alignRange_rounded_compatible (start end' step step' : Q) :
  step == step' ->
  aligned_start (alignRange_rounded round start end' step)
  == aligned_start (alignRange_rounded round start end' step') /\
  aligned_end (alignRange_rounded round start end' step)
  == aligned_end (alignRange_rounded round start end' step').
Proof.
  intros Hstep. unfold alignRange_rounded. cbn [aligned_start aligned_end].
  assert (forall x : Q, round (Math_floor (round (x / step)) * step)
                        == round (Math_floor (round (x / step')) * step')) as Hside.
  { intros x. apply (round_compatible). unfold Math_floor.
    assert (round (x / step) == round (x / step')) as Hq
      by (apply (round_compatible); rewrite Hstep; reflexivity).
    rewrite (Qfloor_comp _ _ Hq), Hstep. reflexivity. }
  split; apply Hside.
Qed.

Section Integers.

Variables interval range intervalFactor : Z.
Hypothesis interval_positive : (0 < interval)%Z.
Hypothesis range_positive : (0 <= range)%Z.
Hypothesis factor_positive : (1 <= intervalFactor)%Z.
Hypothesis scaled_bound : (interval * intervalFactor <= 2 ^ 36)%Z.
Hypothesis range_bound : (range <= 2 ^ 50)%Z.

Let i := inject_Z interval.
Let r := inject_Z range.
Let f := inject_Z intervalFactor.

Lemma integers_positive : 1 <= i /\ 1 <= f /\ 0 <= r /\ r <= 2 ^ 50 /\ i * f <= 2 ^ 36.
Proof.
  subst i r f. repeat split.
  - change 1 with (inject_Z 1). rewrite <- Zle_Qle. lia.
  - change 1 with (inject_Z 1). rewrite <- Zle_Qle. lia.
  - change 0 with (inject_Z 0). rewrite <- Zle_Qle. lia.
  - change (2 ^ 50) with (inject_Z (2 ^ 50)). rewrite <- Zle_Qle. lia.
  - rewrite <- inject_Z_mult. change (2 ^ 36) with (inject_Z (2 ^ 36)).
    rewrite <- Zle_Qle. lia.
Qed.

(** The comparison with 11000 is not changed by the two roundings: a
    range of at most 11000 * interval * factor stays at or below 11000 by
    monotonicity, a larger one is larger by at least 1, which is more
    than the roundings move the quotient. *)
Lemma guard_rounded :
  gt (round (round (r / f) / i)) 11000 = gt (r / f / i) 11000.
Proof.
  destruct integers_positive as (Hi & Hf & Hr & Hr50 & Hif). numerals.
  destruct (Z_le_gt_dec range (11000 * interval * intervalFactor)) as [Hfew | Hmany].
  - assert (r <= 11000 * i * f) as Hfew'.
    { subst r i f. change 11000 with (inject_Z 11000).
      rewrite <- !inject_Z_mult, <- Zle_Qle. exact Hfew. }
    assert (r / f <= inject_Z (11000 * interval)) as Hx.
    { rewrite inject_Z_mult. fold i. change (inject_Z 11000) with 11000.
      apply Qle_shift_div_r; exact_lra. }
    assert (round (r / f) <= inject_Z (11000 * interval)) as Hy
      by (apply round_below; [lia | exact Hx]).
    assert (round (r / f) / i <= inject_Z 11000) as Hz.
    { rewrite inject_Z_mult in Hy. fold i in Hy. change (inject_Z 11000) with 11000 in *.
      apply Qle_shift_div_r; exact_lra. }
    assert (round (round (r / f) / i) <= 11000) as Hrz
      by (apply (round_below _ 11000); [lia | exact Hz]).
    assert (r / f / i <= 11000) as Hexact.
    { apply Qle_shift_div_r; [exact_lra |]. apply Qle_shift_div_r; exact_lra. }
    apply gt_false in Hrz. apply gt_false in Hexact. congruence.
  - assert (11000 * i * f + 1 <= r) as Hmany'.
    { subst r i f. change 11000 with (inject_Z 11000). change 1 with (inject_Z 1).
      rewrite <- !inject_Z_mult, <- inject_Z_plus, <- Zle_Qle. lia. }
    set (q := r / f / i).
    assert (q * (i * f) == r) as Hq by (subst q; field; exact_lra).
    assert (1 <= i * f) as Hif1.
    { apply Qle_trans with (1 * f); [exact_lra |]. apply Qmult_le_compat_r; exact_lra. }
    assert (0 < i * f) as Hpos by exact_lra.
    assert (11000 + (1 # 2 ^ 36) <= q) as Hq0.
    { assert (11000 * (i * f) + (1 # 2 ^ 36) * (i * f) <= q * (i * f)).
      { rewrite Hq.
        assert ((1 # 2 ^ 36) * (i * f) <= 1).
        { assert ((1 # 2 ^ 36) * (i * f) <= (1 # 2 ^ 36) * 2 ^ 36)
            by (apply Qmult_le_l; [reflexivity | exact Hif]).
          assert ((1 # 2 ^ 36) * 2 ^ 36 == 1) by reflexivity. exact_lra. }
        exact_lra. }
      apply (Qmult_le_r _ _ (i * f)); [exact Hpos |]. exact_lra. }
    assert (q <= r) as Hqr.
    { assert (q * 1 <= q * (i * f)).
      { apply Qmult_le_l; [exact_lra | exact Hif1]. }
      exact_lra. }
    set (x := r / f).
    assert (x == q * i) as Hx by (subst x q; field; exact_lra).
    assert (11000 <= x) as Hx0.
    { rewrite Hx. apply Qle_trans with (q * 1); [exact_lra |].
      apply Qmult_le_l; exact_lra. }
    assert (x <= r) as Hxr.
    { subst x. apply Qle_shift_div_r; [exact_lra |].
      apply Qle_trans with (r * 1); [exact_lra |].
      destruct (Qle_lt_or_eq _ _ Hr) as [Hlt | Heq]; [apply Qmult_le_l; exact_lra |].
      rewrite <- Heq. exact_lra. }
    destruct (round_near x) as [Hy _]; [exact_lra | exact_lra |].
    set (z := round x / i) in *.
    assert (q - q * (1 # 2 ^ 53) <= z) as Hz.
    { subst z. apply Qle_shift_div_l; [exact_lra |].
      assert ((q - q * (1 # 2 ^ 53)) * i == x - x * (1 # 2 ^ 53)) as ->
        by (rewrite Hx; ring).
      exact Hy. }
    assert (z <= 2 ^ 60) as Hz60.
    { destruct (round_near x) as [_ Hup]; [exact_lra | exact_lra |].
      subst z. apply Qle_shift_div_r; [exact_lra |].
      assert (2 ^ 60 * 1 <= 2 ^ 60 * i) by (apply Qmult_le_l; [reflexivity | exact_lra]).
      exact_lra. }
    destruct (round_near z) as [Hrz _]; [exact_lra | exact Hz60 |].
    assert (11000 < round z) as Hgt by exact_lra.
    assert (11000 < q) as Hexact by exact_lra.
    apply gt_true in Hgt. apply gt_true in Hexact. fold q. congruence.
Qed.

(** Nor is the ceiling of the calibrated interval: the quotient by
    11000 * factor lies above an integer by at least 1 / (11000 * factor),
    which is more than the roundings move it. *)
Lemma ceiling_rounded :
  (11000 * interval * intervalFactor < range)%Z ->
  Qceiling (round (round (r / f) / 11000)) = ((range - 1) / (11000 * intervalFactor) + 1)%Z /\
  Qceiling (r / f / 11000) = ((range - 1) / (11000 * intervalFactor) + 1)%Z.
Proof.
  intros Hmany.
  destruct integers_positive as (Hi & Hf & Hr & Hr50 & Hif).
  set (N := (11000 * intervalFactor)%Z).
  set (k := ((range - 1) / N)%Z).
  assert (0 < N)%Z as HN by (subst N; lia).
  pose proof (Z.mod_pos_bound (range - 1) N HN) as Hmod.
  pose proof (Z.div_mod (range - 1) N ltac:(lia)) as Hdm. fold k in Hdm.
  assert (0 <= k)%Z as Hk0 by (subst k; apply Z.div_pos; lia).
  assert (N * k + 1 <= range <= N * (k + 1))%Z as [Hlow Hhigh] by lia.
  assert (11000 * k <= 2 ^ 50)%Z as Hk50 by (subst N; nia).
  assert (inject_Z N == 11000 * f) as HN'
    by (subst N f; rewrite inject_Z_mult; reflexivity).
  assert (11000 * f * inject_Z k + 1 <= r) as Hlow'.
  { rewrite <- HN'. subst r. change 1 with (inject_Z 1).
    rewrite <- inject_Z_mult, <- inject_Z_plus, <- Zle_Qle. exact Hlow. }
  assert (r <= 11000 * f * inject_Z (k + 1)) as Hhigh'.
  { rewrite <- HN'. subst r. rewrite <- inject_Z_mult, <- Zle_Qle. exact Hhigh. }
  assert (0 <= inject_Z k) as Hk0' by (rewrite <- (Zle_Qle 0); exact Hk0).
  set (q := r / f / 11000).
  set (d := / (11000 * f)).
  assert (0 < d) as Hd by (subst d; apply Qinv_lt_0_compat; exact_lra).
  assert (11000 * f * d == 1) as Hd1 by (subst d; field; exact_lra).
  assert (q == r * d) as Hq by (subst q d; field; exact_lra).
  assert (inject_Z k + d <= q) as Hqlow.
  { rewrite Hq.
    assert ((11000 * f * inject_Z k + 1) * d <= r * d) as Hscaled
      by (apply Qmult_le_compat_r; exact_lra).
    assert ((11000 * f * inject_Z k + 1) * d == inject_Z k * (11000 * f * d) + d) as Heq
      by ring.
    rewrite Heq, Hd1 in Hscaled. exact_lra. }
  assert (q <= inject_Z (k + 1)) as Hqhigh.
  { rewrite Hq.
    assert (r * d <= 11000 * f * inject_Z (k + 1) * d) as Hscaled
      by (apply Qmult_le_compat_r; exact_lra).
    assert (11000 * f * inject_Z (k + 1) * d == inject_Z (k + 1) * (11000 * f * d)) as Heq
      by ring.
    rewrite Heq, Hd1 in Hscaled. exact_lra. }
  assert (q <= 2 ^ 50 * d) as Hq50.
  { rewrite Hq. apply Qmult_le_compat_r; exact_lra. }
  split; [| apply Qceiling_between; exact_lra].
  set (x := r / f).
  assert (x == q * 11000) as Hx by (subst x q; field; exact_lra).
  assert (11000 <= x) as Hx0.
  { subst x. apply Qle_shift_div_l; [exact_lra |].
    assert (11000 * i * f + 1 <= r) as Hr1.
    { subst r i f. change 11000 with (inject_Z 11000). change 1 with (inject_Z 1).
      rewrite <- !inject_Z_mult, <- inject_Z_plus, <- Zle_Qle. lia. }
    assert (11000 * f * 1 <= 11000 * f * i) by (apply Qmult_le_l; exact_lra).
    exact_lra. }
  assert (x <= r) as Hxr.
  { subst x. apply Qle_shift_div_r; [exact_lra |].
    apply Qle_trans with (r * 1); [exact_lra |].
    destruct (Qle_lt_or_eq _ _ Hr) as [Hlt | Heq]; [apply Qmult_le_l; exact_lra |].
    rewrite <- Heq. exact_lra. }
  destruct (round_near x) as [Hy Hyup]; [exact_lra | exact_lra |].
  set (z := round x / 11000) in *.
  assert (q - q * (1 # 2 ^ 53) <= z) as Hz.
  { subst z. apply Qle_shift_div_l; [reflexivity |].
    assert ((q - q * (1 # 2 ^ 53)) * 11000 == x - x * (1 # 2 ^ 53)) as ->
      by (rewrite Hx; ring).
    exact Hy. }
  assert (z <= 2 ^ 60) as Hz60.
  { subst z. apply Qle_shift_div_r; [reflexivity |]. exact_lra. }
  assert (z <= inject_Z (k + 1)) as Hzhigh.
  { subst z. apply Qle_shift_div_r; [reflexivity |].
    assert (inject_Z (k + 1) * 11000 == inject_Z (11000 * (k + 1))) as ->
      by (rewrite inject_Z_mult; change (inject_Z 11000) with 11000; ring).
    apply round_below; [lia |].
    rewrite inject_Z_mult. change (inject_Z 11000) with 11000. exact_lra. }
  destruct (round_near z) as [Hrz _]; [exact_lra | exact Hz60 |].
  apply Qceiling_between.
  - exact_lra.
  - apply round_below; [lia | exact Hzhigh].
Qed.

(** On integers the rounded [adjustInterval] computes what the exact one
    does. *)
Lemma adjustInterval_rounded_integers (minInterval : Q) :
  adjustInterval_rounded round i minInterval r f == adjustInterval i minInterval r f.
Proof.
  destruct integers_positive as (Hi & Hf & Hr & Hr50 & Hif).
  unfold adjustInterval_rounded, adjustInterval. rewrite guard_rounded.
  assert (forall a b : Q, a == b -> Math_max a minInterval 1 == Math_max b minInterval 1)
    as Hmax.
  { intros a b Hab. unfold Math_max. rewrite Hab. reflexivity. }
  assert (forall n : Z, (Z.abs (n * intervalFactor) <= 2 ^ 53)%Z ->
                        round (inject_Z n * f) == inject_Z n * f) as Hproduct.
  { intros n Hn. subst f.
    assert (inject_Z n * inject_Z intervalFactor == inject_Z (n * intervalFactor)) as Heq
      by (rewrite inject_Z_mult; reflexivity).
    rewrite (round_compatible _ _ Heq), Heq. apply round_integer. exact Hn. }
  destruct (strict_ne i 0 && gt (r / f / i) 11000) eqn:Hcalibrate.
  - apply andb_true_iff in Hcalibrate. destruct Hcalibrate as [_ Hgt].
    apply gt_true in Hgt.
    assert (11000 * interval * intervalFactor < range)%Z as Hmany.
    { assert (11000 * i * f < r) as Hlt.
      { assert (11000 * (i * f) < r / f / i * (i * f)).
        { apply Qmult_lt_compat_r; [| exact Hgt].
          apply Qmult_lt_0_compat; exact_lra. }
        assert (r / f / i * (i * f) == r) as Heq by (field; exact_lra).
        exact_lra. }
      subst r i f. change 11000 with (inject_Z 11000) in Hlt.
      rewrite <- !inject_Z_mult, <- Zlt_Qlt in Hlt. exact Hlt. }
    destruct (ceiling_rounded Hmany) as [Hrounded Hexact].
    apply Hmax. unfold Math_ceil. rewrite Hrounded, Hexact.
    apply Hproduct.
    set (N := (11000 * intervalFactor)%Z) in *.
    assert (0 < N)%Z as HN by (subst N; lia).
    pose proof (Z.mod_pos_bound (range - 1) N HN) as Hmod.
    pose proof (Z.div_mod (range - 1) N ltac:(lia)) as Hdm.
    assert (0 <= (range - 1) / N)%Z by (apply Z.div_pos; lia).
    subst N. nia.
  - apply Hmax. subst i. apply Hproduct. lia.
Qed.

End Integers.

End Rounding.

(** C1, as the code has it. The division and the product of [alignRange]
    round: with a step that is no integer the aligned value can exceed
    the original (see [alignRange_binary64_exceeds]). For an integer
    start and end and a positive integer step, with |start| + step and
    |end| + step at most 2^53, [alignRange] returns, whatever the correct
    rounding of its division and product, the largest multiple of the
    step not exceeding the start, and the largest multiple of the step
    not exceeding the end: the integers (start div step) * step and
    (end div step) * step. *)
Theorem alignRange_largest_multiples (round : Q -> Q) (start end' step : Z) :
  correctly_rounded round ->
  (0 < step)%Z ->
  (Z.abs start + step <= 2 ^ 53)%Z -> (Z.abs end' + step <= 2 ^ 53)%Z ->
  let aligned := alignRange_rounded round (inject_Z start) (inject_Z end') (inject_Z step) in
  (largest_multiple_le (inject_Z step) (inject_Z start) (aligned_start aligned) /\
   aligned_start aligned == inject_Z (start / step * step)) /\
  (largest_multiple_le (inject_Z step) (inject_Z end') (aligned_end aligned) /\
   aligned_end aligned == inject_Z (end' / step * step)).
Proof.
  intros Hround Hstep Hstart Hend aligned. subst aligned.
  pose proof (inject_Z_positive step Hstep) as Hpos.
  destruct (alignRange_rounded_integers round Hround start end' step Hstep Hstart Hend)
    as [Hs He].
  destruct (alignRange_of_integers start end' step Hstep) as [Hs' He'].
  split; (split; [| assumption]).
  - apply (largest_multiple_le_compat _ _
             (aligned_start (alignRange (inject_Z start) (inject_Z end') (inject_Z step)))).
    + rewrite Hs, Hs'. reflexivity.
    + unfold alignRange. cbn [aligned_start]. apply floor_largest_multiple. exact Hpos.
  - apply (largest_multiple_le_compat _ _
             (aligned_end (alignRange (inject_Z start) (inject_Z end') (inject_Z step)))).
    + rewrite He, He'. reflexivity.
    + unfold alignRange. cbn [aligned_end]. apply floor_largest_multiple. exact Hpos.
Qed.

Lemma alignRange_largest_multiples_witness :
  correctly_rounded binary64 /\
  (0 < 15)%Z /\ (Z.abs 1567296005 + 15 <= 2 ^ 53)%Z /\ (Z.abs 1567297805 + 15 <= 2 ^ 53)%Z /\
  (largest_multiple_le 15 1567296005
     (aligned_start (alignRange_rounded binary64 1567296005 1567297805 15)) /\
   aligned_start (alignRange_rounded binary64 1567296005 1567297805 15) == 1567296000) /\
  (largest_multiple_le 15 1567297805
     (aligned_end (alignRange_rounded binary64 1567296005 1567297805 15)) /\
   aligned_end (alignRange_rounded binary64 1567296005 1567297805 15) == 1567297800).
Proof.
  split; [exact binary64_correctly_rounded |].
  assert (0 < 15)%Z as Hstep by reflexivity.
  assert (Z.abs 1567296005 + 15 <= 2 ^ 53)%Z as Hstart by (vm_compute; discriminate).
  assert (Z.abs 1567297805 + 15 <= 2 ^ 53)%Z as Hend by (vm_compute; discriminate).
  repeat (split; [assumption |]).
  exact (alignRange_largest_multiples binary64 1567296005 1567297805 15
           binary64_correctly_rounded Hstep Hstart Hend).
Defined.

(** C1, as written, fails on doubles: with start 187 and the step 1.1 (a
    positive step) the code computes 187 / 1.1 = 170 (the quotient rounds
    up to 170) and 170 * 1.1 = 187.00000000000003, which exceeds the
    start. *)
Lemma alignRange_binary64_exceeds :
  0 < Binary64.exact 1.1 /\
  Binary64.aligned_start (Binary64.alignRange 187 187 1.1) = 187.00000000000003%float /\
  Binary64.exact 187
  < Binary64.exact (Binary64.aligned_start (Binary64.alignRange 187 187 1.1)) /\
  ~ largest_multiple_le (Binary64.exact 1.1) (Binary64.exact 187)
      (Binary64.exact (Binary64.aligned_start (Binary64.alignRange 187 187 1.1))).
Proof.
  split; [reflexivity |]. split; [vm_compute; reflexivity |].
  split; [vm_compute; reflexivity |].
  intros (_ & Hle & _). vm_compute in Hle. apply Hle. reflexivity.
Qed.

(** The rounding on rationals computes the same: [binary64] of 11/10 is
    the double 1.1, and [alignRange_rounded] aligns 187 with it to
    187.00000000000003. *)
Example alignRange_rounded_exceeds :
  binary64 (11 # 10) == Binary64.exact 1.1 /\
  aligned_start (alignRange_rounded binary64 187 187 (binary64 (11 # 10)))
  == Binary64.exact 187.00000000000003 /\
  187 < aligned_start (alignRange_rounded binary64 187 187 (binary64 (11 # 10))).
Proof.
  repeat split; vm_compute; reflexivity.
Qed.

(** On integers the doubles and the rationals agree: a window of half an
    hour aligned to 15 seconds. *)
Example alignRange_binary64_integers :
  Binary64.alignRange 1567296005 1567297805 15
  = {| Binary64.aligned_end := 1567297800; Binary64.aligned_start := 1567296000 |} /\
  Binary64.exact 1567296000 == aligned_start (alignRange 1567296005 1567297805 15) /\
  Binary64.exact 1567297800 == aligned_end (alignRange 1567296005 1567297805 15).
Proof.
  split; [vm_compute; reflexivity |]. split; vm_compute; reflexivity.
Qed.

(** The same on a grid of integers: small steps and starts, an hour, a
    day, steps and starts next to the bounds of C1, timestamps of 2019. *)
Example alignRange_binary64_grid :
  forallb (fun step =>
    forallb (fun start => alignRange_agrees start (start + 1800) step)
      (seqZ (-20) 40 ++ seqZ (2 ^ 53 - step - 1810) 10 ++ seqZ (- 2 ^ 53 + step) 10
       ++ seqZ 1567296000 20))
    [1; 2; 3; 7; 15; 60; 3600; 86400; 2 ^ 31; 2 ^ 52 - 1]%Z = true.
Proof. vm_compute. reflexivity. Qed.

(** With an interval of 0 the guard [interval !== 0] skips the
    calibration: the result is the larger of minInterval and 1. *)
Lemma adjustInterval_zero_interval (interval minInterval range intervalFactor : Q) :
  interval == 0 -> 0 <= minInterval ->
  adjustInterval interval minInterval range intervalFactor == Qmax minInterval 1.
Proof.
  intros Hzero Hmin. unfold adjustInterval, Math_max.
  assert (strict_ne interval 0 = false) as -> by (apply strict_ne_false; exact Hzero).
  cbn [andb].
  assert (Qmax (interval * intervalFactor) minInterval == minInterval) as Hinner.
  { apply Q.max_r. rewrite Hzero, Qmult_0_l. exact Hmin. }
  destruct (Qlt_le_dec minInterval 1) as [Hlt | Hge].
  - rewrite (Q.max_r minInterval 1) by lra.
    apply Q.max_r. rewrite Hinner. lra.
  - rewrite (Q.max_l minInterval 1) by lra.
    rewrite Q.max_l by (rewrite Hinner; exact Hge).
    exact Hinner.
Qed.

(** C2, as the code has it. For a positive integer interval, a
    non-negative integer range, an integer intervalFactor of at least 1
    and a non-negative minInterval, the range divided by the adjusted
    interval does not exceed 11000, whatever the correct rounding of the
    divisions and of the product. An interval of 0 is left out of the
    calibration by the guard [interval !== 0]. The inputs are integers,
    with interval * intervalFactor at most 2^36 and the range at most
    2^50: there the rounding changes neither the comparison with 11000
    nor the ceiling, and the product is exact; with an interval of 1.2 it
    is not (see [adjustInterval_binary64_rounding]). *)
Theorem adjustInterval_point_ceiling (round : Q -> Q) (interval range intervalFactor : Z)
    (minInterval : Q) :
  correctly_rounded round ->
  (0 < interval)%Z -> 0 <= minInterval -> (0 <= range)%Z -> (1 <= intervalFactor)%Z ->
  (interval * intervalFactor <= 2 ^ 36)%Z -> (range <= 2 ^ 50)%Z ->
  inject_Z range
  / adjustInterval_rounded round (inject_Z interval) minInterval (inject_Z range)
      (inject_Z intervalFactor)
  <= 11000.
Proof.
  intros Hround Hinterval _ Hrange Hfactor Hscaled Hbound.
  rewrite (adjustInterval_rounded_integers round Hround interval range intervalFactor
             Hinterval Hrange Hfactor Hscaled Hbound minInterval).
  pose proof (adjustInterval_lower_bounds (inject_Z interval) minInterval (inject_Z range)
                (inject_Z intervalFactor)) as [Hone _].
  apply Qle_shift_div_r; [lra |].
  apply adjustInterval_range_bound; apply inject_Z_positive; lia.
Qed.

Lemma adjustInterval_point_ceiling_witness :
  correctly_rounded binary64 /\
  (0 < 1)%Z /\ 0 <= 1 /\ (0 <= 86400)%Z /\ (1 <= 2)%Z /\
  (1 * 2 <= 2 ^ 36)%Z /\ (86400 <= 2 ^ 50)%Z /\
  86400 / adjustInterval_rounded binary64 1 1 86400 2 <= 11000.
Proof.
  split; [exact binary64_correctly_rounded |].
  assert (0 < 1)%Z as Hinterval by reflexivity.
  assert (0 <= 1) as Hmin by (vm_compute; discriminate).
  assert (0 <= 86400)%Z as Hrange by (vm_compute; discriminate).
  assert (1 <= 2)%Z as Hfactor by (vm_compute; discriminate).
  assert (1 * 2 <= 2 ^ 36)%Z as Hscaled by (vm_compute; discriminate).
  assert (86400 <= 2 ^ 50)%Z as Hbound by (vm_compute; discriminate).
  repeat (split; [assumption |]).
  exact (adjustInterval_point_ceiling binary64 1 86400 2 1 binary64_correctly_rounded
           Hinterval Hmin Hrange Hfactor Hscaled Hbound).
Defined.

(** C2, as written, fails at interval 0: with minInterval 0, a range of
    20000 seconds and intervalFactor 1 the adjusted interval is 1, which
    makes 20000 points. *)
Lemma adjustInterval_zero_interval_exceeds :
  0 <= 0 /\ 0 <= 0 /\ 0 <= 20000 /\ 1 <= 1 /\
  adjustInterval 0 0 20000 1 == 1 /\
  ~ (20000 / adjustInterval 0 0 20000 1 <= 11000).
Proof.
  repeat split; try (vm_compute; discriminate).
  vm_compute. intros Hle. apply Hle. reflexivity.
Qed.

(** The same on doubles, and what the rounding does off the integers:
    with interval 1.2, factor 3 and a range of 39600 the quotient is
    exactly 11000, no calibration takes place, and the product 1.2 * 3
    rounds down to 3.5999999999999996, which makes more than 11000
    points; with interval 4.1 and a range of 45100 the quotient rounds
    above 11000 and the code calibrates to 5 where exact arithmetic
    keeps 4.1. *)
Example adjustInterval_binary64_rounding :
  Binary64.adjustInterval 0 0 20000 1 = 1%float /\
  Binary64.adjustInterval 1.2 0 39600 3 = 3.5999999999999996%float /\
  11000 < Binary64.exact 39600 / Binary64.exact (Binary64.adjustInterval 1.2 0 39600 3) /\
  Binary64.adjustInterval 4.1 0 45100 1 = 5%float /\
  adjustInterval (41 # 10) 0 45100 1 == 41 # 10.
Proof.
  repeat split; vm_compute; reflexivity.
Qed.

(** [adjustInterval_rounded] with the rounding on rationals computes the
    same two intervals. *)
Example adjustInterval_rounded_rounding :
  adjustInterval_rounded binary64 (binary64 (12 # 10)) 0 39600 3
  == Binary64.exact 3.5999999999999996 /\
  adjustInterval_rounded binary64 (binary64 (41 # 10)) 0 45100 1 == 5.
Proof.
  split; vm_compute; reflexivity.
Qed.

(** On integers the doubles and the rationals agree. *)
Example adjustInterval_binary64_integers :
  Binary64.adjustInterval 15 5 864000 2 = 80%float /\
  adjustInterval 15 5 864000 2 == 80 /\
  Binary64.adjustInterval 1 1 11000 1 = 1%float /\
  adjustInterval 1 1 11000 1 == 1 /\
  Binary64.adjustInterval 1 1 11001 1 = 2%float /\
  adjustInterval 1 1 11001 1 == 2.
Proof.
  repeat split; vm_compute; reflexivity.
Qed.

(** The same on a grid of integers, with ranges on both sides of 11000
    points and of a whole calibrated interval. *)
Example adjustInterval_binary64_grid :
  forallb (fun intervalFactor =>
    forallb (fun interval =>
      forallb (fun range => adjustInterval_agrees interval 0 range intervalFactor)
        (seqZ (11000 * interval * intervalFactor - 3) 7
         ++ seqZ (11000 * intervalFactor * 7 - 3) 7
         ++ [0; 1; 3600; 86400; 2 ^ 50]%Z))
      [1; 2; 3; 15; 60; 3600; 2 ^ 30]%Z)
    [1; 2; 3; 60]%Z = true.
Proof. vm_compute. reflexivity. Qed.










(** The same in the arithmetic with infinities and [NaN], whatever the
    rounding. *)
Example extended_adjustInterval_nan (round : Q -> number) :
  Extended.adjustInterval round (Finite 1) (Finite 1) (Finite 86400) (Finite 0) = NaN /\
  Extended.ge (Extended.adjustInterval round (Finite 1) (Finite 1) (Finite 86400) (Finite 0))
    (Finite 1) = false.
Proof. split; reflexivity. Qed.


(** ** Errors and cancellation *)

Section Errors.

Context `{host : !Services}.

Lemma cancelled_not_nullish (err : value) :
  truthy (prop err "cancelled") = true -> nullish err = false.
Proof.
  destruct err; cbn; intros Hc; try reflexivity; discriminate.
Qed.

Lemma handleErrors_cancelled (err : value) (target : PromQueryRequest) :
  truthy (prop err "cancelled") = true -> handleErrors err target = Normal err.
Proof.
  intros Hcancelled. unfold handleErrors.
  rewrite (cancelled_not_nullish err Hcancelled), Hcancelled. reflexivity.
Qed.

(** C4. An error whose [cancelled] property is truthy is returned by
    [handleErrors] as it is, nothing is thrown; the promise of the query
    is therefore resolved with it, not rejected; and the loop of [query]
    over the responses passes it by, adding no series to the result. *)
Theorem cancelled_is_no_error (err : value) (target : PromQueryRequest) :
  truthy (prop err "cancelled") = true ->
  handleErrors err target = Normal err /\
  catch (Rejected err) (fun e => handleErrors e target) = Resolved err /\
  (forall (queries : list PromQueryRequest) (activeTargets : list PromQuery)
          (rest : list value) (index : nat) (result : list value),
     eachResponse queries activeTargets (err :: rest) index result =
     eachResponse queries activeTargets rest (S index) result).
Proof.
  intros Hcancelled.
  pose proof (cancelled_not_nullish err Hcancelled) as Hnull.
  pose proof (handleErrors_cancelled err target Hcancelled) as Hreturn.
  split; [exact Hreturn |]. split.
  - unfold catch. rewrite Hreturn. reflexivity.
  - intros queries activeTargets rest index result.
    cbn [eachResponse]. rewrite Hnull, Hcancelled. reflexivity.
Qed.

(** C5, as the code has it. For an error that is not cancelled (and is
    neither [null] nor [undefined]) [handleErrors] throws one object with
    a message, the [refId] of the query it was called with, and the status
    and status text of the original error. The message is the error's
    [data] when that is a string, the stringified [data.error], the
    error's [message], the error itself when it is a string, or the
    generic text. *)
Theorem handleErrors_uniform_error (err : value) (target : PromQueryRequest) :
  nullish err = false ->
  truthy (prop err "cancelled") = false ->
  exists message,
    handleErrors err target =
    Throw (VObj [("message", message);
                 ("refId", VStr (query_refId target));
                 ("status", prop err "status");
                 ("statusText", prop err "statusText")]) /\
    (message = prop err "data" \/
     message = VStr (safeStringifyValue (prop (prop err "data") "error")) \/
     message = prop err "message" \/
     message = err \/
     message = VStr "Unknown error during query transaction. Please check JS console logs.").
Proof.
  intros Hnull Hcancelled. unfold handleErrors. rewrite Hnull, Hcancelled.
  eexists. split; [reflexivity |].
  destruct (truthy (prop err "data")) eqn:Hdata.
  - destruct (prop err "data") eqn:Edata; cbn in Hdata; try discriminate.
    + destruct (truthy (prop (VBool b) "error")); auto.
    + destruct (truthy (prop (VNum n) "error")); auto.
    + auto.
    + destruct (truthy (prop (VArr items) "error")); auto.
    + destruct (truthy (prop (VObj props) "error")); auto.
  - destruct (truthy (prop err "message")); [auto |].
    destruct err; auto 6.
Qed.

(** C6. A non-cancelled error without [data], without [message] and which
    is not a string is answered with the generic message. *)
Theorem handleErrors_unknown_error (err : value) (target : PromQueryRequest) :
  nullish err = false ->
  truthy (prop err "cancelled") = false ->
  prop err "data" = VUndefined ->
  prop err "message" = VUndefined ->
  (forall s : string, err <> VStr s) ->
  exists thrown,
    handleErrors err target = Throw thrown /\
    prop thrown "message" =
    VStr "Unknown error during query transaction. Please check JS console logs.".
Proof.
  intros Hnull Hcancelled Hdata Hmessage Hstring.
  unfold handleErrors. rewrite Hnull, Hcancelled, Hdata, Hmessage. cbn [truthy].
  eexists. split; [reflexivity |].
  destruct err; try reflexivity.
  exfalso. eapply Hstring. reflexivity.
Qed.

End Errors.

Lemma cancelled_is_no_error_witness :
  truthy (prop (VObj [("cancelled", VBool true)]) "cancelled") = true /\
  handleErrors (host := cancellingHost)
    (VObj [("cancelled", VBool true)]) exampleQuery
  = Normal (VObj [("cancelled", VBool true)]).
Proof.
  split; [reflexivity |].
  apply (cancelled_is_no_error (host := cancellingHost)
           (VObj [("cancelled", VBool true)]) exampleQuery).
  reflexivity.
Defined.

Lemma handleErrors_uniform_error_witness :
  nullish (VObj [("status", VNum 500); ("statusText", VStr "Internal Server Error")]) = false /\
  truthy (prop (VObj [("status", VNum 500); ("statusText", VStr "Internal Server Error")])
            "cancelled") = false /\
  exists message,
    handleErrors (host := exampleHost)
      (VObj [("status", VNum 500); ("statusText", VStr "Internal Server Error")])
      exampleQuery
    = Throw (VObj [("message", message);
                   ("refId", VStr "A");
                   ("status", VNum 500);
                   ("statusText", VStr "Internal Server Error")]).
Proof.
  split; [reflexivity |]. split; [reflexivity |].
  destruct (handleErrors_uniform_error (host := exampleHost)
              (VObj [("status", VNum 500); ("statusText", VStr "Internal Server Error")])
              exampleQuery eq_refl eq_refl) as [message [Hthrown _]].
  exists message. exact Hthrown.
Defined.

(** C5, as written, fails: the query of the example has the request id
    [1A] and the ref id [A]; the object thrown for it has no [requestId],
    no property of it holds the request id, and its [refId] is [A]. *)
Lemma handleErrors_carries_no_requestId :
  query_requestId exampleQuery = "1A" /\
  exists thrown,
    handleErrors (host := exampleHost) (VObj [("status", VNum 500)]) exampleQuery
    = Throw thrown /\
    prop thrown "requestId" = VUndefined /\
    prop thrown "refId" = VStr "A" /\
    forall k : string, prop thrown k <> VStr (query_requestId exampleQuery).
Proof.
  split; [reflexivity |].
  eexists. split; [reflexivity |]. split; [reflexivity |]. split; [reflexivity |].
  intros k. cbn.
  repeat (match goal with |- context [String.eqb k ?name] => destruct (String.eqb k name) end;
          cbn; try discriminate).
Qed.

Lemma handleErrors_unknown_error_witness :
  nullish (VObj [("status", VNum 502)]) = false /\
  truthy (prop (VObj [("status", VNum 502)]) "cancelled") = false /\
  prop (VObj [("status", VNum 502)]) "data" = VUndefined /\
  prop (VObj [("status", VNum 502)]) "message" = VUndefined /\
  (forall s : string, VObj [("status", VNum 502)] <> VStr s) /\
  exists thrown,
    handleErrors (host := exampleHost) (VObj [("status", VNum 502)]) exampleQuery
    = Throw thrown /\
    prop thrown "message" =
    VStr "Unknown error during query transaction. Please check JS console logs.".
Proof.
  assert (forall s : string, VObj [("status", VNum 502)] <> VStr s) as Hstring
    by (intros s; discriminate).
  repeat (split; [first [reflexivity | exact Hstring] |]).
  exact (handleErrors_unknown_error (host := exampleHost)
           (VObj [("status", VNum 502)]) exampleQuery
           eq_refl eq_refl eq_refl eq_refl Hstring).
Defined.

(** ** Requests *)

Section Requests.

Context `{host : !Services}.

(** What [_request] hands to the backend, and what it leaves in the world. *)
Lemma _request_sends (ds : PrometheusDatasource) (url : string)
    (data : option (list (string * value))) (options : option requestOptions) (w : world) :
  exists sent : httpOptions,
    _request ds url data options w =
    (fst (backendSrv_datasourceRequest w sent),
     {| requests := requests w ++ [sent];
        now := now w + snd (backendSrv_datasourceRequest w sent);
        metricsNameCache := metricsNameCache w;
        observed := observed w |}) /\
    http_method sent = default (ds_httpMethod ds) (options ≫= ro_method) /\
    (if String.eqb (http_method sent) "GET"
     then http_url sent =
          (if isEmpty data then ds_url ds +:+ url
           else (ds_url ds +:+ url) +:+ "?" +:+ join "&" (map encodeParam (default [] data))) /\
          http_data sent = None
     else http_url sent = ds_url ds +:+ url /\ http_data sent = data).
Proof.
  unfold _request, datasourceRequest.
  match goal with
  | |- context [backendSrv_datasourceRequest w ?o] => exists o
  end.
  split.
  - destruct (backendSrv_datasourceRequest w _) as [settled elapsed].
    reflexivity.
  - cbn [http_method http_url http_data]. split.
    + destruct options as [options |]; reflexivity.
    + destruct (String.eqb _ "GET") eqn:Hget.
      * split; [| reflexivity]. cbn [andb]. destruct (isEmpty data); reflexivity.
      * split; reflexivity.
Qed.

(** C7. A call of [performTimeSeriesQuery] with [start > end] throws and
    sends nothing. Every other call sends one request, to
    [/api/v1/query_range], whose parameters are [query], [start], [end] and
    [step], followed by [timeout] exactly when the datasource has a query
    timeout, and no other: for GET they make up the query string, each as
    [encodeURIComponent(name)=encodeURIComponent(value)], joined by [&];
    otherwise they are the request data, and the url has no query
    string. *)
Theorem performTimeSeriesQuery_parameters (ds : PrometheusDatasource)
    (query : PromQueryRequest) (start end' : Q) (w : world) :
  let outcome := performTimeSeriesQuery ds query start end' w in
  let parameter (name : string) (v : value) : string :=
    encodeURIComponent name +:+ "=" +:+ encodeURIComponent (ToString v) in
  if gt start end'
  then outcome = (Throw (VObj [("message", VStr "Invalid time range")]), w)
  else
    exists sent : httpOptions,
      requests (snd outcome) = requests w ++ [sent] /\
      http_method sent = ds_httpMethod ds /\
      if String.eqb (ds_httpMethod ds) "GET"
      then http_data sent = None /\
           http_url sent =
             (ds_url ds +:+ "/api/v1/query_range") +:+ "?" +:+
             parameter "query" (VStr (query_expr query)) +:+ "&" +:+
             parameter "start" (VNum start) +:+ "&" +:+
             parameter "end" (VNum end') +:+ "&" +:+
             (if truthy (ds_queryTimeout ds)
              then parameter "step" (VNum (query_step query)) +:+ "&" +:+
                   parameter "timeout" (ds_queryTimeout ds)
              else parameter "step" (VNum (query_step query)))
      else http_url sent = ds_url ds +:+ "/api/v1/query_range" /\
           http_data sent =
             Some (if truthy (ds_queryTimeout ds)
                   then [("query", VStr (query_expr query)); ("start", VNum start);
                         ("end", VNum end'); ("step", VNum (query_step query));
                         ("timeout", ds_queryTimeout ds)]
                   else [("query", VStr (query_expr query)); ("start", VNum start);
                         ("end", VNum end'); ("step", VNum (query_step query))]).
Proof.
  intros outcome parameter. subst outcome parameter.
  unfold performTimeSeriesQuery.
  destruct (gt start end'); [reflexivity |].
  unfold _request, datasourceRequest, mbind, M_bind, mret, M_ret.
  cbn [default from_option id ro_method ro_headers ro_requestId ro_silent].
  match goal with
  | |- context [backendSrv_datasourceRequest w ?o] =>
      exists o; destruct (backendSrv_datasourceRequest w o) as [settled elapsed]
  end.
  cbn [snd requests http_method http_url http_data].
  split; [reflexivity |]. split; [reflexivity |].
  unfold timeoutParam, encodeParam.
  destruct (String.eqb (ds_httpMethod ds) "GET");
    destruct (truthy (ds_queryTimeout ds)); split; reflexivity.
Qed.

(** With every target skipped, [prepareTargets] leaves the queries as they
    were. *)
Lemma prepareTargets_loop_skipped (ds : PrometheusDatasource) (options : DataQueryRequest)
    (start end' : Q) (todo : list PromQuery) (acc : PreparedTargets) :
  Forall (fun target => skipped target = true) todo ->
  queries (prepareTargets_loop ds options start end' todo acc) = queries acc.
Proof.
  intros Hskipped. revert acc.
  induction Hskipped as [| target rest Htarget _ IH]; intros acc.
  - reflexivity.
  - cbn [prepareTargets_loop]. rewrite Htarget. rewrite IH. reflexivity.
Qed.

Lemma skipped_true (target : PromQuery) :
  skipped target = true <->
  falsy_string (target_expr target) = true \/ target_hide target = Some true.
Proof.
  unfold skipped. rewrite orb_true_iff, bool_decide_eq_true. reflexivity.
Qed.

(** C9. When every target has an empty (or no) expression or is hidden,
    [query] resolves to [{ data: [] }] and leaves the world as it found
    it: no request is handed to the backend. *)
Theorem query_without_active_targets (ds : PrometheusDatasource)
    (options : DataQueryRequest) (hasObserver : bool) (w : world) :
  Forall (fun target =>
            falsy_string (target_expr target) = true \/ target_hide target = Some true)
         (options_targets options) ->
  query ds options hasObserver w = (Normal (Resolved {| data := [] |}), w) /\
  requests (snd (query ds options hasObserver w)) = requests w.
Proof.
  intros Htargets.
  assert (query ds options hasObserver w = (Normal (Resolved {| data := [] |}), w)) as Hquery.
  { unfold query, prepareTargets.
    rewrite prepareTargets_loop_skipped.
    - reflexivity.
    - eapply Forall_impl; [exact Htargets |].
      intros target Htarget. apply skipped_true. exact Htarget. }
  split; [exact Hquery |]. rewrite Hquery. reflexivity.
Qed.

End Requests.

(** ** The metric-name cache *)

Section Cache.

Context `{host : !Services}.

Lemma performSuggestQuery_fresh (ds : PrometheusDatasource) (query : string) (w : world)
    (cached : MetricsNameCache) :
  metricsNameCache w = Some cached ->
  now w < cache_expire cached ->
  performSuggestQuery ds query true w =
  (match lodash_filter (cache_data cached) (metricNameFilter query) with
   | Normal found => Normal (Resolved found)
   | Throw e => Throw e
   end, w).
Proof.
  intros Hcache Hfresh. unfold performSuggestQuery. rewrite Hcache.
  apply gt_true in Hfresh. rewrite Hfresh. reflexivity.
Qed.

Lemma performSuggestQuery_fetch (ds : PrometheusDatasource) (query : string) (cache : bool)
    (w : world) :
  ~ (cache = true /\ cacheIsFresh w) ->
  exists sent : httpOptions,
    http_url sent = ds_url ds +:+ "/api/v1/label/__name__/values" /\
    http_method sent = "GET" /\
    requests (snd (performSuggestQuery ds query cache w)) = requests w ++ [sent] /\
    now (snd (performSuggestQuery ds query cache w))
    = now w + snd (backendSrv_datasourceRequest w sent) /\
    match fst (backendSrv_datasourceRequest w sent) with
    | Rejected e =>
        fst (performSuggestQuery ds query cache w) = Normal (Rejected e) /\
        metricsNameCache (snd (performSuggestQuery ds query cache w)) = metricsNameCache w
    | Resolved result =>
        if nullish result || nullish (prop result "data")
        then fst (performSuggestQuery ds query cache w) = Normal (Rejected TypeError) /\
             metricsNameCache (snd (performSuggestQuery ds query cache w))
             = metricsNameCache w
        else metricsNameCache (snd (performSuggestQuery ds query cache w)) =
             Some {| cache_data := prop (prop result "data") "data";
                     cache_expire :=
                       now (snd (performSuggestQuery ds query cache w)) + 60 * 1000 |}
    end.
Proof.
  intros Hstale.
  destruct (_request_sends ds "/api/v1/label/__name__/values" None
              (Some {| ro_method := Some "GET"; ro_headers := None;
                       ro_requestId := None; ro_silent := true |}) w)
    as (sent & Hrun & Hmethod & Hsent).
  cbn in Hmethod. rewrite Hmethod in Hsent. cbn in Hsent. destruct Hsent as [Hurl _].
  exists sent. split; [exact Hurl |]. split; [exact Hmethod |].
  assert (performSuggestQuery ds query cache w =
          (result ← metadataRequest ds "/api/v1/label/__name__/values";
           match result with
           | Rejected e => mret (Normal (Rejected e))
           | Resolved result =>
               if nullish result || nullish (prop result "data")
               then mret (Normal (Rejected TypeError))
               else
                 let names := prop (prop result "data") "data" in
                 time ← Date_now;
                 _ ← setMetricsNameCache
                       {| cache_data := names; cache_expire := time + 60 * 1000 |};
                 mret (Normal
                         (match lodash_filter names (metricNameFilter query) with
                          | Normal found => Resolved found
                          | Throw e => Rejected e
                          end))
           end) w) as ->.
  { unfold performSuggestQuery. destruct cache; [| reflexivity].
    destruct (metricsNameCache w) as [cached |] eqn:Hcache; [| reflexivity].
    destruct (gt (cache_expire cached) (now w)) eqn:Hgt; [| reflexivity].
    exfalso. apply Hstale. split; [reflexivity |].
    exists cached. split; [exact Hcache | apply gt_true; exact Hgt]. }
  unfold mbind, M_bind, metadataRequest. rewrite Hrun.
  destruct (fst (backendSrv_datasourceRequest w sent)) as [result | e].
  - destruct (nullish result || nullish (prop result "data")).
    + cbn. auto.
    + cbn. auto.
  - cbn. auto.
Qed.

(** C8. With [cache = true], [performSuggestQuery] answers from the cache,
    handing nothing to the backend, exactly when a cache exists whose
    expire time is strictly after the current time. Otherwise it requests
    the metric names, and once they arrive it stores them as the new
    cache, whose expire time is the time of that moment plus 60 seconds. *)
Theorem performSuggestQuery_cache_expiry (ds : PrometheusDatasource) (query : string)
    (w : world) :
  let outcome := performSuggestQuery ds query true w in
  (cacheIsFresh w <-> requests (snd outcome) = requests w) /\
  (forall cached : MetricsNameCache,
     metricsNameCache w = Some cached ->
     now w < cache_expire cached ->
     outcome =
     (match lodash_filter (cache_data cached) (metricNameFilter query) with
      | Normal found => Normal (Resolved found)
      | Throw e => Throw e
      end, w)) /\
  (~ cacheIsFresh w ->
   exists sent : httpOptions,
     requests (snd outcome) = requests w ++ [sent] /\
     http_url sent = ds_url ds +:+ "/api/v1/label/__name__/values" /\
     http_method sent = "GET" /\
     now (snd outcome) = now w + snd (backendSrv_datasourceRequest w sent) /\
     forall result : value,
       fst (backendSrv_datasourceRequest w sent) = Resolved result ->
       nullish result || nullish (prop result "data") = false ->
       metricsNameCache (snd outcome) =
       Some {| cache_data := prop (prop result "data") "data";
               cache_expire := now (snd outcome) + 60 * 1000 |}).
Proof.
  intros outcome. subst outcome.
  assert (~ cacheIsFresh w ->
          exists sent : httpOptions,
            requests (snd (performSuggestQuery ds query true w)) = requests w ++ [sent] /\
            http_url sent = ds_url ds +:+ "/api/v1/label/__name__/values" /\
            http_method sent = "GET" /\
            now (snd (performSuggestQuery ds query true w))
            = now w + snd (backendSrv_datasourceRequest w sent) /\
            forall result : value,
              fst (backendSrv_datasourceRequest w sent) = Resolved result ->
              nullish result || nullish (prop result "data") = false ->
              metricsNameCache (snd (performSuggestQuery ds query true w)) =
              Some {| cache_data := prop (prop result "data") "data";
                      cache_expire :=
                        now (snd (performSuggestQuery ds query true w)) + 60 * 1000 |})
    as Hfetch.
  { intros Hstale.
    destruct (performSuggestQuery_fetch ds query true w)
      as (sent & Hurl & Hmethod & Hrequests & Hnow & Hsettled).
    { intros [_ Hfresh]. exact (Hstale Hfresh). }
    exists sent. repeat (split; [assumption |]).
    intros result Hresolved Hdata. rewrite Hresolved, Hdata in Hsettled.
    exact Hsettled. }
  split; [| split].
  - split.
    + intros (cached & Hcache & Hfresh).
      rewrite (performSuggestQuery_fresh ds query w cached Hcache Hfresh).
      reflexivity.
    + intros Hsame.
      destruct (metricsNameCache w) as [cached |] eqn:Hcache.
      * destruct (Qlt_le_dec (now w) (cache_expire cached)) as [Hfresh | Hexpired].
        -- exists cached. split; [exact Hcache | exact Hfresh].
        -- exfalso.
           destruct Hfetch as (sent & Hrequests & _).
           { intros (cached' & Hcache' & Hfresh'). rewrite Hcache in Hcache'.
             injection Hcache' as <-. lra. }
           rewrite Hrequests in Hsame. apply (f_equal length) in Hsame.
           rewrite length_app in Hsame. cbn in Hsame. lia.
      * exfalso.
        destruct Hfetch as (sent & Hrequests & _).
        { intros (cached' & Hcache' & _). rewrite Hcache in Hcache'. discriminate. }
        rewrite Hrequests in Hsame. apply (f_equal length) in Hsame.
        rewrite length_app in Hsame. cbn in Hsame. lia.
  - intros cached Hcache Hfresh.
    apply performSuggestQuery_fresh; assumption.
  - exact Hfetch.
Qed.

End Cache.

(** ** Annotation events *)

Section Annotations.

Context `{host : !Services}.

Lemma elem_of_freshTimes (seen : gmap integer bool) (ts : list integer) (t : integer) :
  t ∈ freshTimes seen ts <-> t ∈ ts /\ seen !! t <> Some true.
Proof.
  revert seen. induction ts as [| x rest IH]; intros seen; cbn [freshTimes].
  - rewrite !elem_of_nil. tauto.
  - case_bool_decide as Hseen.
    + rewrite IH, elem_of_cons. split.
      * intros [Hin Hfresh]. auto.
      * intros [[-> | Hin] Hfresh]; [contradiction | auto].
    + rewrite !elem_of_cons, IH. split.
      * intros [-> | [Hin Hfresh]]; [auto |].
        split; [auto |]. intros Ht. apply Hfresh.
        destruct (decide (x = t)) as [-> | Hne].
        -- apply lookup_insert_eq.
        -- rewrite lookup_insert_ne by exact Hne. exact Ht.
      * intros [[-> | Hin] Hfresh]; [auto |].
        destruct (decide (x = t)) as [-> | Hne]; [auto |].
        right. split; [exact Hin |].
        rewrite lookup_insert_ne by exact Hne. exact Hfresh.
Qed.

Lemma NoDup_freshTimes (seen : gmap integer bool) (ts : list integer) :
  NoDup (freshTimes seen ts).
Proof.
  revert seen. induction ts as [| x rest IH]; intros seen; cbn [freshTimes].
  - constructor.
  - case_bool_decide as Hseen; [apply IH |].
    constructor; [| apply IH].
    rewrite elem_of_freshTimes. intros [_ Hfresh]. apply Hfresh.
    apply lookup_insert_eq.
Qed.

(** A timestamp that occurred before, or is marked, changes nothing. *)
Lemma freshTimes_repeated (seen : gmap integer bool) (before after : list integer)
    (t : integer) :
  t ∈ before \/ seen !! t = Some true ->
  freshTimes seen (before ++ t :: after) = freshTimes seen (before ++ after).
Proof.
  revert seen. induction before as [| x rest IH]; intros seen Hseen.
  - destruct Hseen as [Hin | Hmarked]; [apply elem_of_nil in Hin; contradiction |].
    cbn. rewrite bool_decide_eq_true_2 by exact Hmarked. reflexivity.
  - cbn. case_bool_decide as Hx.
    + apply IH. destruct Hseen as [Hin | Hmarked]; [| auto].
      apply elem_of_cons in Hin. destruct Hin as [-> | Hin]; auto.
    + f_equal. apply IH. destruct Hseen as [Hin | Hmarked].
      * apply elem_of_cons in Hin. destruct Hin as [-> | Hin]; [| auto].
        right. apply lookup_insert_eq.
      * right. destruct (decide (x = t)) as [-> | Hne].
        -- apply lookup_insert_eq.
        -- rewrite lookup_insert_ne by exact Hne. exact Hmarked.
Qed.

Lemma seriesEvents_useValueForTime (annotation : Annotation) (titleFormat textFormat : string)
    (tags : list string) (metric : list (string * string)) (values : list (Q * string))
    (dupCheck : gmap integer bool) (eventList : list AnnotationEvent) :
  truthy (annotation_useValueForTime annotation) = true ->
  seriesEvents annotation titleFormat textFormat tags metric values dupCheck eventList =
  eventList ++
  map (eventAt annotation titleFormat textFormat tags metric)
      (freshTimes dupCheck (seriesTimes values)).
Proof.
  intros Huse. revert dupCheck eventList.
  induction values as [| v rest IH]; intros dupCheck eventList.
  - cbn. rewrite app_nil_r. reflexivity.
  - cbn [seriesEvents seriesTimes map freshTimes]. rewrite Huse, orb_true_r.
    case_bool_decide as Hseen.
    + apply IH.
    + rewrite IH. cbn [map]. rewrite <- app_assoc. reflexivity.
Qed.

Lemma eachSeries_useValueForTime (annotation : Annotation) (titleFormat textFormat : string)
    (tagKeys : list string) (result : list Series) (eventList : list AnnotationEvent) :
  truthy (annotation_useValueForTime annotation) = true ->
  eachSeries annotation titleFormat textFormat tagKeys result eventList =
  eventList ++
  flat_map
    (fun series =>
       map (eventAt annotation titleFormat textFormat
              (eventTags tagKeys (series_metric series)) (series_metric series))
           (freshTimes ∅ (seriesTimes (series_values series))))
    result.
Proof.
  intros Huse. revert eventList.
  induction result as [| series rest IH]; intros eventList.
  - cbn. rewrite app_nil_r. reflexivity.
  - cbn [eachSeries flat_map]. rewrite IH.
    rewrite seriesEvents_useValueForTime by exact Huse.
    rewrite <- app_assoc. reflexivity.
Qed.

Lemma eventsAt_app (t : integer) (l1 l2 : list AnnotationEvent) :
  eventsAt t (l1 ++ l2) = (eventsAt t l1 + eventsAt t l2)%nat.
Proof.
  unfold eventsAt. rewrite List.filter_app, length_app. reflexivity.
Qed.

Lemma eventsAt_eventAt (annotation : Annotation) (titleFormat textFormat : string)
    (tags : list string) (metric : list (string * string)) (t : integer)
    (ts : list integer) :
  NoDup ts ->
  eventsAt t (map (eventAt annotation titleFormat textFormat tags metric) ts) =
  if bool_decide (t ∈ ts) then 1%nat else 0%nat.
Proof.
  unfold eventsAt. induction 1 as [| x rest Hx Hrest IH].
  - cbn. rewrite bool_decide_eq_false_2 by apply not_elem_of_nil. reflexivity.
  - cbn [map List.filter eventAt event_time].
    destruct (decide (x = t)) as [-> | Hne].
    + rewrite bool_decide_eq_true_2 by reflexivity. cbn [length].
      rewrite IH. rewrite (bool_decide_eq_false_2 (t ∈ rest)) by exact Hx.
      rewrite bool_decide_eq_true_2 by (apply elem_of_cons; auto). reflexivity.
    + rewrite bool_decide_eq_false_2 by exact Hne. rewrite IH.
      rewrite (bool_decide_ext (t ∈ x :: rest) (t ∈ rest)); [reflexivity |].
      rewrite elem_of_cons. split; [| auto].
      intros [-> | Hin]; [contradiction | exact Hin].
Qed.

Lemma eventsAt_flat_map (annotation : Annotation) (titleFormat textFormat : string)
    (tagKeys : list string) (result : list Series) (t : integer) :
  eventsAt t
    (flat_map
       (fun series =>
          map (eventAt annotation titleFormat textFormat
                 (eventTags tagKeys (series_metric series)) (series_metric series))
              (freshTimes ∅ (seriesTimes (series_values series))))
       result)
  = seriesWith t result.
Proof.
  unfold seriesWith. induction result as [| series rest IH].
  - reflexivity.
  - cbn [flat_map List.filter]. rewrite eventsAt_app, IH.
    rewrite eventsAt_eventAt by apply NoDup_freshTimes.
    rewrite (bool_decide_ext (t ∈ freshTimes ∅ (seriesTimes (series_values series)))
               (t ∈ seriesTimes (series_values series))).
    + destruct (bool_decide (t ∈ seriesTimes (series_values series))); reflexivity.
    + rewrite elem_of_freshTimes, lookup_empty. split; [tauto |].
      intros Hin. split; [exact Hin | discriminate].
Qed.

(** C3. With [useValueForTime] set, the number of events that carry a
    given floored timestamp is the number of series that have a sample
    with it: a series gives one event per distinct timestamp, and another
    series with the same timestamp gives its own. Within a series, a
    sample whose timestamp occurred before adds no event. *)
Theorem annotationQuery_one_event_per_series (annotation : Annotation) :
  truthy (annotation_useValueForTime annotation) = true ->
  (forall (result : list Series) (t : integer),
     eventsAt t (annotationEvents annotation result) = seriesWith t result) /\
  (forall (titleFormat textFormat : string) (tags : list string)
          (metric : list (string * string)) (before after : list (Q * string))
          (v : Q * string) (eventList : list AnnotationEvent),
     floor (parseFloat (snd v)) ∈ seriesTimes before ->
     seriesEvents annotation titleFormat textFormat tags metric
       (before ++ v :: after) ∅ eventList =
     seriesEvents annotation titleFormat textFormat tags metric
       (before ++ after) ∅ eventList).
Proof.
  intros Huse. split.
  - intros result t. unfold annotationEvents.
    rewrite eachSeries_useValueForTime by exact Huse.
    cbn [app]. apply eventsAt_flat_map.
  - intros titleFormat textFormat tags metric before after v eventList Hseen.
    rewrite !seriesEvents_useValueForTime by exact Huse.
    f_equal. f_equal. unfold seriesTimes. rewrite !map_app. cbn [map].
    apply freshTimes_repeated. left. exact Hseen.
Qed.

End Annotations.

Lemma annotationQuery_one_event_per_series_witness :
  truthy (annotation_useValueForTime exampleAnnotation) = true /\
  forall (result : list Series) (t : integer),
    eventsAt t (annotationEvents (host := exampleHost) exampleAnnotation result)
    = seriesWith (host := exampleHost) t result.
Proof.
  split; [reflexivity |].
  apply (annotationQuery_one_event_per_series (host := exampleHost) exampleAnnotation).
  reflexivity.
Defined.

(** Two series with the samples 12, 13, 12, x and 12: the repeated 12 of
    the first series is dropped, the 12 of the second is kept. *)
Example annotationQuery_two_series :
  map event_time
    (annotationEvents (host := exampleHost) exampleAnnotation
       [{| series_metric := [("alertname", "HighLoad"); ("job", "node")];
           series_values := [(1, "12"); (2, "13"); (3, "12"); (4, "x")] |};
        {| series_metric := [("alertname", "HighLoad"); ("job", "db")];
           series_values := [(1, "12")] |}])
  = [Int 12; Int 13; IntNaN; Int 12].
Proof. vm_compute. reflexivity. Qed.

(** ** A backend that cancels *)

Section Cancelled.

Context `{host : !Services}.

(** Every request is cancelled. *)
Hypothesis backend_cancels :
  forall (w : world) (sent : httpOptions),
  exists err : value,
    fst (backendSrv_datasourceRequest w sent) = Rejected err /\
    truthy (prop err "cancelled") = true.

Lemma performQuery_cancelled (ds : PrometheusDatasource) (end' : Q)
    (query : PromQueryRequest) (w : world) :
  fst (performQuery ds end' query w) = Throw (VObj [("message", VStr "Invalid time range")]) \/
  exists settled, fst (performQuery ds end' query w) = Normal settled /\
                  cancelledResponse settled.
Proof.
  unfold performQuery, performInstantQuery, performTimeSeriesQuery.
  assert (forall url data options,
            exists settled,
              fst ((settled ← _request ds url data options;
                    mret (Normal (catch settled (fun err => handleErrors err query)))) w)
              = Normal settled /\ cancelledResponse settled) as Hsent.
  { intros url data options.
    destruct (_request_sends ds url data options w) as (sent & Hrun & _).
    destruct (backend_cancels w sent) as (err & Hrejected & Hcancelled).
    unfold mbind, M_bind, mret, M_ret. rewrite Hrun, Hrejected. cbn [fst].
    eexists. split; [reflexivity |].
    exists err. split; [| exact Hcancelled].
    unfold catch. rewrite (handleErrors_cancelled err query Hcancelled). reflexivity. }
  case_bool_decide.
  - right. apply Hsent.
  - destruct (gt (query_start query) (query_end query)).
    + left. reflexivity.
    + right. apply Hsent.
Qed.

Lemma allQueryPromise_cancelled (ds : PrometheusDatasource) (end' : Q)
    (queries : list PromQueryRequest) (w : world) :
  fst (allQueryPromise ds end' queries w)
  = Throw (VObj [("message", VStr "Invalid time range")]) \/
  exists promises, fst (allQueryPromise ds end' queries w) = Normal promises /\
                   Forall cancelledResponse promises.
Proof.
  revert w. induction queries as [| query rest IH]; intros w.
  - right. exists []. split; [reflexivity | constructor].
  - cbn [allQueryPromise]. unfold mbind, M_bind.
    pose proof (performQuery_cancelled ds end' query w) as Hfirst.
    destruct (performQuery ds end' query w) as [first w1]. cbn [fst] in Hfirst.
    destruct Hfirst as [-> | (settled & -> & Hsettled)].
    + left. reflexivity.
    + specialize (IH w1).
      destruct (allQueryPromise ds end' rest w1) as [others w2]. cbn [fst] in IH.
      destruct IH as [-> | (promises & -> & Hpromises)].
      * left. reflexivity.
      * right. exists (settled :: promises). split; [reflexivity |].
        constructor; assumption.
Qed.

Lemma all_cancelled (promises : list (promise value)) :
  Forall cancelledResponse promises ->
  exists responseList,
    all promises = Resolved responseList /\
    Forall (fun response => truthy (prop response "cancelled") = true) responseList.
Proof.
  induction 1 as [| settled rest (err & -> & Hcancelled) _ (responseList & Hall & Hrest)].
  - exists []. split; [reflexivity | constructor].
  - exists (err :: responseList). cbn [all]. rewrite Hall.
    split; [reflexivity | constructor; assumption].
Qed.

Lemma eachResponse_cancelled (queries : list PromQueryRequest)
    (activeTargets : list PromQuery) (responseList : list value) (index : nat)
    (result : list value) :
  Forall (fun response => truthy (prop response "cancelled") = true) responseList ->
  eachResponse queries activeTargets responseList index result = Normal result.
Proof.
  intros Hcancelled. revert index.
  induction Hcancelled as [| response rest Hresponse _ IH]; intros index.
  - reflexivity.
  - cbn [eachResponse].
    rewrite (cancelled_not_nullish response Hresponse), Hresponse. apply IH.
Qed.

(** When the backend cancels every request, [query] without an observer
    resolves to no series at all (unless the range is invalid, which is
    thrown before any response is looked at). *)
Lemma query_cancelled_requests (ds : PrometheusDatasource) (options : DataQueryRequest)
    (w : world) :
  fst (query ds options false w) = Normal (Resolved {| data := [] |}) \/
  fst (query ds options false w) = Throw (VObj [("message", VStr "Invalid time range")]).
Proof.
  unfold query. case_bool_decide as Hempty; [left; reflexivity |].
  cbn [andb]. unfold mbind, M_bind.
  match goal with
  | |- context [allQueryPromise ds ?e ?qs w] =>
      pose proof (allQueryPromise_cancelled ds e qs w) as Hall;
      destruct (allQueryPromise ds e qs w) as [promises w']
  end.
  cbn [fst] in Hall. destruct Hall as [-> | (settled & -> & Hsettled)].
  - right. reflexivity.
  - left. cbn [mret M_ret fst].
    destruct (all_cancelled settled Hsettled) as (responseList & -> & Hresponses).
    cbn [then_]. rewrite eachResponse_cancelled by exact Hresponses. reflexivity.
Qed.

End Cancelled.

(** ** The statements above on the example host *)

Example performTimeSeriesQuery_example :
  map http_url
    (requests
       (snd (performTimeSeriesQuery (host := exampleHost) exampleDatasource exampleQuery
               0 3600 exampleWorld)))
  = ["/api/datasources/proxy/1/api/v1/query_range?query=up&start=0&end=3600&step=15&timeout=30s"].
Proof. vm_compute. reflexivity. Qed.

Lemma query_without_active_targets_witness :
  Forall (fun target =>
            falsy_string (target_expr target) = true \/ target_hide target = Some true)
         (options_targets (exampleOptions [exampleTarget "" false; exampleTarget "up" true])) /\
  query (host := exampleHost) exampleDatasource
    (exampleOptions [exampleTarget "" false; exampleTarget "up" true]) false exampleWorld
  = (Normal (Resolved {| data := [] |}), exampleWorld).
Proof.
  assert (Forall (fun target =>
                    falsy_string (target_expr target) = true \/ target_hide target = Some true)
                 (options_targets
                    (exampleOptions [exampleTarget "" false; exampleTarget "up" true])))
    as Htargets.
  { constructor; [left; reflexivity |].
    constructor; [right; reflexivity | constructor]. }
  split; [exact Htargets |].
  apply (query_without_active_targets (host := exampleHost) exampleDatasource
           (exampleOptions [exampleTarget "" false; exampleTarget "up" true])
           false exampleWorld Htargets).
Defined.

Lemma performSuggestQuery_cache_expiry_witness :
  ~ cacheIsFresh exampleWorld /\
  exists sent : httpOptions,
    requests (snd (performSuggestQuery (host := exampleHost) exampleDatasource "up" true
                     exampleWorld)) = [sent] /\
    metricsNameCache (snd (performSuggestQuery (host := exampleHost) exampleDatasource "up"
                             true exampleWorld)) =
    Some {| cache_data := VArr [VStr "up"; VStr "node_load1"];
            cache_expire :=
              now (snd (performSuggestQuery (host := exampleHost) exampleDatasource "up"
                          true exampleWorld)) + 60 * 1000 |}.
Proof.
  assert (~ cacheIsFresh exampleWorld) as Hstale.
  { intros (cached & Hcache & _). discriminate Hcache. }
  split; [exact Hstale |].
  destruct (performSuggestQuery_cache_expiry (host := exampleHost) exampleDatasource "up"
              exampleWorld) as (_ & _ & Hfetch).
  destruct (Hfetch Hstale) as (sent & Hrequests & _ & _ & _ & Hcache).
  exists sent. split; [exact Hrequests |].
  exact (Hcache _ eq_refl eq_refl).
Defined.

(** A cancelled query gives neither series nor error; a failed one
    rejects the whole query. *)
Example query_cancelled_example :
  fst (query (host := cancellingHost) exampleDatasource
         (exampleOptions [exampleTarget "up" false]) false exampleWorld)
  = Normal (Resolved {| data := [] |}).
Proof. vm_compute. reflexivity. Qed.

Example query_failed_example :
  fst (query (host := exampleServices (fun _ _ => (Rejected (VObj [("status", VNum 500)]), 0)))
         exampleDatasource (exampleOptions [exampleTarget "up" false]) false exampleWorld)
  = Normal
      (Rejected
         (VObj [("message",
                 VStr "Unknown error during query transaction. Please check JS console logs.");
                ("refId", VStr "A");
                ("status", VNum 500);
                ("statusText", VUndefined)])).
Proof. vm_compute. reflexivity. Qed.

(** * Further properties *)

(** ** The aligned window *)

Lemma floor_step_monotone (x y step : Q) :
  0 < step -> x <= y -> Math_floor (x / step) * step <= Math_floor (y / step) * step.
Proof.
  intros Hstep Hxy. unfold Math_floor.
  apply Qmult_le_compat_r; [| lra].
  rewrite <- Zle_Qle. apply Qfloor_resp_le.
  unfold Qdiv. apply Qmult_le_compat_r; [exact Hxy |].
  apply Qinv_le_0_compat. lra.
Qed.

Lemma floor_step_lower (x step : Q) :
  0 < step -> x - step < Math_floor (x / step) * step.
Proof.
  intros Hstep. unfold Math_floor.
  pose proof (Qlt_floor (x / step)) as Hlt.
  rewrite inject_Z_plus in Hlt.
  assert (x / step * step == x) as Hx by (field; lra).
  assert (x / step * step < (inject_Z (Qfloor (x / step)) + inject_Z 1) * step) as Hmul.
  { apply Qmult_lt_compat_r; assumption. }
  rewrite Hx in Hmul.
  assert ((inject_Z (Qfloor (x / step)) + inject_Z 1) * step
          == inject_Z (Qfloor (x / step)) * step + step) as Hexpand by ring.
  rewrite Hexpand in Hmul. lra.
Qed.

Lemma floor_step_upper (x step : Q) :
  0 < step -> Math_floor (x / step) * step <= x.
Proof.
  intros Hstep. apply (floor_largest_multiple x step Hstep).
Qed.

Lemma floor_of_multiple (k : Z) (step : Q) :
  0 < step -> Math_floor (inject_Z k * step / step) == inject_Z k.
Proof.
  intros Hstep. unfold Math_floor.
  assert (inject_Z k * step / step == inject_Z k) as Hk by (field; lra).
  rewrite (Qfloor_comp _ _ Hk), Qfloor_Z. reflexivity.
Qed.

(** X1. [alignRange] keeps the order of the range: for a positive step
    and start <= end, the aligned start is at most the aligned end. *)
Theorem alignRange_keeps_order (start end' step : Q) :
  0 < step -> start <= end' ->
  aligned_start (alignRange start end' step) <= aligned_end (alignRange start end' step).
Proof.
  intros Hstep Horder. unfold alignRange. cbn [aligned_start aligned_end].
  apply floor_step_monotone; assumption.
Qed.

Lemma alignRange_keeps_order_witness :
  0 < 15 /\ 100 <= 130 /\
  aligned_start (alignRange 100 130 15) <= aligned_end (alignRange 100 130 15).
Proof.
  assert (0 < 15) as Hstep by reflexivity.
  assert (100 <= 130) as Horder by (vm_compute; discriminate).
  split; [exact Hstep |]. split; [exact Horder |].
  exact (alignRange_keeps_order 100 130 15 Hstep Horder).
Defined.

(** X2. Aligning is idempotent on integers: for an integer start and end
    and a positive integer step (|start| + step and |end| + step at most
    2^53), a range that [alignRange] returned is returned unchanged when
    aligned again with the same step, whatever the correct rounding of
    the division and the product. With a step that is no integer the
    second alignment can move the range once more (see
    [alignRange_binary64_twice]). *)
Theorem alignRange_idempotent (round : Q -> Q) (start end' step : Z) :
  correctly_rounded round ->
  (0 < step)%Z ->
  (Z.abs start + step <= 2 ^ 53)%Z -> (Z.abs end' + step <= 2 ^ 53)%Z ->
  let aligned := alignRange_rounded round (inject_Z start) (inject_Z end') (inject_Z step) in
  aligned_start
    (alignRange_rounded round (aligned_start aligned) (aligned_end aligned) (inject_Z step))
  == aligned_start aligned /\
  aligned_end
    (alignRange_rounded round (aligned_start aligned) (aligned_end aligned) (inject_Z step))
  == aligned_end aligned.
Proof.
  intros Hround Hstep Hstart Hend aligned. subst aligned.
  pose proof (inject_Z_positive step Hstep) as Hpos.
  destruct (alignRange_rounded_integers round Hround start end' step Hstep Hstart Hend)
    as [Hs He].
  assert (forall (a : Z) (x : Q),
            (Z.abs a + step <= 2 ^ 53)%Z -> x == inject_Z (a / step * step) ->
            round (Math_floor (round (x / inject_Z step)) * inject_Z step) == x) as Hagain.
  { intros a x Ha Hx.
    pose proof (Z.mod_pos_bound a step Hstep). pose proof (Z.div_mod a step ltac:(lia)).
    assert (a / step * step = a - a mod step)%Z as Hvalue by (rewrite Z.mul_comm; lia).
    assert (Z.abs (a / step) <= 2 ^ 53)%Z as Hk by nia.
    assert (x / inject_Z step == inject_Z (a / step)) as Hquotient.
    { rewrite Hx, inject_Z_mult. field. lra. }
    assert (round (x / inject_Z step) == inject_Z (a / step)) as Hrounded.
    { rewrite (round_compatible round Hround _ _ Hquotient).
      apply (round_integer round Hround). exact Hk. }
    unfold Math_floor. rewrite (Qfloor_comp _ _ Hrounded), Qfloor_Z.
    assert (inject_Z (a / step) * inject_Z step == inject_Z (a / step * step)) as Hproduct
      by (rewrite inject_Z_mult; reflexivity).
    rewrite (round_compatible round Hround _ _ Hproduct), Hx.
    apply (round_integer round Hround). lia. }
  unfold alignRange_rounded in *. cbn [aligned_start aligned_end] in *.
  split; [exact (Hagain start _ Hstart Hs) | exact (Hagain end' _ Hend He)].
Qed.

Lemma alignRange_idempotent_witness :
  correctly_rounded binary64 /\
  (0 < 15)%Z /\ (Z.abs 100 + 15 <= 2 ^ 53)%Z /\ (Z.abs 130 + 15 <= 2 ^ 53)%Z /\
  aligned_start
    (alignRange_rounded binary64
       (aligned_start (alignRange_rounded binary64 100 130 15))
       (aligned_end (alignRange_rounded binary64 100 130 15)) 15)
  == aligned_start (alignRange_rounded binary64 100 130 15).
Proof.
  split; [exact binary64_correctly_rounded |].
  assert (0 < 15)%Z as Hstep by reflexivity.
  assert (Z.abs 100 + 15 <= 2 ^ 53)%Z as Hstart by (vm_compute; discriminate).
  assert (Z.abs 130 + 15 <= 2 ^ 53)%Z as Hend by (vm_compute; discriminate).
  repeat (split; [assumption |]).
  exact (proj1 (alignRange_idempotent binary64 100 130 15 binary64_correctly_rounded
                  Hstep Hstart Hend)).
Defined.

(** On doubles, with the step 1.1: 17 is aligned to 16.5, and 16.5 to
    15.400000000000002. *)
Example alignRange_binary64_twice :
  Binary64.aligned_start (Binary64.alignRange 17 17 1.1) = 16.5%float /\
  Binary64.aligned_start (Binary64.alignRange 16.5 16.5 1.1) = 15.400000000000002%float.
Proof.
  split; vm_compute; reflexivity.
Qed.

(** The same with the rounding on rationals. *)
Example alignRange_rounded_twice :
  aligned_start (alignRange_rounded binary64 17 17 (binary64 (11 # 10))) == 33 # 2 /\
  aligned_start (alignRange_rounded binary64 (33 # 2) (33 # 2) (binary64 (11 # 10)))
  == Binary64.exact 15.400000000000002.
Proof.
  split; vm_compute; reflexivity.
Qed.

(** X3. Aligning loses less than one step: for an integer start and end
    and a positive integer step (|start| + step and |end| + step at most
    2^53), the aligned start lies in (start - step, start] and the
    aligned end in (end - step, end], whatever the correct rounding of
    the division and the product. *)
Theorem alignRange_within_one_step (round : Q -> Q) (start end' step : Z) :
  correctly_rounded round ->
  (0 < step)%Z ->
  (Z.abs start + step <= 2 ^ 53)%Z -> (Z.abs end' + step <= 2 ^ 53)%Z ->
  let aligned := alignRange_rounded round (inject_Z start) (inject_Z end') (inject_Z step) in
  (inject_Z start - inject_Z step < aligned_start aligned /\
   aligned_start aligned <= inject_Z start) /\
  (inject_Z end' - inject_Z step < aligned_end aligned /\
   aligned_end aligned <= inject_Z end').
Proof.
  intros Hround Hstep Hstart Hend aligned. subst aligned.
  pose proof (inject_Z_positive step Hstep) as Hpos.
  destruct (alignRange_rounded_integers round Hround start end' step Hstep Hstart Hend)
    as [-> ->].
  destruct (alignRange_of_integers start end' step Hstep) as [<- <-].
  unfold alignRange. cbn [aligned_start aligned_end].
  repeat split;
    first [apply floor_step_lower; assumption | apply floor_step_upper; assumption].
Qed.

Lemma alignRange_within_one_step_witness :
  correctly_rounded binary64 /\
  (0 < 15)%Z /\ (Z.abs 100 + 15 <= 2 ^ 53)%Z /\ (Z.abs 130 + 15 <= 2 ^ 53)%Z /\
  (100 - 15 < aligned_start (alignRange_rounded binary64 100 130 15) /\
   aligned_start (alignRange_rounded binary64 100 130 15) <= 100) /\
  (130 - 15 < aligned_end (alignRange_rounded binary64 100 130 15) /\
   aligned_end (alignRange_rounded binary64 100 130 15) <= 130).
Proof.
  split; [exact binary64_correctly_rounded |].
  assert (0 < 15)%Z as Hstep by reflexivity.
  assert (Z.abs 100 + 15 <= 2 ^ 53)%Z as Hstart by (vm_compute; discriminate).
  assert (Z.abs 130 + 15 <= 2 ^ 53)%Z as Hend by (vm_compute; discriminate).
  repeat (split; [assumption |]).
  exact (alignRange_within_one_step binary64 100 130 15 binary64_correctly_rounded
           Hstep Hstart Hend).
Defined.

(** ** The query built by [createQuery] *)

Section CreateQuery.

Context `{host : !Services}.

(** The step of the query is the adjusted interval of the request. *)
Lemma createQuery_step_adjusted (ds : PrometheusDatasource) (target : PromQuery)
    (options : DataQueryRequest) (start end' : Q) :
  query_step (createQuery ds target options start end')
  == adjustInterval
       (interval_to_seconds (options_interval options))
       (interval_to_seconds
          (or_string
             (templateSrv_replace (target_interval target) (options_scopedVars options) None)
             (options_interval options)))
       (Math_ceil (end' - start))
       (or_one (target_intervalFactor target)).
Proof.
  unfold createQuery. cbn [query_step].
  match goal with |- (if ?b then _ else _) == _ => destruct b eqn:Hne end.
  - reflexivity.
  - apply strict_ne_false in Hne. exact Hne.
Qed.

Lemma createQuery_step_positive (ds : PrometheusDatasource) (target : PromQuery)
    (options : DataQueryRequest) (start end' : Q) :
  1 <= query_step (createQuery ds target options start end').
Proof.
  rewrite createQuery_step_adjusted. apply adjustInterval_lower_bounds.
Qed.

Lemma createQuery_window (ds : PrometheusDatasource) (target : PromQuery)
    (options : DataQueryRequest) (start end' : Q) :
  query_start (createQuery ds target options start end')
  = Math_floor (start / query_step (createQuery ds target options start end'))
    * query_step (createQuery ds target options start end') /\
  query_end (createQuery ds target options start end')
  = Math_floor (end' / query_step (createQuery ds target options start end'))
    * query_step (createQuery ds target options start end').
Proof.
  split; reflexivity.
Qed.

Lemma createQuery_ordered (ds : PrometheusDatasource) (target : PromQuery)
    (options : DataQueryRequest) (start end' : Q) :
  start <= end' ->
  query_start (createQuery ds target options start end')
  <= query_end (createQuery ds target options start end').
Proof.
  intros Horder.
  destruct (createQuery_window ds target options start end') as [-> ->].
  apply floor_step_monotone; [| exact Horder].
  pose proof (createQuery_step_positive ds target options start end'). lra.
Qed.

(** A range query whose start does not exceed its end is sent. *)
Lemma performTimeSeriesQuery_sends (ds : PrometheusDatasource) (query : PromQueryRequest)
    (start end' : Q) (w : world) :
  start <= end' ->
  exists sent : httpOptions,
    performTimeSeriesQuery ds query start end' w =
    (Normal (catch (fst (backendSrv_datasourceRequest w sent))
               (fun err => handleErrors err query)),
     {| requests := requests w ++ [sent];
        now := now w + snd (backendSrv_datasourceRequest w sent);
        metricsNameCache := metricsNameCache w;
        observed := observed w |}).
Proof.
  intros Horder. unfold performTimeSeriesQuery.
  apply gt_false in Horder. rewrite Horder.
  match goal with
  | |- context [_request ds ?url ?data ?options] =>
      destruct (_request_sends ds url data options w) as (sent & Hrun & _)
  end.
  exists sent. unfold mbind, M_bind, mret, M_ret. rewrite Hrun. reflexivity.
Qed.

(** X4. A query built by [createQuery] from start <= end has
    [query.start <= query.end], so [performTimeSeriesQuery] on it never
    throws 'Invalid time range': it hands one request to the backend. *)
Theorem createQuery_range_is_valid (ds : PrometheusDatasource) (target : PromQuery)
    (options : DataQueryRequest) (start end' : Q) (w : world) :
  start <= end' ->
  let query := createQuery ds target options start end' in
  query_start query <= query_end query /\
  exists (settled : promise value) (sent : httpOptions),
    fst (performTimeSeriesQuery ds query (query_start query) (query_end query) w)
    = Normal settled /\
    requests (snd (performTimeSeriesQuery ds query (query_start query) (query_end query) w))
    = requests w ++ [sent].
Proof.
  intros Horder query. subst query.
  pose proof (createQuery_ordered ds target options start end' Horder) as Hwindow.
  split; [exact Hwindow |].
  destruct (performTimeSeriesQuery_sends ds (createQuery ds target options start end')
              _ _ w Hwindow) as (sent & ->).
  eexists _, sent. split; reflexivity.
Qed.

(** X5. When the interval of the request, the minimum interval and the
    interval factor are integers (the interval positive, the factor at
    least 1 or missing) and start <= end are integers, the step and the
    window of the query are those computed with every operation rounded,
    whatever the correct rounding, and the window spans at most 11001
    steps. The bounds keep every operation of [adjustInterval] and
    [alignRange] exact on doubles; with an interval that is no integer
    the rounded window can span more (an interval of 1.1 seconds from 33
    to 12133). *)
Theorem createQuery_point_ceiling (round : Q -> Q) (ds : PrometheusDatasource)
    (target : PromQuery) (options : DataQueryRequest)
    (start end' interval minInterval intervalFactor : Z) :
  correctly_rounded round ->
  interval_to_seconds (options_interval options) == inject_Z interval ->
  interval_to_seconds
    (or_string
       (templateSrv_replace (target_interval target) (options_scopedVars options) None)
       (options_interval options)) == inject_Z minInterval ->
  or_one (target_intervalFactor target) == inject_Z intervalFactor ->
  (0 < interval)%Z -> (1 <= intervalFactor)%Z -> (interval * intervalFactor <= 2 ^ 36)%Z ->
  (0 <= minInterval <= 2 ^ 49)%Z ->
  (start <= end')%Z -> (Z.abs start <= 2 ^ 49)%Z -> (Z.abs end' <= 2 ^ 49)%Z ->
  let query := createQuery ds target options (inject_Z start) (inject_Z end') in
  let window :=
    queryWindow_rounded round (inject_Z start) (inject_Z end')
      (inject_Z interval) (inject_Z minInterval) (inject_Z intervalFactor) in
  (query_step query == fst window /\
   query_start query == aligned_start (snd window) /\
   query_end query == aligned_end (snd window)) /\
  (query_end query - query_start query) / query_step query <= 11001.
Proof.
  intros Hround Hinterval Hmin Hfactor Hpositive Hone Hscaled Hsmall Horder Hstart Hend
    query window.
  set (start' := inject_Z start) in *. set (end'' := inject_Z end') in *.
  assert (start' <= end'') as Hle by (subst start' end''; rewrite <- Zle_Qle; exact Horder).
  pose proof (createQuery_step_positive ds target options start' end'') as Hstep.
  pose proof (createQuery_step_adjusted ds target options start' end'') as Hadjusted.
  fold query in Hstep, Hadjusted.
  destruct (createQuery_window ds target options start' end'') as [Hs He].
  fold query in Hs, He.
  split.
  - (* the range is an integer *)
    assert (end'' - start' == inject_Z (end' - start)) as Hdifference.
    { subst start' end''. unfold Z.sub. rewrite inject_Z_plus, inject_Z_opp. reflexivity. }
    assert (Math_ceil (end'' - start') = inject_Z (end' - start)) as Hrange.
    { unfold Math_ceil. rewrite (Qceiling_comp _ _ Hdifference), Qceiling_Z. reflexivity. }
    assert (Math_ceil (round (end'' - start')) = inject_Z (end' - start)) as Hrange'.
    { unfold Math_ceil.
      assert (round (end'' - start') == inject_Z (end' - start)) as Hrounded.
      { rewrite (round_compatible round Hround _ _ Hdifference).
        apply (round_integer round Hround). lia. }
      rewrite (Qceiling_comp _ _ Hrounded), Qceiling_Z. reflexivity. }
    (* the step is the same integer *)
    rewrite Hrange in Hadjusted.
    rewrite (adjustInterval_compatible _ (inject_Z interval) _ (inject_Z minInterval)
               _ (inject_Z (end' - start)) _ (inject_Z intervalFactor)
               Hinterval Hmin ltac:(reflexivity) Hfactor) in Hadjusted.
    destruct (adjustInterval_of_integers interval minInterval (end' - start) intervalFactor
                Hpositive Hone Hscaled ltac:(lia) ltac:(lia)) as (step & Hinteger & Hstep1).
    assert (fst window == inject_Z step) as Hwindow.
    { subst window. unfold queryWindow_rounded. cbn [fst]. rewrite Hrange'.
      pose proof (adjustInterval_rounded_integers round Hround interval (end' - start)
                    intervalFactor Hpositive ltac:(lia) Hone Hscaled ltac:(lia)
                    (inject_Z minInterval)) as Hexact.
      destruct (strict_ne _ _) eqn:Hchanged.
      - rewrite Hexact. exact Hinteger.
      - unfold strict_ne in Hchanged. apply negb_false_iff, Qeq_bool_iff in Hchanged.
        rewrite Hchanged, Hexact. exact Hinteger. }
    assert (query_step query == inject_Z step) as Hquery
      by (rewrite Hadjusted; exact Hinteger).
    split; [rewrite Hquery, Hwindow; reflexivity |].
    (* and so is the window *)
    assert (0 < step)%Z as Hstep0 by lia.
    destruct (alignRange_rounded_compatible round Hround start' end'' _ _ Hwindow)
      as [Hs1 He1].
    destruct (alignRange_rounded_integers round Hround start end' step Hstep0
                ltac:(lia) ltac:(lia)) as [Hs2 He2].
    destruct (alignRange_rounded_compatible (fun x => x) exact_is_correctly_rounded
                start' end'' _ _ Hquery) as [Hs3 He3].
    destruct (alignRange_of_integers start end' step Hstep0) as [Hs4 He4].
    subst window. unfold queryWindow_rounded in *. cbn [fst snd] in *.
    fold start' end'' in Hs2, He2, Hs4, He4.
    split.
    + rewrite Hs, Hs1, Hs2, <- Hs4. exact Hs3.
    + rewrite He, He1, He2, <- He4. exact He3.
  - pose proof (inject_Z_positive interval Hpositive) as Hi.
    pose proof (inject_Z_positive intervalFactor ltac:(lia)) as Hf.
    rewrite <- Hinterval in Hi. rewrite <- Hfactor in Hf.
    pose proof (adjustInterval_range_bound _
                  (interval_to_seconds
                     (or_string
                        (templateSrv_replace (target_interval target)
                           (options_scopedVars options) None)
                        (options_interval options)))
                  (Math_ceil (end'' - start')) _ Hi Hf) as Hrange.
    rewrite <- Hadjusted in Hrange.
    pose proof (Qle_ceiling (end'' - start')) as Hceil.
    fold (Math_ceil (end'' - start')) in Hceil.
    assert (0 < query_step query) as Hpos by lra.
    pose proof (floor_step_lower start' _ Hpos) as Hlow.
    pose proof (floor_step_upper end'' _ Hpos) as Hup.
    rewrite <- Hs in Hlow. rewrite <- He in Hup.
    apply Qle_shift_div_r; [exact Hpos |]. lra.
Qed.

End CreateQuery.

(** ** [prepareTargets] *)

Section PrepareTargets.

Context `{host : !Services}.

Lemma createQuery_matches (ds : PrometheusDatasource) (target : PromQuery)
    (options : DataQueryRequest) (start end' : Q) :
  matches (createQuery ds target options start end') target.
Proof.
  repeat split.
Qed.

Lemma skipped_rangeTarget (target : PromQuery) :
  skipped (rangeTarget target) = skipped target.
Proof. reflexivity. Qed.

Lemma skipped_instantTarget (target : PromQuery) :
  skipped (instantTarget target) = skipped target.
Proof. reflexivity. Qed.

(** What one round of the loop adds to the queries and active targets. *)
Lemma prepareTargets_loop_invariant (P : PromQueryRequest -> Prop)
    (ds : PrometheusDatasource) (options : DataQueryRequest) (start end' : Q)
    (todo : list PromQuery) (acc : PreparedTargets) :
  (forall target, P (createQuery ds target options start end')) ->
  Forall2 matches (queries acc) (activeTargets acc) ->
  Forall (fun target => skipped target = false) (activeTargets acc) ->
  Forall P (queries acc) ->
  let prepared := prepareTargets_loop ds options start end' todo acc in
  Forall2 matches (queries prepared) (activeTargets prepared) /\
  Forall (fun target => skipped target = false) (activeTargets prepared) /\
  Forall P (queries prepared).
Proof.
  intros Hcreate. revert acc.
  induction todo as [| target rest IH]; intros acc Hmatch Hactive HP.
  - cbn. auto.
  - cbn [prepareTargets_loop].
    destruct (skipped target) eqn:Hskipped.
    + apply IH; assumption.
    + case_bool_decide as Hexplore.
      * apply IH; cbn [queries activeTargets].
        -- apply Forall2_app; [exact Hmatch |].
           repeat constructor.
        -- apply Forall_app. split; [exact Hactive |].
           repeat constructor; cbn; exact Hskipped.
        -- apply Forall_app. split; [exact HP |].
           repeat constructor; apply Hcreate.
      * apply IH; cbn [queries activeTargets].
        -- apply Forall2_app; [exact Hmatch |]. repeat constructor.
        -- apply Forall_app. split; [exact Hactive |].
           repeat constructor; exact Hskipped.
        -- apply Forall_app. split; [exact HP |].
           repeat constructor; apply Hcreate.
Qed.

Lemma prepareTargets_invariant (P : PromQueryRequest -> Prop)
    (ds : PrometheusDatasource) (options : DataQueryRequest) (start end' : Q) :
  (forall target, P (createQuery ds target options start end')) ->
  let prepared := prepareTargets ds options start end' in
  Forall2 matches (queries prepared) (activeTargets prepared) /\
  Forall (fun target => skipped target = false) (activeTargets prepared) /\
  Forall P (queries prepared).
Proof.
  intros Hcreate. unfold prepareTargets.
  apply prepareTargets_loop_invariant; [exact Hcreate | | |]; cbn; constructor.
Qed.

(** X6. [prepareTargets] fills [queries] and [activeTargets] in lockstep:
    they have the same length, and the query at an index carries the
    refId, the instant flag and the hinting flag of the target at that
    index. *)
Theorem prepareTargets_lockstep (ds : PrometheusDatasource) (options : DataQueryRequest)
    (start end' : Q) :
  let prepared := prepareTargets ds options start end' in
  length (queries prepared) = length (activeTargets prepared) /\
  forall (index : nat) (query : PromQueryRequest) (target : PromQuery),
    queries prepared !! index = Some query ->
    activeTargets prepared !! index = Some target ->
    matches query target.
Proof.
  intros prepared. subst prepared.
  destruct (prepareTargets_invariant (fun _ => True) ds options start end')
    as (Hmatch & _ & _); [auto |].
  split.
  - eapply Forall2_length. exact Hmatch.
  - intros index query target Hquery Htarget.
    eapply Forall2_lookup_lr; eassumption.
Qed.

(** X7. No hidden target and no target without an expression is ever
    queried: every active target has a non-empty expression and is not
    hidden. *)
Theorem prepareTargets_active (ds : PrometheusDatasource) (options : DataQueryRequest)
    (start end' : Q) (target : PromQuery) :
  target ∈ activeTargets (prepareTargets ds options start end') ->
  (exists expr : string, target_expr target = Some expr /\ expr <> "") /\
  target_hide target <> Some true.
Proof.
  intros Hin.
  destruct (prepareTargets_invariant (fun _ => True) ds options start end')
    as (_ & Hactive & _); [auto |].
  rewrite Forall_forall in Hactive. specialize (Hactive target Hin).
  unfold skipped in Hactive. apply orb_false_iff in Hactive.
  destruct Hactive as [Hexpr Hhide]. split.
  - destruct (target_expr target) as [expr |]; [| discriminate].
    exists expr. split; [reflexivity |].
    cbn in Hexpr. apply String.eqb_neq. exact Hexpr.
  - apply bool_decide_eq_false in Hhide. exact Hhide.
Qed.

End PrepareTargets.

Section PrepareTargetsCount.

Context `{host : !Services}.

Lemma prepareTargets_loop_count (ds : PrometheusDatasource) (options : DataQueryRequest)
    (start end' : Q) (todo : list PromQuery) (acc : PreparedTargets) :
  length (queries (prepareTargets_loop ds options start end' todo acc)) =
  (length (queries acc)
   + length (List.filter (fun target => negb (skipped target)) todo)
   + length (List.filter (fun target => negb (skipped target) && isExplore target) todo))%nat.
Proof.
  revert acc. induction todo as [| target rest IH]; intros acc.
  - cbn. lia.
  - cbn [prepareTargets_loop List.filter]. unfold isExplore at 1.
    destruct (skipped target) eqn:Hskipped; cbn [negb andb].
    + rewrite IH. cbn [queries]. reflexivity.
    + case_bool_decide as Hexplore; rewrite IH; cbn [queries length];
        rewrite length_app; cbn [length]; lia.
Qed.

(** X8. [prepareTargets] builds one query for every target that is
    neither hidden nor without expression, and one more (the instant
    query) for each of them that comes from Explore. *)
Theorem prepareTargets_count (ds : PrometheusDatasource) (options : DataQueryRequest)
    (start end' : Q) :
  length (queries (prepareTargets ds options start end')) =
  (length (List.filter (fun target => negb (skipped target)) (options_targets options))
   + length (List.filter (fun target => negb (skipped target) && isExplore target)
               (options_targets options)))%nat.
Proof.
  unfold prepareTargets. rewrite prepareTargets_loop_count. reflexivity.
Qed.

End PrepareTargetsCount.

(** ** What [query] sends and what it leaves alone *)

Section QueryRuns.

Context `{host : !Services}.

Lemma onlyRequests_refl (w : world) : onlyRequests w w.
Proof.
  split; [exists []; rewrite app_nil_r |]; reflexivity.
Qed.

Lemma onlyRequests_trans (w1 w2 w3 : world) :
  onlyRequests w1 w2 -> onlyRequests w2 w3 -> onlyRequests w1 w3.
Proof.
  intros [[sent12 H12] Hc12] [[sent23 H23] Hc23]. split.
  - exists (sent12 ++ sent23). rewrite H23, H12, app_assoc. reflexivity.
  - congruence.
Qed.

Lemma performInstantQuery_sends (ds : PrometheusDatasource) (query : PromQueryRequest)
    (time : Q) (w : world) :
  exists sent : httpOptions,
    performInstantQuery ds query time w =
    (Normal (catch (fst (backendSrv_datasourceRequest w sent))
               (fun err => handleErrors err query)),
     {| requests := requests w ++ [sent];
        now := now w + snd (backendSrv_datasourceRequest w sent);
        metricsNameCache := metricsNameCache w;
        observed := observed w |}).
Proof.
  unfold performInstantQuery.
  match goal with
  | |- context [_request ds ?url ?data ?options] =>
      destruct (_request_sends ds url data options w) as (sent & Hrun & _)
  end.
  exists sent. unfold mbind, M_bind, mret, M_ret. rewrite Hrun. reflexivity.
Qed.

Lemma performQuery_sends (ds : PrometheusDatasource) (end' : Q)
    (query : PromQueryRequest) (w : world) :
  sendable query ->
  exists (settled : promise value) (sent : httpOptions) (elapsed : Q),
    performQuery ds end' query w =
    (Normal settled,
     {| requests := requests w ++ [sent];
        now := now w + elapsed;
        metricsNameCache := metricsNameCache w;
        observed := observed w |}).
Proof.
  intros Hsendable. unfold performQuery. case_bool_decide as Hinstant.
  - destruct (performInstantQuery_sends ds query end' w) as (sent & ->).
    eexists _, sent, _. reflexivity.
  - destruct Hsendable as [Hi | Hwindow]; [contradiction |].
    destruct (performTimeSeriesQuery_sends ds query _ _ w Hwindow) as (sent & ->).
    eexists _, sent, _. reflexivity.
Qed.

(** Sent or thrown, a query adds at most a request and touches neither
    the cache nor the observer. *)
Lemma performQuery_frame (ds : PrometheusDatasource) (end' : Q)
    (query : PromQueryRequest) (w : world) :
  onlyRequests w (snd (performQuery ds end' query w)) /\
  observed (snd (performQuery ds end' query w)) = observed w.
Proof.
  unfold performQuery. case_bool_decide as Hinstant.
  - destruct (performInstantQuery_sends ds query end' w) as (sent & ->).
    cbn. split; [split; [eexists |] |]; reflexivity.
  - unfold performTimeSeriesQuery.
    destruct (gt (query_start query) (query_end query)) eqn:Hgt.
    + cbn. split; [apply onlyRequests_refl | reflexivity].
    + apply gt_false in Hgt.
      destruct (performTimeSeriesQuery_sends ds query _ _ w Hgt) as (sent & Hrun).
      unfold performTimeSeriesQuery in Hrun. apply gt_false in Hgt.
      rewrite Hgt in Hrun. rewrite Hrun.
      cbn. split; [split; [eexists |] |]; reflexivity.
Qed.

Lemma allQueryPromise_frame (ds : PrometheusDatasource) (end' : Q)
    (queries : list PromQueryRequest) (w : world) :
  onlyRequests w (snd (allQueryPromise ds end' queries w)) /\
  observed (snd (allQueryPromise ds end' queries w)) = observed w.
Proof.
  revert w. induction queries as [| query rest IH]; intros w.
  - cbn. split; [apply onlyRequests_refl | reflexivity].
  - cbn [allQueryPromise]. unfold mbind, M_bind.
    pose proof (performQuery_frame ds end' query w) as [Hfirst Hobserved].
    destruct (performQuery ds end' query w) as [[settled | e] w1]; cbn [snd] in *.
    + specialize (IH w1). destruct (allQueryPromise ds end' rest w1) as [others w2].
      cbn [snd mret M_ret] in *. destruct IH as [Hrest Hobserved2].
      split; [eapply onlyRequests_trans; eassumption |].
      rewrite Hobserved2. exact Hobserved.
    + cbn. split; assumption.
Qed.

Lemma allQueryPromise_sends (ds : PrometheusDatasource) (end' : Q)
    (queries : list PromQueryRequest) (w : world) :
  Forall sendable queries ->
  exists (promises : list (promise value)) (sent : list httpOptions),
    fst (allQueryPromise ds end' queries w) = Normal promises /\
    length promises = length queries /\
    requests (snd (allQueryPromise ds end' queries w)) = requests w ++ sent /\
    length sent = length queries.
Proof.
  intros Hsendable. revert w.
  induction Hsendable as [| query rest Hquery _ IH]; intros w.
  - exists [], []. cbn. rewrite app_nil_r. auto.
  - cbn [allQueryPromise]. unfold mbind, M_bind.
    destruct (performQuery_sends ds end' query w Hquery)
      as (settled & first & elapsed & ->).
    match goal with
    | |- context [allQueryPromise ds end' rest ?w1] =>
        destruct (IH w1) as (promises & sent & Hfst & Hlen & Hrequests & Hsent);
        destruct (allQueryPromise ds end' rest w1) as [others w2]
    end.
    cbn [fst snd requests] in *. subst others.
    exists (settled :: promises), (first :: sent). cbn [mret M_ret fst snd length].
    rewrite Hrequests, <- app_assoc. cbn. auto.
Qed.

Lemma runObserverQueries_loop_frame (ds : PrometheusDatasource) (options : DataQueryRequest)
    (all_queries todo : list PromQueryRequest) (activeTargets : list PromQuery)
    (end' : Q) (index : nat) (w : world) :
  onlyRequests w
    (snd (runObserverQueries_loop ds options all_queries todo activeTargets end' index w)).
Proof.
  revert index w. induction todo as [| query rest IH]; intros index w.
  - apply onlyRequests_refl.
  - cbn [runObserverQueries_loop]. unfold mbind, M_bind.
    pose proof (performQuery_frame ds end' query w) as [Hfirst _].
    destruct (performQuery ds end' query w) as [[settled | e] w1]; cbn [snd] in *;
      [| exact Hfirst].
    eapply onlyRequests_trans; [exact Hfirst |].
    match goal with
    | |- context [let '(_, _) := ?notify w1 in _] =>
        assert (onlyRequests w1 (snd (notify w1))) as Hnotify;
        [| destruct (notify w1) as [[] w2]; cbn [snd] in *;
           eapply onlyRequests_trans; [exact Hnotify | apply IH]]
    end.
    destruct settled as [response | e]; [| apply onlyRequests_refl].
    destruct (activeTargets !! index) as [target |]; [| apply onlyRequests_refl].
    destruct (nullish response || truthy (prop response "cancelled"));
      [apply onlyRequests_refl |].
    cbn. split; [exists []; rewrite app_nil_r |]; reflexivity.
Qed.

Lemma runObserverQueries_loop_sends (ds : PrometheusDatasource) (options : DataQueryRequest)
    (all_queries todo : list PromQueryRequest) (activeTargets : list PromQuery)
    (end' : Q) (index : nat) (w : world) :
  Forall sendable todo ->
  exists (sent : list httpOptions) (states : list DataStreamState),
    fst (runObserverQueries_loop ds options all_queries todo activeTargets end' index w)
    = Normal tt /\
    requests
      (snd (runObserverQueries_loop ds options all_queries todo activeTargets end' index w))
    = requests w ++ sent /\
    length sent = length todo /\
    observed
      (snd (runObserverQueries_loop ds options all_queries todo activeTargets end' index w))
    = observed w ++ states /\
    (length states <= length todo)%nat.
Proof.
  intros Hsendable. revert index w.
  induction Hsendable as [| query rest Hquery _ IH]; intros index w.
  - exists [], []. cbn. rewrite !app_nil_r. auto.
  - cbn [runObserverQueries_loop]. unfold mbind, M_bind.
    destruct (performQuery_sends ds end' query w Hquery)
      as (settled & first & elapsed & ->).
    match goal with
    | |- context [let '(_, _) := ?notify ?w1 in _] =>
        assert (exists states1,
                  requests (snd (notify w1)) = requests w ++ [first] /\
                  observed (snd (notify w1)) = observed w ++ states1 /\
                  (length states1 <= 1)%nat) as (states1 & Hreq1 & Hobs1 & Hlen1);
        [| destruct (notify w1) as [[] w2]; cbn [snd] in Hreq1, Hobs1]
    end.
    { destruct settled as [response | e];
        [| exists []; cbn; rewrite app_nil_r; auto].
      destruct (activeTargets !! index) as [target |];
        [| exists []; cbn; rewrite app_nil_r; auto].
      destruct (nullish response || truthy (prop response "cancelled"));
        [exists []; cbn; rewrite app_nil_r; auto |].
      eexists [_]. cbn. auto. }
    destruct (IH (S index) w2) as (sent & states & Hfst & Hrequests & Hsent & Hobserved & Hstates).
    exists (first :: sent), (states1 ++ states).
    rewrite Hfst, Hrequests, Hobserved, Hreq1, Hobs1, <- !app_assoc, length_app.
    cbn [length app]. repeat split; lia.
Qed.



End QueryRuns.

Section QueryProperties.

Context `{host : !Services}.

Lemma isExplore_rangeTarget (target : PromQuery) :
  isExplore (rangeTarget target) = isExplore target.
Proof. reflexivity. Qed.



Lemma prepareTargets_sendable (ds : PrometheusDatasource) (options : DataQueryRequest)
    (start end' : Q) :
  start <= end' ->
  Forall sendable (queries (prepareTargets ds options start end')).
Proof.
  intros Horder.
  apply (prepareTargets_invariant sendable ds options start end').
  intros target. right. apply createQuery_ordered. exact Horder.
Qed.

(** X9. For a range whose start (in seconds) does not exceed its end,
    [query] does not throw: it returns a promise, having handed to the
    backend exactly one request for every prepared query. *)
Theorem query_sends_every_query (ds : PrometheusDatasource) (options : DataQueryRequest)
    (hasObserver : bool) (w : world) :
  let start := getPrometheusTime (range_from (options_range options)) false in
  let end' := getPrometheusTime (range_to (options_range options)) true in
  start <= end' ->
  exists (result : promise QueryResult) (sent : list httpOptions),
    fst (query ds options hasObserver w) = Normal result /\
    requests (snd (query ds options hasObserver w)) = requests w ++ sent /\
    length sent = length (queries (prepareTargets ds options start end')).
Proof.
  intros start end' Horder.
  pose proof (prepareTargets_sendable ds options start end' Horder) as Hsendable.
  unfold query. fold start end'.
  case_bool_decide as Hempty.
  - exists (Resolved {| data := [] |}), []. rewrite Hempty, app_nil_r. auto.
  - match goal with
    | |- context [if ?b then _ else _] => destruct b
    end.
    + unfold mbind, M_bind, runObserverQueries.
      match goal with
      | |- context [runObserverQueries_loop ds ?o ?qs ?todo ?ts ?e ?i w] =>
          destruct (runObserverQueries_loop_sends ds o qs todo ts e i w Hsendable)
            as (sent & states & Hfst & Hrequests & Hsent & _);
          destruct (runObserverQueries_loop ds o qs todo ts e i w) as [finished w']
      end.
      cbn [fst snd] in *. subst finished.
      exists (Resolved {| data := [] |}), sent. auto.
    + unfold mbind, M_bind.
      destruct (allQueryPromise_sends ds end' _ w Hsendable)
        as (promises & sent & Hfst & _ & Hrequests & Hsent).
      destruct (allQueryPromise ds end' (queries (prepareTargets ds options start end')) w)
        as [settled w'].
      cbn [fst snd] in *. subst settled.
      eexists _, sent. cbn [mret M_ret fst snd]. auto.
Qed.

(** X10. Whatever the request and however it ends, [query] only adds
    requests and never touches the metric-name cache; without an observer
    it leaves the states delivered to the observer as they were. *)
Theorem query_keeps_cache (ds : PrometheusDatasource) (options : DataQueryRequest)
    (hasObserver : bool) (w : world) :
  (exists sent : list httpOptions,
     requests (snd (query ds options hasObserver w)) = requests w ++ sent) /\
  metricsNameCache (snd (query ds options hasObserver w)) = metricsNameCache w /\
  (hasObserver = false -> observed (snd (query ds options hasObserver w)) = observed w).
Proof.
  assert (onlyRequests w (snd (query ds options hasObserver w)) /\
          (hasObserver = false ->
           observed (snd (query ds options hasObserver w)) = observed w)) as [[Hsent Hcache] Hobs].
  { unfold query. case_bool_decide as Hempty.
    - cbn. split; [apply onlyRequests_refl | reflexivity].
    - destruct hasObserver; cbn [andb].
      + split; [| discriminate].
        match goal with
        | |- context [if ?b then _ else _] => destruct b
        end; unfold mbind, M_bind.
        * unfold runObserverQueries.
          match goal with
          | |- context [runObserverQueries_loop ds ?o ?qs ?todo ?ts ?e ?i w] =>
              pose proof (runObserverQueries_loop_frame ds o qs todo ts e i w) as Hframe;
              destruct (runObserverQueries_loop ds o qs todo ts e i w) as [finished w']
          end.
          exact Hframe.
        * match goal with
          | |- context [allQueryPromise ds ?e ?qs w] =>
              pose proof (allQueryPromise_frame ds e qs w) as [Hframe _];
              destruct (allQueryPromise ds e qs w) as [settled w']
          end.
          exact Hframe.
      + unfold mbind, M_bind.
        match goal with
        | |- context [allQueryPromise ds ?e ?qs w] =>
            pose proof (allQueryPromise_frame ds e qs w) as [Hframe Hobserved];
            destruct (allQueryPromise ds e qs w) as [settled w']
        end.
        split; [exact Hframe | intros _; exact Hobserved]. }
  auto.
Qed.



End QueryProperties.

(** ** Requests, once more *)

Section RequestProperties.

Context `{host : !Services}.

(** X12. [performInstantQuery] never throws: it sends one request, to
    [/api/v1/query], whose parameters are [query] and [time], followed by
    [timeout] exactly when the datasource has a query timeout, and no
    other: for GET they make up the query string, each as
    [encodeURIComponent(name)=encodeURIComponent(value)], joined by [&];
    otherwise they are the request data. *)
Theorem performInstantQuery_parameters (ds : PrometheusDatasource)
    (query : PromQueryRequest) (time : Q) (w : world) :
  let outcome := performInstantQuery ds query time w in
  let parameter (name : string) (v : value) : string :=
    encodeURIComponent name +:+ "=" +:+ encodeURIComponent (ToString v) in
  exists (settled : promise value) (sent : httpOptions),
    fst outcome = Normal settled /\
    requests (snd outcome) = requests w ++ [sent] /\
    http_method sent = ds_httpMethod ds /\
    if String.eqb (ds_httpMethod ds) "GET"
    then http_data sent = None /\
         http_url sent =
           (ds_url ds +:+ "/api/v1/query") +:+ "?" +:+
           parameter "query" (VStr (query_expr query)) +:+ "&" +:+
           (if truthy (ds_queryTimeout ds)
            then parameter "time" (VNum time) +:+ "&" +:+
                 parameter "timeout" (ds_queryTimeout ds)
            else parameter "time" (VNum time))
    else http_url sent = ds_url ds +:+ "/api/v1/query" /\
         http_data sent =
           Some (if truthy (ds_queryTimeout ds)
                 then [("query", VStr (query_expr query)); ("time", VNum time);
                       ("timeout", ds_queryTimeout ds)]
                 else [("query", VStr (query_expr query)); ("time", VNum time)]).
Proof.
  intros outcome parameter. subst outcome parameter.
  unfold performInstantQuery.
  unfold _request, datasourceRequest, mbind, M_bind, mret, M_ret.
  cbn [default from_option id ro_method ro_headers ro_requestId ro_silent].
  match goal with
  | |- context [backendSrv_datasourceRequest w ?o] =>
      exists (catch (fst (backendSrv_datasourceRequest w o))
                (fun err => handleErrors err query)), o;
      destruct (backendSrv_datasourceRequest w o) as [settled elapsed]
  end.
  cbn [fst snd requests http_method http_url http_data].
  split; [reflexivity |]. split; [reflexivity |]. split; [reflexivity |].
  unfold timeoutParam, encodeParam.
  destruct (String.eqb (ds_httpMethod ds) "GET");
    destruct (truthy (ds_queryTimeout ds)); split; reflexivity.
Qed.

(** X13. A metadata request is always a silent GET without data, to the
    datasource url followed by the path, whatever HTTP method the
    datasource is configured with. *)
Theorem metadataRequest_silent_get (ds : PrometheusDatasource) (url : string) (w : world) :
  exists sent : httpOptions,
    requests (snd (metadataRequest ds url w)) = requests w ++ [sent] /\
    http_method sent = "GET" /\
    http_url sent = ds_url ds +:+ url /\
    http_data sent = None /\
    http_silent sent = true /\
    http_requestId sent = None.
Proof.
  unfold metadataRequest, _request, datasourceRequest.
  match goal with
  | |- context [backendSrv_datasourceRequest w ?o] =>
      exists o; destruct (backendSrv_datasourceRequest w o) as [settled elapsed]
  end.
  cbn. repeat split; reflexivity.
Qed.

(** X14. [_request] asks for credentials exactly when the datasource has
    basic auth or [withCredentials]; it sets the [Authorization] header to
    the basic auth when there is one, and otherwise leaves that header as
    the caller gave it. *)
Theorem request_credentials (ds : PrometheusDatasource) (url : string)
    (data : option (list (string * value))) (options : option requestOptions) (w : world) :
  exists sent : httpOptions,
    requests (snd (_request ds url data options w)) = requests w ++ [sent] /\
    http_withCredentials sent = truthy (ds_basicAuth ds) || truthy (ds_withCredentials ds) /\
    http_headers sent !! "Authorization" =
    (if truthy (ds_basicAuth ds) then Some (ds_basicAuth ds)
     else default ∅ (options ≫= ro_headers) !! "Authorization").
Proof.
  unfold _request, datasourceRequest.
  match goal with
  | |- context [backendSrv_datasourceRequest w ?o] =>
      exists o; destruct (backendSrv_datasourceRequest w o) as [settled elapsed]
  end.
  cbn [snd requests http_withCredentials http_headers].
  split; [reflexivity |]. split; [reflexivity |].
  assert (default ∅ (ro_headers
            (default {| ro_method := None; ro_headers := None;
                        ro_requestId := None; ro_silent := false |} options))
          = default ∅ (options ≫= ro_headers)) as ->
    by (destruct options; reflexivity).
  destruct (truthy (ds_basicAuth ds)).
  - apply lookup_insert_eq.
  - destruct (String.eqb _ "GET"); [reflexivity |].
    apply lookup_insert_ne. discriminate.
Qed.

(** X15. [createQuery] adds the tracing headers in proxy mode only: when
    the datasource url starts with [http] the query carries the headers of
    the request unchanged; otherwise [X-Dashboard-Id] and [X-Panel-Id] are
    set to the dashboard and the panel of the request, every other header
    being kept. *)
Theorem createQuery_tracing_headers (ds : PrometheusDatasource) (target : PromQuery)
    (options : DataQueryRequest) (start end' : Q) :
  exists headers : gmap string value,
    query_headers (createQuery ds target options start end') = Some headers /\
    if String.prefix "http" (ds_url ds)
    then headers = default ∅ (options_headers options)
    else headers !! "X-Dashboard-Id" = Some (options_dashboardId options) /\
         headers !! "X-Panel-Id" = Some (options_panelId options) /\
         forall name : string,
           name <> "X-Dashboard-Id" -> name <> "X-Panel-Id" ->
           headers !! name = default ∅ (options_headers options) !! name.
Proof.
  eexists. split; [reflexivity |]. unfold _addTracingHeaders.
  destruct (String.prefix "http" (ds_url ds)); cbn [negb]; [reflexivity |].
  split; [| split].
  - rewrite lookup_insert_ne by discriminate. apply lookup_insert_eq.
  - apply lookup_insert_eq.
  - intros name Hdashboard Hpanel.
    rewrite !lookup_insert_ne by congruence. reflexivity.
Qed.

End RequestProperties.

(** ** The metric-name cache, once more *)

Section CacheProperties.

Context `{host : !Services}.

(** X16. With [cache = false] the cache is never consulted: even when it
    is fresh, [performSuggestQuery] sends a GET for the metric names. *)
Theorem performSuggestQuery_without_cache (ds : PrometheusDatasource) (query : string)
    (w : world) :
  exists sent : httpOptions,
    requests (snd (performSuggestQuery ds query false w)) = requests w ++ [sent] /\
    http_url sent = ds_url ds +:+ "/api/v1/label/__name__/values" /\
    http_method sent = "GET".
Proof.
  destruct (performSuggestQuery_fetch ds query false w)
    as (sent & Hurl & Hmethod & Hrequests & _).
  { intros [Hcache _]. discriminate. }
  exists sent. auto.
Qed.

(** A fetch that resolves to names has stored the data they were taken
    from, to expire 60 seconds later. *)
Lemma performSuggestQuery_fetch_resolved (ds : PrometheusDatasource) (query : string)
    (cache : bool) (w : world) (names : list value) :
  ~ (cache = true /\ cacheIsFresh w) ->
  fst (performSuggestQuery ds query cache w) = Normal (Resolved names) ->
  exists data : value,
    metricsNameCache (snd (performSuggestQuery ds query cache w)) =
    Some {| cache_data := data;
            cache_expire := now (snd (performSuggestQuery ds query cache w)) + 60 * 1000 |} /\
    lodash_filter data (metricNameFilter query) = Normal names.
Proof.
  intros Hstale.
  assert (performSuggestQuery ds query cache w =
          (result ← metadataRequest ds "/api/v1/label/__name__/values";
           match result with
           | Rejected e => mret (Normal (Rejected e))
           | Resolved result =>
               if nullish result || nullish (prop result "data")
               then mret (Normal (Rejected TypeError))
               else
                 let names := prop (prop result "data") "data" in
                 time ← Date_now;
                 _ ← setMetricsNameCache
                       {| cache_data := names; cache_expire := time + 60 * 1000 |};
                 mret (Normal
                         (match lodash_filter names (metricNameFilter query) with
                          | Normal found => Resolved found
                          | Throw e => Rejected e
                          end))
           end) w) as ->.
  { unfold performSuggestQuery. destruct cache; [| reflexivity].
    destruct (metricsNameCache w) as [cached |] eqn:Hcache; [| reflexivity].
    destruct (gt (cache_expire cached) (now w)) eqn:Hgt; [| reflexivity].
    exfalso. apply Hstale. split; [reflexivity |].
    exists cached. split; [exact Hcache | apply gt_true; exact Hgt]. }
  unfold mbind, M_bind.
  destruct (metadataRequest ds "/api/v1/label/__name__/values" w) as [[result | e] w1];
    [| cbn; discriminate].
  destruct (nullish result || nullish (prop result "data")); [cbn; discriminate |].
  cbn. destruct (lodash_filter _ _) as [found | e] eqn:Hfilter; [| discriminate].
  intros [= ->]. eexists. split; [reflexivity | exact Hfilter].
Qed.

(** X17. For 60 seconds after a fetch that resolved to some names, a call
    with [cache = true] for the same query is answered with the same
    names, and nothing is sent. *)
Theorem performSuggestQuery_then_cached (ds : PrometheusDatasource) (query : string)
    (cache : bool) (w later : world) (names : list value) :
  ~ (cache = true /\ cacheIsFresh w) ->
  fst (performSuggestQuery ds query cache w) = Normal (Resolved names) ->
  metricsNameCache later = metricsNameCache (snd (performSuggestQuery ds query cache w)) ->
  now later < now (snd (performSuggestQuery ds query cache w)) + 60 * 1000 ->
  performSuggestQuery ds query true later = (Normal (Resolved names), later).
Proof.
  intros Hstale Hresolved Hcache Hnow.
  destruct (performSuggestQuery_fetch_resolved ds query cache w names Hstale Hresolved)
    as (data & Hstored & Hfilter).
  rewrite Hstored in Hcache.
  rewrite (performSuggestQuery_fresh ds query later _ Hcache) by exact Hnow.
  cbn [cache_data]. rewrite Hfilter. reflexivity.
Qed.

End CacheProperties.

(** ** Annotations, once more *)

Section AnnotationProperties.

Context `{host : !Services}.

Lemma seriesEvents_valueIsTrue (annotation : Annotation) (titleFormat textFormat : string)
    (tags : list string) (metric : list (string * string)) (values : list (Q * string))
    (dupCheck : gmap integer bool) (eventList : list AnnotationEvent) :
  truthy (annotation_useValueForTime annotation) = false ->
  seriesEvents annotation titleFormat textFormat tags metric values dupCheck eventList =
  eventList ++
  map (fun v => eventAt annotation titleFormat textFormat tags metric
                  (Int (Qfloor (fst v) * 1000)))
      (List.filter (fun v => String.eqb (snd v) "1") values).
Proof.
  intros Huse. revert eventList.
  induction values as [| v rest IH]; intros eventList.
  - cbn. rewrite app_nil_r. reflexivity.
  - cbn [seriesEvents List.filter]. rewrite Huse, orb_false_r.
    destruct (String.eqb (snd v) "1").
    + rewrite IH. cbn [map]. rewrite <- app_assoc. reflexivity.
    + apply IH.
Qed.

Lemma eachSeries_valueIsTrue (annotation : Annotation) (titleFormat textFormat : string)
    (tagKeys : list string) (result : list Series) (eventList : list AnnotationEvent) :
  truthy (annotation_useValueForTime annotation) = false ->
  map event_time (eachSeries annotation titleFormat textFormat tagKeys result eventList) =
  map event_time eventList ++
  flat_map
    (fun series =>
       map (fun v => Int (Qfloor (fst v) * 1000))
           (List.filter (fun v => String.eqb (snd v) "1") (series_values series)))
    result.
Proof.
  intros Huse. revert eventList.
  induction result as [| series rest IH]; intros eventList.
  - cbn. rewrite app_nil_r. reflexivity.
  - cbn [eachSeries flat_map]. rewrite IH.
    rewrite seriesEvents_valueIsTrue by exact Huse.
    rewrite map_app, map_map, <- app_assoc. reflexivity.
Qed.

(** X18. Without [useValueForTime] there is one event for every sample
    whose value is the string [1], in the order of the response and with
    no deduplication; its time is the floored sample time in
    milliseconds. Samples with any other value give no event. *)
Theorem annotationQuery_value_is_true (annotation : Annotation) (result : list Series) :
  truthy (annotation_useValueForTime annotation) = false ->
  map event_time (annotationEvents annotation result) =
  flat_map
    (fun series =>
       map (fun v => Int (Qfloor (fst v) * 1000))
           (List.filter (fun v => String.eqb (snd v) "1") (series_values series)))
    result.
Proof.
  intros Huse. unfold annotationEvents.
  rewrite eachSeries_valueIsTrue by exact Huse. reflexivity.
Qed.

(** X19. An annotation without expression is answered with no events and
    no request. *)
Theorem annotationQuery_without_expr (ds : PrometheusDatasource) (annotation : Annotation)
    (options : DataQueryRequest) (w : world) :
  falsy_string (annotation_expr annotation) = true ->
  annotationQuery ds annotation options w = (Normal (Resolved []), w).
Proof.
  intros Hexpr. unfold annotationQuery.
  destruct (annotation_expr annotation) as [expr |]; cbn [falsy_string] in Hexpr;
    cbn [from_option id].
  - rewrite Hexpr. reflexivity.
  - reflexivity.
Qed.

(** What [annotationQuery] does with an expression and a valid range. *)
Lemma annotationQuery_run (ds : PrometheusDatasource) (annotation : Annotation)
    (options : DataQueryRequest) (w : world) :
  falsy_string (annotation_expr annotation) = false ->
  getPrometheusTime (range_from (options_range options)) false
  <= getPrometheusTime (range_to (options_range options)) true ->
  exists (sent : httpOptions) (query : PromQueryRequest),
    query_refId query = "X" /\
    requests (snd (annotationQuery ds annotation options w)) = requests w ++ [sent] /\
    fst (annotationQuery ds annotation options w) =
    Normal
      (then_ (catch (fst (backendSrv_datasourceRequest w sent))
                (fun err => handleErrors err query))
         (fun results =>
            if nullish results || nullish (prop results "data")
               || nullish (prop (prop results "data") "data")
            then Throw TypeError
            else
              match rowsOf (prop (prop (prop results "data") "data") "result") with
              | Some rows => Normal (annotationEvents annotation rows)
              | None =>
                  looseAnnotationEvents annotation
                    (prop (prop (prop results "data") "data") "result")
              end)).
Proof.
  intros Hexpr Horder. unfold annotationQuery.
  destruct (annotation_expr annotation) as [expr |]; [| discriminate].
  cbn [falsy_string] in Hexpr. cbn [from_option id]. rewrite Hexpr.
  match goal with
  | |- context [performTimeSeriesQuery ds ?q (query_start ?q) (query_end ?q)] =>
      destruct (performTimeSeriesQuery_sends ds q (query_start q) (query_end q) w)
        as (sent & Hrun);
      [apply createQuery_ordered; exact Horder |];
      exists sent, q
  end.
  split; [reflexivity |].
  unfold mbind, M_bind. rewrite Hrun. cbn [fst snd mret M_ret requests].
  split; reflexivity.
Qed.

(** X20. With an expression and a range whose start does not exceed its
    end, [annotationQuery] does not throw: it returns a promise, having
    sent exactly one request. When the backend answers with a
    [data.data] whose [result] is an array of well-formed rows (or is
    missing), the promise resolves to the events of those rows. *)
Theorem annotationQuery_resolves (ds : PrometheusDatasource) (annotation : Annotation)
    (options : DataQueryRequest) (w : world) :
  falsy_string (annotation_expr annotation) = false ->
  getPrometheusTime (range_from (options_range options)) false
  <= getPrometheusTime (range_to (options_range options)) true ->
  exists (settled : promise (list AnnotationEvent)) (sent : httpOptions),
    fst (annotationQuery ds annotation options w) = Normal settled /\
    requests (snd (annotationQuery ds annotation options w)) = requests w ++ [sent] /\
    forall (results : value) (rows : list Series),
      fst (backendSrv_datasourceRequest w sent) = Resolved results ->
      nullish (prop results "data") || nullish (prop (prop results "data") "data") = false ->
      rowsOf (prop (prop (prop results "data") "data") "result") = Some rows ->
      settled = Resolved (annotationEvents annotation rows).
Proof.
  intros Hexpr Horder.
  destruct (annotationQuery_run ds annotation options w Hexpr Horder)
    as (sent & query & _ & Hrequests & Hfst).
  eexists _, sent. split; [exact Hfst |]. split; [exact Hrequests |].
  intros results rows Hresolved Hdata Hrows. rewrite Hresolved.
  cbn [catch then_]. rewrite Hrows.
  assert (nullish results = false) as ->.
  { destruct results; try reflexivity; cbn in Hdata; discriminate. }
  cbn [orb]. rewrite Hdata. reflexivity.
Qed.

(** X21. A cancelled annotation request is not passed by: the cancelled
    error is handed to the callback as if it were a response, and when it
    has no [data] the promise is rejected with a [TypeError]. *)
Theorem annotationQuery_cancelled (ds : PrometheusDatasource) (annotation : Annotation)
    (options : DataQueryRequest) (w : world) :
  falsy_string (annotation_expr annotation) = false ->
  getPrometheusTime (range_from (options_range options)) false
  <= getPrometheusTime (range_to (options_range options)) true ->
  (forall sent : httpOptions,
   exists err : value,
     fst (backendSrv_datasourceRequest w sent) = Rejected err /\
     truthy (prop err "cancelled") = true /\
     prop err "data" = VUndefined) ->
  fst (annotationQuery ds annotation options w) = Normal (Rejected TypeError).
Proof.
  intros Hexpr Horder Hcancelled.
  destruct (annotationQuery_run ds annotation options w Hexpr Horder)
    as (sent & query & _ & _ & Hfst).
  destruct (Hcancelled sent) as (err & Hrejected & Htruthy & Hdata).
  rewrite Hfst, Hrejected. cbn [catch].
  rewrite (handleErrors_cancelled err query Htruthy). cbn [then_].
  rewrite Hdata. cbn [nullish]. rewrite orb_true_r. reflexivity.
Qed.

End AnnotationProperties.

(** ** Escaping *)

Lemma length_append (a b : string) :
  String.length (a +:+ b) = (String.length a + String.length b)%nat.
Proof.
  induction a as [| c a IH]; simpl; [reflexivity | f_equal; exact IH].
Qed.

Lemma occurrences_append (c : Ascii.ascii) (a b : string) :
  occurrences c (a +:+ b) = (occurrences c a + occurrences c b)%nat.
Proof.
  induction a as [| c' a IH]; simpl; [reflexivity | rewrite IH; lia].
Qed.

Lemma replace_each_unchanged (f : Ascii.ascii -> string) (test : Ascii.ascii -> bool)
    (s : string) :
  (forall c, test c = true -> f c = String c EmptyString) ->
  every_char test s = true ->
  replace_each f s = s.
Proof.
  intros Hf. induction s as [| c rest IH]; cbn; [reflexivity |].
  intros Hevery. apply andb_true_iff in Hevery. destruct Hevery as [Hc Hrest].
  rewrite (Hf c Hc), (IH Hrest). reflexivity.
Qed.

Lemma append_associative (a b c : string) : (a +:+ b) +:+ c = a +:+ (b +:+ c).
Proof.
  induction a as [| x a IH]; [reflexivity |].
  change (String x ((a +:+ b) +:+ c) = String x (a +:+ (b +:+ c))).
  rewrite IH. reflexivity.
Qed.

Lemma replace_each_append (f : Ascii.ascii -> string) (a b : string) :
  replace_each f (a +:+ b) = replace_each f a +:+ replace_each f b.
Proof.
  induction a as [| c a IH]; simpl; [reflexivity |].
  rewrite IH, append_associative. reflexivity.
Qed.

(** X22. [prometheusRegularEscape] puts two backslashes before every
    apostrophe and changes nothing else. Character by character: the
    empty string stays empty, an apostrophe becomes backslash, backslash,
    apostrophe, every other character stays, each followed by the escaped
    rest; so the escape of a concatenation is the concatenation of the
    escapes, the result is longer by twice the number of apostrophes and
    has as many apostrophes, and a string without apostrophe comes back
    as it is. A value that is not a string comes back as it is. *)
Theorem prometheusRegularEscape_apostrophes :
  let text (v : value) : string := match v with VStr s => s | _ => EmptyString end in
  let bs : Ascii.ascii := Ascii.ascii_of_nat 92 in
  prometheusRegularEscape (VStr EmptyString) = VStr EmptyString /\
  (forall (c : Ascii.ascii) (rest : string),
     prometheusRegularEscape (VStr (String c rest)) =
     VStr (if Ascii.eqb c "'"%char
           then String bs
                  (String bs (String "'"%char (text (prometheusRegularEscape (VStr rest)))))
           else String c (text (prometheusRegularEscape (VStr rest))))) /\
  (forall a b : string,
     prometheusRegularEscape (VStr (a +:+ b)) =
     VStr (text (prometheusRegularEscape (VStr a))
           +:+ text (prometheusRegularEscape (VStr b)))) /\
  (forall s : string,
     exists escaped : string,
       prometheusRegularEscape (VStr s) = VStr escaped /\
       String.length escaped = (String.length s + 2 * occurrences "'"%char s)%nat /\
       occurrences "'"%char escaped = occurrences "'"%char s /\
       (occurrences "'"%char s = 0%nat -> escaped = s)) /\
  (forall v : value, (forall s : string, v <> VStr s) -> prometheusRegularEscape v = v).
Proof.
  intros text bs. subst text bs.
  split; [reflexivity |]. split.
  { intros c rest. cbn [prometheusRegularEscape replace_each].
    destruct (Ascii.eqb c "'"%char); reflexivity. }
  split.
  { intros a b. cbn [prometheusRegularEscape]. f_equal. apply replace_each_append. }
  split.
  - intros s. eexists. split; [reflexivity |].
    induction s as [| c rest (Hlength & Hcount & Hsame)]; cbn [replace_each occurrences].
    + repeat split.
    + rewrite length_append, occurrences_append, Hlength, Hcount.
      destruct (Ascii.eqb c "'"%char) eqn:Hc.
      * apply Ascii.eqb_eq in Hc. subst c.
        change (String.length (backslash +:+ backslash +:+ "'")) with 3%nat.
        change (occurrences "'"%char (backslash +:+ backslash +:+ "'")) with 1%nat.
        cbn [String.length]. repeat split; lia.
      * cbn [String.length occurrences]. rewrite Hc.
        repeat split; try lia.
        intros Hnone. cbn [append]. rewrite (Hsame Hnone). reflexivity.
  - intros v Hv. destruct v; try reflexivity. exfalso. eapply Hv. reflexivity.
Qed.

(** [it's] becomes [it], two backslashes, ['s]. *)
Example prometheusRegularEscape_example :
  prometheusRegularEscape (VStr "it's")
  = VStr (String "i" (String "t"
            (String (Ascii.ascii_of_nat 92) (String (Ascii.ascii_of_nat 92) "'s")))).
Proof. reflexivity. Qed.

Lemma plain_char_quote_free (s : string) :
  every_char plain_char s = true ->
  every_char (fun c => negb (Ascii.eqb c (Ascii.ascii_of_nat 92))) s = true /\
  every_char (fun c => negb (mem_char c "$^*{}[]+?.()|")) s = true.
Proof.
  induction s as [| c rest IH]; cbn [every_char]; [auto |].
  intros Hevery. apply andb_true_iff in Hevery. destruct Hevery as [Hc Hrest].
  unfold plain_char in Hc. apply andb_true_iff in Hc. destruct Hc as [Hb Hs].
  destruct (IH Hrest) as [-> ->]. rewrite Hb, Hs. auto.
Qed.

Lemma special_escape_plain (s : string) :
  every_char plain_char s = true ->
  prometheusSpecialRegexEscape (VStr s) = prometheusRegularEscape (VStr s).
Proof.
  intros Hplain. destruct (plain_char_quote_free s Hplain) as [Hbackslash Hspecial].
  unfold prometheusSpecialRegexEscape.
  rewrite (replace_each_unchanged _
             (fun c => negb (Ascii.eqb c (Ascii.ascii_of_nat 92))) s);
    [| intros c Hc; apply negb_true_iff in Hc; rewrite Hc; reflexivity
     | exact Hbackslash].
  rewrite (replace_each_unchanged _
             (fun c => negb (mem_char c "$^*{}[]+?.()|")) s);
    [| intros c Hc; apply negb_true_iff in Hc; rewrite Hc; reflexivity
     | exact Hspecial].
  reflexivity.
Qed.

(** X23. On a string without backslash and without a character that is
    special in a regular expression, [prometheusSpecialRegexEscape] does
    what [prometheusRegularEscape] does; [interpolateQueryExpr] therefore
    gives the same text for such a value whether or not the variable is
    multi-valued or includes all. *)
Theorem interpolateQueryExpr_plain_value `{host : !Services} (s : string)
    (variable : TemplateVariable) :
  every_char plain_char s = true ->
  prometheusSpecialRegexEscape (VStr s) = prometheusRegularEscape (VStr s) /\
  interpolateQueryExpr (VStr s) variable = prometheusRegularEscape (VStr s).
Proof.
  intros Hplain. split; [apply special_escape_plain; exact Hplain |].
  unfold interpolateQueryExpr.
  destruct (negb (truthy (variable_multi variable))
            && negb (truthy (variable_includeAll variable))); [reflexivity |].
  apply special_escape_plain. exact Hplain.
Qed.

(** X24. The seconds [getPrometheusTime] gives for a moment are whole,
    not before the moment and less than a second after it; the [roundUp]
    flag plays no part for a moment. *)
Theorem getPrometheusTime_moment `{host : !Services} (ms : Q) (roundUp : bool) :
  (exists seconds : Z, getPrometheusTime (Moment ms) roundUp = inject_Z seconds) /\
  ms <= getPrometheusTime (Moment ms) roundUp * 1000 /\
  getPrometheusTime (Moment ms) roundUp * 1000 < ms + 1000 /\
  getPrometheusTime (Moment ms) roundUp = getPrometheusTime (Moment ms) (negb roundUp).
Proof.
  unfold getPrometheusTime, Math_ceil.
  pose proof (Qle_ceiling (ms / 1000)) as Hle.
  pose proof (Qceiling_lt (ms / 1000)) as Hlt.
  assert (inject_Z (Qceiling (ms / 1000) - 1) == inject_Z (Qceiling (ms / 1000)) - 1) as Hminus.
  { unfold Z.sub. rewrite inject_Z_plus. reflexivity. }
  rewrite Hminus in Hlt.
  assert (ms == ms / 1000 * 1000) as Hms by (field; lra).
  split; [eexists; reflexivity |].
  repeat split; lra.
Qed.

(** ** The combined result of [query] *)

Section CombinedResult.

Context `{host : !Services}.

Lemma zip_zip_nil_r {A B C : Type} (l : list A) (m : list B) :
  zip l (zip m (@nil C)) = [].
Proof. destruct m; destruct l; reflexivity. Qed.

Lemma zip_zip_nil_l {A B C : Type} (l : list A) (m : list C) :
  zip l (zip (@nil B) m) = [].
Proof. destruct l; reflexivity. Qed.

Lemma eachResponse_zip (queries : list PromQueryRequest) (activeTargets : list PromQuery)
    (responseList : list value) (index : nat) (result : list value) :
  Forall (fun response => nullish response = false) responseList ->
  eachResponse queries activeTargets responseList index result =
  Normal
    (result ++
     flat_map (responseSeries (length queries))
       (zip responseList (zip (drop index queries) (drop index activeTargets)))).
Proof.
  intros Hresponses. revert index result.
  induction Hresponses as [| response rest Hresponse _ IH]; intros index result.
  - cbn. rewrite app_nil_r. reflexivity.
  - cbn [eachResponse]. rewrite Hresponse.
    destruct (queries !! index) as [query |] eqn:Hquery.
    + destruct (activeTargets !! index) as [target |] eqn:Htarget.
      * rewrite (drop_S _ _ _ Hquery), (drop_S _ _ _ Htarget).
        cbn [zip zip_with flat_map].
        assert (responseSeries (length queries) (response, (query, target)) =
                if truthy (prop response "cancelled") then []
                else processResult response query target (length queries)) as ->
          by reflexivity.
        destruct (truthy (prop response "cancelled")); rewrite IH.
        -- reflexivity.
        -- rewrite <- app_assoc. reflexivity.
      * apply lookup_ge_None in Htarget.
        assert (eachResponse queries activeTargets rest (S index) result = Normal result)
          as Hrest.
        { rewrite IH, (drop_ge activeTargets (S index)) by lia.
          rewrite zip_zip_nil_r. cbn. rewrite app_nil_r. reflexivity. }
        rewrite (drop_ge activeTargets index) by lia.
        rewrite zip_zip_nil_r. cbn [flat_map]. rewrite app_nil_r.
        destruct (truthy (prop response "cancelled")); exact Hrest.
    + apply lookup_ge_None in Hquery.
      assert (eachResponse queries activeTargets rest (S index) result = Normal result)
        as Hrest.
      { rewrite IH, (drop_ge queries (S index)) by lia.
        rewrite zip_zip_nil_l. cbn. rewrite app_nil_r. reflexivity. }
      rewrite (drop_ge queries index) by lia.
      rewrite zip_zip_nil_l. cbn [flat_map]. rewrite app_nil_r.
      destruct (truthy (prop response "cancelled")); [exact Hrest |].
      destruct (activeTargets !! index); exact Hrest.
Qed.

Lemma eachResponse_nullish (queries : list PromQueryRequest)
    (activeTargets : list PromQuery) (responseList : list value) (index : nat)
    (result : list value) :
  Exists (fun response => nullish response = true) responseList ->
  eachResponse queries activeTargets responseList index result = Throw TypeError.
Proof.
  intros Hnullish. revert index result.
  induction Hnullish as [response rest Hresponse | response rest _ IH];
    intros index result; cbn [eachResponse].
  - rewrite Hresponse. reflexivity.
  - destruct (nullish response); [reflexivity |].
    destruct (truthy (prop response "cancelled")); [apply IH |].
    destruct (activeTargets !! index), (queries !! index); apply IH.
Qed.

(** X25. The result that [query] combines from the responses is the
    series of every response that is not cancelled, in the order of the
    queries, each transformed with its own query and target; a response
    that is [null] or [undefined] makes the combination throw. *)
Theorem eachResponse_in_query_order (queries : list PromQueryRequest)
    (activeTargets : list PromQuery) (responseList : list value) :
  (Forall (fun response => nullish response = false) responseList ->
   eachResponse queries activeTargets responseList 0 [] =
   Normal (flat_map (responseSeries (length queries))
             (zip responseList (zip queries activeTargets)))) /\
  (Exists (fun response => nullish response = true) responseList ->
   eachResponse queries activeTargets responseList 0 [] = Throw TypeError).
Proof.
  split.
  - intros Hresponses. rewrite eachResponse_zip by exact Hresponses.
    rewrite !drop_0. reflexivity.
  - apply eachResponse_nullish.
Qed.

End CombinedResult.

(** ** Recording rules *)

Lemma rule_inserts_lookup (rules : list Rule) (mapping : gmap string string)
    (name : string) :
  fold_left (fun acc rule => <[rule_name rule := rule_query rule]> acc) rules mapping
    !! name =
  match last (List.filter (fun rule => String.eqb (rule_name rule) name) rules) with
  | Some rule => Some (rule_query rule)
  | None => mapping !! name
  end.
Proof.
  revert mapping. induction rules as [| rule rest IH]; intros mapping.
  - reflexivity.
  - cbn [fold_left List.filter]. rewrite IH.
    destruct (String.eqb (rule_name rule) name) eqn:Hname.
    + rewrite last_cons.
      destruct (last (List.filter _ rest)); [reflexivity |].
      apply String.eqb_eq in Hname. rewrite <- Hname. apply lookup_insert_eq.
    + destruct (last (List.filter _ rest)); [reflexivity |].
      apply String.eqb_neq in Hname. apply lookup_insert_ne. exact Hname.
Qed.

Lemma extractRuleMapping_flat (groups : list RuleGroup) (mapping : gmap string string) :
  fold_left
    (fun mapping group =>
       fold_left
         (fun acc rule => <[rule_name rule := rule_query rule]> acc)
         (List.filter isRecording (group_rules group))
         mapping)
    groups mapping =
  fold_left (fun acc rule => <[rule_name rule := rule_query rule]> acc)
    (recordingRules groups) mapping.
Proof.
  revert mapping. induction groups as [| group rest IH]; intros mapping.
  - reflexivity.
  - cbn [fold_left recordingRules flat_map]. rewrite IH, fold_left_app. reflexivity.
Qed.

(** X26. [extractRuleMappingFromGroups] maps a name to the query of the
    last recording rule with that name, over all groups in order; a name
    that no recording rule has is not in the mapping, whatever rules of
    other types carry it. *)
Theorem extractRuleMappingFromGroups_lookup (groups : list RuleGroup) (name : string) :
  extractRuleMappingFromGroups groups !! name =
  rule_query <$>
    last (List.filter (fun rule => String.eqb (rule_name rule) name)
            (recordingRules groups)).
Proof.
  unfold extractRuleMappingFromGroups.
  rewrite extractRuleMapping_flat, rule_inserts_lookup.
  destruct (last _); [reflexivity | apply lookup_empty].
Qed.

(** ** Label names and values *)

(** X27. [getTagValues] sends one silent GET to
    [/api/v1/label/<key>/values], the key being put into the path as it
    is. A response with data resolves to its values, each wrapped as
    [{ text: value }] in the same order; a rejection is passed on as it
    is, not normalised by [handleErrors]. *)
Theorem getTagValues_texts `{host : !Services} (ds : PrometheusDatasource) (key : string)
    (w : world) :
  exists sent : httpOptions,
    requests (snd (getTagValues ds key w)) = requests w ++ [sent] /\
    http_url sent = ds_url ds +:+ "/api/v1/label/" +:+ key +:+ "/values" /\
    http_method sent = "GET" /\
    match fst (backendSrv_datasourceRequest w sent) with
    | Rejected e => fst (getTagValues ds key w) = Rejected e
    | Resolved result =>
        if nullish result || nullish (prop result "data")
        then fst (getTagValues ds key w) = Rejected TypeError
        else fst (getTagValues ds key w) =
             Resolved (map (fun v => VObj [("text", v)])
                         (lodash_items (prop (prop result "data") "data")))
    end.
Proof.
  unfold getTagValues, metadataRequest.
  match goal with
  | |- context [_request ds ?url ?data ?options] =>
      destruct (_request_sends ds url data options w)
        as (sent & Hrun & Hmethod & Hsent)
  end.
  cbn in Hmethod. rewrite Hmethod in Hsent. cbn in Hsent. destruct Hsent as [Hurl _].
  exists sent. unfold mbind, M_bind, mret, M_ret. rewrite Hrun. cbn [fst snd requests].
  split; [reflexivity |]. split; [exact Hurl |]. split; [exact Hmethod |].
  destruct (fst (backendSrv_datasourceRequest w sent)) as [result | e]; cbn [then_].
  - unfold labelTexts. destruct (nullish result || nullish (prop result "data")); reflexivity.
  - reflexivity.
Qed.

(** ** The app plugin *)

Lemma hasPage_cons (include : PluginInclude) (rest : list PluginInclude) (name : string) :
  hasPage (include :: rest) name =
  bool_decide (pageComponent include = Some name) || hasPage rest name.
Proof. reflexivity. Qed.

Lemma assignPage_lookup (pages : gmap string value) (component : string) (exp : value)
    (name : string) :
  assignPage pages component exp !! name =
  if bool_decide (component = name) && negb (String.eqb name "__proto__")
  then Some exp else pages !! name.
Proof.
  unfold assignPage. case_bool_decide as Hname.
  - subst component. destruct (String.eqb name "__proto__"); cbn [andb negb].
    + reflexivity.
    + apply lookup_insert_eq.
  - cbn [andb]. destruct (String.eqb component "__proto__"); [reflexivity |].
    apply lookup_insert_ne. exact Hname.
Qed.

Lemma registerPages_lookup (pluginExports : string -> value)
    (includes : list PluginInclude) (angularPages : option (gmap string value))
    (warned : list string) (name : string) :
  fst (registerPages pluginExports includes angularPages warned)
    ≫= (fun pages => pages !! name) =
  if hasPage includes name && truthy (pluginExports name)
     && negb (String.eqb name "__proto__")
  then Some (pluginExports name)
  else angularPages ≫= (fun pages => pages !! name).
Proof.
  revert angularPages warned.
  induction includes as [| include rest IH]; intros angularPages warned.
  - reflexivity.
  - cbn [registerPages]. rewrite hasPage_cons. unfold exported.
    destruct (pageComponent include) as [component |] eqn:Hcomponent.
    + destruct (truthy (pluginExports component)) eqn:Hexp; cbn [negb].
      * rewrite IH.
        destruct (hasPage rest name && truthy (pluginExports name)
                  && negb (String.eqb name "__proto__")) eqn:Hrest.
        -- apply andb_true_iff in Hrest. destruct Hrest as [Hrest Hproto].
           apply andb_true_iff in Hrest. destruct Hrest as [Hhas Htruthy].
           rewrite Hhas, Htruthy, Hproto, orb_true_r. reflexivity.
        -- cbn [mbind option_bind]. rewrite assignPage_lookup.
           destruct (decide (component = name)) as [-> | Hname].
           ++ rewrite !bool_decide_eq_true_2 by reflexivity.
              rewrite Hexp. cbn [orb andb].
              destruct (String.eqb name "__proto__"); cbn [negb]; [| reflexivity].
              destruct angularPages; [reflexivity | apply lookup_empty].
           ++ rewrite (bool_decide_eq_false_2 (component = name)) by exact Hname.
              rewrite (bool_decide_eq_false_2 (Some component = Some name)) by congruence.
              cbn [orb andb]. rewrite Hrest.
              destruct angularPages; [reflexivity | apply lookup_empty].
      * rewrite IH.
        destruct (decide (component = name)) as [-> | Hname].
        -- rewrite Hexp, !andb_false_r. reflexivity.
        -- rewrite (bool_decide_eq_false_2 (Some component = Some name)) by congruence.
           reflexivity.
    + rewrite IH. rewrite bool_decide_eq_false_2 by discriminate. reflexivity.
Qed.

Lemma registerPages_warned (pluginExports : string -> value)
    (includes : list PluginInclude) (angularPages : option (gmap string value))
    (warned : list string) :
  snd (registerPages pluginExports includes angularPages warned) =
  warned ++
  List.filter (fun component => negb (truthy (pluginExports component)))
    (omap pageComponent includes).
Proof.
  revert angularPages warned.
  induction includes as [| include rest IH]; intros angularPages warned.
  - cbn. rewrite app_nil_r. reflexivity.
  - cbn [registerPages omap list_omap]. unfold exported.
    destruct (pageComponent include) as [component |].
    + cbn [List.filter].
      destruct (truthy (pluginExports component)); cbn [negb]; rewrite IH.
      * reflexivity.
      * rewrite <- app_assoc. reflexivity.
    + apply IH.
Qed.

(** X28. After [setComponentsFromLegacyExports] the page registered under
    a name is what the exports answer to that name (an own export or an
    inherited property) when some include is a page with that component
    and the answer is truthy, and what it was before otherwise; the name
    [__proto__] gets no page. The components warned about are those of
    the pages to which the exports answer nothing truthy, in the order of
    the includes. *)
Theorem setComponentsFromLegacyExports_pages (plugin : AppPlugin)
    (pluginExports : string -> value) (name : string) :
  let includes := default [] (plugin_meta plugin ≫= meta_includes) in
  angularPage (fst (setComponentsFromLegacyExports plugin pluginExports)) name =
  (if hasPage includes name && truthy (pluginExports name)
      && negb (String.eqb name "__proto__")
   then Some (pluginExports name)
   else angularPage plugin name) /\
  snd (setComponentsFromLegacyExports plugin pluginExports) =
  List.filter (fun component => negb (truthy (pluginExports component)))
    (omap pageComponent includes).
Proof.
  intros includes. subst includes.
  unfold setComponentsFromLegacyExports, angularPage.
  destruct (plugin_meta plugin ≫= meta_includes) as [includes |].
  - pose proof (registerPages_lookup pluginExports includes (plugin_angularPages plugin)
                  [] name) as Hlookup.
    pose proof (registerPages_warned pluginExports includes (plugin_angularPages plugin)
                  []) as Hwarned.
    destruct (registerPages pluginExports includes (plugin_angularPages plugin) [])
      as [pages warned].
    cbn [fst snd plugin_angularPages default from_option id] in *. auto.
  - cbn. auto.
Qed.

(** A page component [constructor] with exports that export nothing: the
    inherited [Object] is registered and nothing is said about it; the
    component [Missing] is warned about. *)
Example setComponentsFromLegacyExports_inherited :
  angularPage (fst (setComponentsFromLegacyExports constructorPlugin emptyExports))
    "constructor" = Some ObjectConstructor /\
  snd (setComponentsFromLegacyExports constructorPlugin emptyExports) = ["Missing"].
Proof. split; vm_compute; reflexivity. Qed.

Lemma registerPages_none (pluginExports : string -> value)
    (includes : list PluginInclude) (angularPages : option (gmap string value))
    (warned : list string) :
  fst (registerPages pluginExports includes angularPages warned) = None <->
  angularPages = None /\
  Forall (fun include =>
            forall component, pageComponent include = Some component ->
                              truthy (pluginExports component) = false)
         includes.
Proof.
  revert angularPages warned.
  induction includes as [| include rest IH]; intros angularPages warned.
  - cbn. split; [intros ->; split; [reflexivity | constructor] | tauto].
  - cbn [registerPages]. rewrite Forall_cons. unfold exported.
    destruct (pageComponent include) as [component |] eqn:Hcomponent.
    + destruct (truthy (pluginExports component)) eqn:Hexp; cbn [negb];
        rewrite IH.
      * split; [intros [Hsome _]; discriminate |].
        intros [_ [Hfalse _]]. specialize (Hfalse component eq_refl). congruence.
      * split.
        -- intros [-> Hrest]. repeat split; [| exact Hrest].
           intros c [= <-]. exact Hexp.
        -- intros [-> [_ Hrest]]. auto.
    + rewrite IH. split.
      * intros [-> Hrest]. repeat split; [discriminate | exact Hrest].
      * intros [-> [_ Hrest]]. auto.
Qed.

Lemma pages_ext (a b : option (gmap string value)) :
  (a = None <-> b = None) ->
  (forall name : string,
     a ≫= (fun pages => pages !! name) = b ≫= (fun pages => pages !! name)) ->
  a = b.
Proof.
  intros Hnone Hlookup. destruct a as [ma |], b as [mb |].
  - f_equal. apply map_eq. intros name. exact (Hlookup name).
  - destruct Hnone as [_ Hnone]. specialize (Hnone eq_refl). discriminate.
  - destruct Hnone as [Hnone _]. specialize (Hnone eq_refl). discriminate.
  - reflexivity.
Qed.

Lemma registerPages_again (pluginExports : string -> value)
    (includes : list PluginInclude) (angularPages : option (gmap string value))
    (warned warned' : list string) :
  fst (registerPages pluginExports includes
         (fst (registerPages pluginExports includes angularPages warned)) warned') =
  fst (registerPages pluginExports includes angularPages warned).
Proof.
  apply pages_ext.
  - rewrite (registerPages_none pluginExports includes
               (fst (registerPages pluginExports includes angularPages warned))).
    split; [tauto |].
    intros Hnone. split; [exact Hnone |].
    apply registerPages_none in Hnone. tauto.
  - intros name. rewrite !registerPages_lookup.
    destruct (hasPage includes name && truthy (pluginExports name)
              && negb (String.eqb name "__proto__")); reflexivity.
Qed.

(** X29. [setComponentsFromLegacyExports] may be called again on the same
    instance: a second call with the same exports changes nothing and
    warns about the same components. *)
Theorem setComponentsFromLegacyExports_idempotent (plugin : AppPlugin)
    (pluginExports : string -> value) :
  setComponentsFromLegacyExports
    (fst (setComponentsFromLegacyExports plugin pluginExports)) pluginExports =
  setComponentsFromLegacyExports plugin pluginExports.
Proof.
  unfold setComponentsFromLegacyExports.
  destruct (plugin_meta plugin ≫= meta_includes) as [includes |] eqn:Hincludes.
  - pose proof (registerPages_again pluginExports includes (plugin_angularPages plugin)
                  [] []) as Hagain.
    pose proof (registerPages_warned pluginExports includes (plugin_angularPages plugin)
                  []) as Hwarned.
    destruct (registerPages pluginExports includes (plugin_angularPages plugin) [])
      as [pages warned] eqn:Hfirst.
    cbn [fst snd plugin_meta plugin_angularPages plugin_angularConfigCtrl
         plugin_root plugin_rootNav] in *.
    rewrite Hincludes.
    pose proof (registerPages_warned pluginExports includes pages []) as Hwarned'.
    destruct (registerPages pluginExports includes pages []) as [pages' warned'].
    cbn [fst snd] in *. subst pages' warned' warned.
    destruct (truthy (exported pluginExports "ConfigCtrl")); reflexivity.
  - cbn [fst plugin_meta plugin_angularPages plugin_angularConfigCtrl
         plugin_root plugin_rootNav].
    rewrite Hincludes.
    destruct (truthy (exported pluginExports "ConfigCtrl")); reflexivity.
Qed.

(** X30. [setComponentsFromLegacyExports] creates [angularPages] only
    when it registers a page: a plugin without pages is left without
    [angularPages] exactly when the exports answer nothing truthy to the
    component of any of its pages (own or inherited: with a page
    [constructor] an ordinary object answers [Object], and the pages are
    created), and [ConfigCtrl] replaces the config controller exactly
    when the exports answer to it with something truthy. *)
Theorem setComponentsFromLegacyExports_no_pages (plugin : AppPlugin)
    (pluginExports : string -> value) :
  let includes := default [] (plugin_meta plugin ≫= meta_includes) in
  let after := fst (setComponentsFromLegacyExports plugin pluginExports) in
  (plugin_angularPages after = None <->
   plugin_angularPages plugin = None /\
   forall name : string,
     hasPage includes name && truthy (pluginExports name) = false) /\
  plugin_angularConfigCtrl after =
  (if truthy (pluginExports "ConfigCtrl")
   then pluginExports "ConfigCtrl"
   else plugin_angularConfigCtrl plugin).
Proof.
  intros includes after. subst includes after.
  unfold setComponentsFromLegacyExports.
  assert (forall includes : list PluginInclude,
            Forall (fun include =>
                      forall component, pageComponent include = Some component ->
                                        truthy (pluginExports component) = false)
                   includes <->
            forall name : string,
              hasPage includes name && truthy (pluginExports name) = false)
    as Hforall.
  { intros includes. rewrite Forall_forall. split.
    - intros Hall name.
      destruct (hasPage includes name) eqn:Hhas; [| reflexivity].
      unfold hasPage in Hhas. apply existsb_exists in Hhas.
      destruct Hhas as (include & Hin & Hcomponent).
      apply bool_decide_eq_true in Hcomponent.
      apply list_elem_of_In in Hin. cbn [andb]. exact (Hall include Hin name Hcomponent).
    - intros Hnone include Hin component Hcomponent.
      specialize (Hnone component).
      assert (hasPage includes component = true) as Hhas.
      { unfold hasPage. apply existsb_exists. exists include.
        split; [apply list_elem_of_In; exact Hin |].
        apply bool_decide_eq_true. exact Hcomponent. }
      rewrite Hhas in Hnone. exact Hnone. }
  destruct (plugin_meta plugin ≫= meta_includes) as [includes |].
  - pose proof (registerPages_none pluginExports includes (plugin_angularPages plugin) [])
      as Hnone.
    destruct (registerPages pluginExports includes (plugin_angularPages plugin) [])
      as [pages warned].
    cbn [fst plugin_angularPages plugin_angularConfigCtrl default from_option id] in *.
    rewrite Hnone, Hforall. split; reflexivity.
  - cbn. split; [| reflexivity]. split; [auto | tauto].
Qed.

(** With exports that export nothing and a page [constructor] the pages
    are created. *)
Example setComponentsFromLegacyExports_creates_pages :
  plugin_angularPages (fst (setComponentsFromLegacyExports constructorPlugin emptyExports))
  = Some {[ "constructor" := ObjectConstructor ]}.
Proof. vm_compute. reflexivity. Qed.

(** ** The further properties on the example host *)

Lemma createQuery_range_is_valid_witness :
  0 <= 3600 /\
  query_start (createQuery (host := exampleHost) exampleDatasource
                 (exampleTarget "up" false) (exampleOptions []) 0 3600)
  <= query_end (createQuery (host := exampleHost) exampleDatasource
                  (exampleTarget "up" false) (exampleOptions []) 0 3600).
Proof.
  assert (0 <= 3600) as Horder by (vm_compute; discriminate).
  split; [exact Horder |].
  exact (proj1 (createQuery_range_is_valid (host := exampleHost) exampleDatasource
                  (exampleTarget "up" false) (exampleOptions []) 0 3600 exampleWorld
                  Horder)).
Defined.

Lemma createQuery_point_ceiling_witness :
  correctly_rounded binary64 /\
  interval_to_seconds (Services := exampleHost) (options_interval (exampleOptions []))
  == inject_Z 15 /\
  or_one (target_intervalFactor (exampleTarget "up" false)) == inject_Z 1 /\
  (0 <= 864000)%Z /\
  (query_step (createQuery (host := exampleHost) exampleDatasource
                 (exampleTarget "up" false) (exampleOptions []) 0 864000)
   == fst (queryWindow_rounded binary64 0 864000 15 15 1) /\
   query_start (createQuery (host := exampleHost) exampleDatasource
                  (exampleTarget "up" false) (exampleOptions []) 0 864000)
   == aligned_start (snd (queryWindow_rounded binary64 0 864000 15 15 1)) /\
   query_end (createQuery (host := exampleHost) exampleDatasource
                (exampleTarget "up" false) (exampleOptions []) 0 864000)
   == aligned_end (snd (queryWindow_rounded binary64 0 864000 15 15 1))) /\
  (query_end (createQuery (host := exampleHost) exampleDatasource
                (exampleTarget "up" false) (exampleOptions []) 0 864000)
   - query_start (createQuery (host := exampleHost) exampleDatasource
                    (exampleTarget "up" false) (exampleOptions []) 0 864000))
  / query_step (createQuery (host := exampleHost) exampleDatasource
                  (exampleTarget "up" false) (exampleOptions []) 0 864000)
  <= 11001.
Proof.
  assert (interval_to_seconds (Services := exampleHost)
            (options_interval (exampleOptions [])) == inject_Z 15) as Hinterval
    by reflexivity.
  assert (interval_to_seconds (Services := exampleHost)
            (or_string
               (templateSrv_replace (Services := exampleHost)
                  (target_interval (exampleTarget "up" false))
                  (options_scopedVars (exampleOptions [])) None)
               (options_interval (exampleOptions []))) == inject_Z 15) as Hmin
    by reflexivity.
  assert (or_one (target_intervalFactor (exampleTarget "up" false)) == inject_Z 1)
    as Hfactor by reflexivity.
  assert (0 < 15)%Z as Hpositive by reflexivity.
  assert (1 <= 1)%Z as Hone by (vm_compute; discriminate).
  assert (15 * 1 <= 2 ^ 36)%Z as Hscaled by (vm_compute; discriminate).
  assert (0 <= 15 <= 2 ^ 49)%Z as Hsmall by (split; vm_compute; discriminate).
  assert (0 <= 864000)%Z as Horder by (vm_compute; discriminate).
  assert (Z.abs 0 <= 2 ^ 49)%Z as Hstart by (vm_compute; discriminate).
  assert (Z.abs 864000 <= 2 ^ 49)%Z as Hend by (vm_compute; discriminate).
  split; [exact binary64_correctly_rounded |].
  repeat (split; [assumption |]).
  exact (createQuery_point_ceiling (host := exampleHost) binary64 exampleDatasource
           (exampleTarget "up" false) (exampleOptions []) 0 864000 15 15 1
           binary64_correctly_rounded
           Hinterval Hmin Hfactor Hpositive Hone Hscaled Hsmall Horder Hstart Hend).
Defined.

(** On doubles, with an interval and minimum interval of 1.1 seconds from
    33 to 12133: the step stays 1.1, the window is aligned to
    31.900000000000002 and 12133.000000000002, and spans more than 11001
    steps. *)
Example createQuery_binary64_window :
  Binary64.adjustInterval 1.1 1.1 12100 1 = 1.1%float /\
  Binary64.alignRange 33 12133 1.1
  = {| Binary64.aligned_end := 12133.000000000002;
       Binary64.aligned_start := 31.900000000000002 |} /\
  11001 < (Binary64.exact 12133.000000000002 - Binary64.exact 31.900000000000002)
          / Binary64.exact 1.1.
Proof.
  repeat split; vm_compute; reflexivity.
Qed.

(** The same window with the rounding on rationals. *)
Example queryWindow_rounded_exceeds :
  let window :=
    queryWindow_rounded binary64 33 12133 (binary64 (11 # 10)) (binary64 (11 # 10)) 1 in
  fst window == Binary64.exact 1.1 /\
  aligned_start (snd window) == Binary64.exact 31.900000000000002 /\
  aligned_end (snd window) == Binary64.exact 12133.000000000002 /\
  11001 < (aligned_end (snd window) - aligned_start (snd window)) / fst window.
Proof.
  repeat split; vm_compute; reflexivity.
Qed.

Lemma prepareTargets_active_witness :
  exampleTarget "up" false
    ∈ activeTargets (prepareTargets (host := exampleHost) exampleDatasource
                       (exampleOptions [exampleTarget "" false; exampleTarget "up" false])
                       0 3600) /\
  target_hide (exampleTarget "up" false) <> Some true.
Proof.
  assert (exampleTarget "up" false
            ∈ activeTargets (prepareTargets (host := exampleHost) exampleDatasource
                               (exampleOptions
                                  [exampleTarget "" false; exampleTarget "up" false])
                               0 3600)) as Hin.
  { apply list_elem_of_In. left. reflexivity. }
  split; [exact Hin |].
  exact (proj2 (prepareTargets_active (host := exampleHost) exampleDatasource
                  (exampleOptions [exampleTarget "" false; exampleTarget "up" false])
                  0 3600 (exampleTarget "up" false) Hin)).
Defined.

Lemma query_sends_every_query_witness :
  getPrometheusTime (host := exampleHost)
    (range_from (options_range (exampleOptions [exampleTarget "up" false]))) false
  <= getPrometheusTime (host := exampleHost)
       (range_to (options_range (exampleOptions [exampleTarget "up" false]))) true /\
  exists (result : promise QueryResult) (sent : list httpOptions),
    fst (query (host := exampleHost) exampleDatasource
           (exampleOptions [exampleTarget "up" false]) false exampleWorld)
    = Normal result /\
    requests (snd (query (host := exampleHost) exampleDatasource
                     (exampleOptions [exampleTarget "up" false]) false exampleWorld))
    = requests exampleWorld ++ sent /\
    length sent = 1%nat.
Proof.
  assert (getPrometheusTime (host := exampleHost)
            (range_from (options_range (exampleOptions [exampleTarget "up" false]))) false
          <= getPrometheusTime (host := exampleHost)
               (range_to (options_range (exampleOptions [exampleTarget "up" false]))) true)
    as Horder by (vm_compute; discriminate).
  split; [exact Horder |].
  exact (query_sends_every_query (host := exampleHost) exampleDatasource
           (exampleOptions [exampleTarget "up" false]) false exampleWorld Horder).
Defined.


(** One Explore target: the instant twin is answered first, with a
    [Loading] state, then the range query, with [Done]. *)
Example query_with_observer_example :
  map (fun state => (stream_key state, stream_state state))
    (observed
       (snd (query (host := exampleHost) exampleDatasource (exampleOptions [exploreTarget])
               true exampleWorld)))
  = [("prometheus-A_instant", Loading); ("prometheus-A", Done)].
Proof. vm_compute. reflexivity. Qed.

Lemma performSuggestQuery_then_cached_witness :
  ~ (true = true /\ cacheIsFresh exampleWorld) /\
  performSuggestQuery (host := exampleHost) exampleDatasource "up" true
    (snd (performSuggestQuery (host := exampleHost) exampleDatasource "up" true
            exampleWorld))
  = (Normal (Resolved [VStr "up"; VStr "node_load1"]),
     snd (performSuggestQuery (host := exampleHost) exampleDatasource "up" true
            exampleWorld)).
Proof.
  assert (~ (true = true /\ cacheIsFresh exampleWorld)) as Hstale.
  { intros [_ (cached & Hcache & _)]. discriminate Hcache. }
  split; [exact Hstale |].
  apply (performSuggestQuery_then_cached (host := exampleHost) exampleDatasource "up" true
           exampleWorld _ [VStr "up"; VStr "node_load1"] Hstale).
  - reflexivity.
  - reflexivity.
  - reflexivity.
Defined.

Lemma annotationQuery_value_is_true_witness :
  truthy (annotation_useValueForTime alertAnnotation) = false /\
  map event_time
    (annotationEvents (host := exampleHost) alertAnnotation
       [{| series_metric := [("alertname", "HighLoad")];
           series_values := [(10, "1"); (70, "0"); (130, "1"); (130, "1")] |}])
  = [Int 10000; Int 130000; Int 130000].
Proof.
  split; [reflexivity |].
  exact (annotationQuery_value_is_true (host := exampleHost) alertAnnotation
           [{| series_metric := [("alertname", "HighLoad")];
               series_values := [(10, "1"); (70, "0"); (130, "1"); (130, "1")] |}]
           eq_refl).
Defined.

Lemma annotationQuery_without_expr_witness :
  falsy_string (annotation_expr emptyAnnotation) = true /\
  annotationQuery (host := exampleHost) exampleDatasource emptyAnnotation
    (exampleOptions []) exampleWorld
  = (Normal (Resolved []), exampleWorld).
Proof.
  split; [reflexivity |].
  exact (annotationQuery_without_expr (host := exampleHost) exampleDatasource
           emptyAnnotation (exampleOptions []) exampleWorld eq_refl).
Defined.

Lemma annotationQuery_resolves_witness :
  falsy_string (annotation_expr alertAnnotation) = false /\
  getPrometheusTime (host := alertsHost) (range_from (options_range (exampleOptions [])))
    false
  <= getPrometheusTime (host := alertsHost) (range_to (options_range (exampleOptions [])))
       true /\
  exists (settled : promise (list AnnotationEvent)) (sent : httpOptions),
    fst (annotationQuery (host := alertsHost) exampleDatasource alertAnnotation
           (exampleOptions []) exampleWorld) = Normal settled /\
    requests (snd (annotationQuery (host := alertsHost) exampleDatasource alertAnnotation
                     (exampleOptions []) exampleWorld))
    = requests exampleWorld ++ [sent] /\
    settled =
    Resolved
      (annotationEvents (host := alertsHost) alertAnnotation
         [{| series_metric := [("alertname", "Down"); ("job", "node")];
             series_values := [(60, "1"); (120, "0"); (180, "1")] |}]).
Proof.
  assert (getPrometheusTime (host := alertsHost)
            (range_from (options_range (exampleOptions []))) false
          <= getPrometheusTime (host := alertsHost)
               (range_to (options_range (exampleOptions []))) true)
    as Horder by (vm_compute; discriminate).
  split; [reflexivity |]. split; [exact Horder |].
  destruct (annotationQuery_resolves (host := alertsHost) exampleDatasource alertAnnotation
              (exampleOptions []) exampleWorld eq_refl Horder)
    as (settled & sent & Hfst & Hrequests & Hrows).
  exists settled, sent. split; [exact Hfst |]. split; [exact Hrequests |].
  exact (Hrows _ _ eq_refl eq_refl eq_refl).
Defined.

(** The events of the answer of [alertsBackend]: one for each sample
    with the value 1, tagged with the alert name. *)
Example annotationQuery_alerts_example :
  fst (annotationQuery (host := alertsHost) exampleDatasource alertAnnotation
         (exampleOptions []) exampleWorld)
  = Normal
      (Resolved
         [{| event_annotation := alertAnnotation; event_title := ""; event_tags := ["Down"];
             event_text := ""; event_time := Int 60000 |};
          {| event_annotation := alertAnnotation; event_title := ""; event_tags := ["Down"];
             event_text := ""; event_time := Int 180000 |}]).
Proof. vm_compute. reflexivity. Qed.

Lemma annotationQuery_cancelled_witness :
  falsy_string (annotation_expr alertAnnotation) = false /\
  fst (annotationQuery (host := cancellingHost) exampleDatasource alertAnnotation
         (exampleOptions []) exampleWorld)
  = Normal (Rejected TypeError).
Proof.
  assert (getPrometheusTime (host := cancellingHost)
            (range_from (options_range (exampleOptions []))) false
          <= getPrometheusTime (host := cancellingHost)
               (range_to (options_range (exampleOptions []))) true)
    as Horder by (vm_compute; discriminate).
  split; [reflexivity |].
  apply (annotationQuery_cancelled (host := cancellingHost) exampleDatasource
           alertAnnotation (exampleOptions []) exampleWorld eq_refl Horder).
  intros sent. exists (VObj [("cancelled", VBool true)]).
  repeat split.
Defined.

Lemma interpolateQueryExpr_plain_value_witness :
  every_char plain_char "node_exporter" = true /\
  interpolateQueryExpr (host := exampleHost) (VStr "node_exporter")
    {| variable_multi := VBool true; variable_includeAll := VBool false |}
  = VStr "node_exporter".
Proof.
  split; [reflexivity |].
  exact (proj2 (interpolateQueryExpr_plain_value (host := exampleHost) "node_exporter"
                  {| variable_multi := VBool true; variable_includeAll := VBool false |}
                  eq_refl)).
Defined.

(** The recording rules of two groups: the alerting rule is left out and
    the later rule of a name wins. *)
Example extractRuleMappingFromGroups_example :
  extractRuleMappingFromGroups
    [{| group_rules :=
          [{| rule_type := "recording"; rule_name := "job:up:sum"; rule_query := "sum(up)" |};
           {| rule_type := "alerting"; rule_name := "Down"; rule_query := "up == 0" |}] |};
     {| group_rules :=
          [{| rule_type := "recording"; rule_name := "job:up:sum";
              rule_query := "sum(up) by (job)" |}] |}]
  = {["job:up:sum" := "sum(up) by (job)"]}.
Proof. vm_compute. reflexivity. Qed.
